(** * SingleLinkedList<Type>: a shallow embedding of single-linked-list.h

    The container is a chain of heap nodes hanging off a sentinel node
    [head_] that is a member of the list object.  The embedding keeps the
    pointers: a [Node*] is null, the address of a heap node, or the address
    of the [head_] member of a list object.  Every member function is a
    computation over an explicit machine state (the node heap and the live
    list objects) that can return, throw, abort on a failed [assert], or
    run into undefined behaviour.

    Modelling choices: a 64-bit machine ([size_t] and addresses are 64-bit
    words); [operator new] hands out the address above the highest node in
    use and throws when there is none left; the copy constructor of the
    element type throws on the values picked out by [Type_copy_throws] and
    otherwise yields the value itself; loops take a fuel argument, and the
    statements say which fuel is enough. *)

From stdpp Require Import base numbers option list gmap.

(** ** Addresses and pointers *)

(** Heap addresses are machine words; address 0 is never handed out. *)
Definition addr : Set := N.

(** One past the largest address of a 64-bit machine. *)
Definition addr_limit : N := 18446744073709551616.

(** [size_t] is a 64-bit unsigned integer: arithmetic wraps at [2^64]. *)
Definition size_t_modulus : N := 18446744073709551616.

(** Identity of a live [SingleLinkedList] object (automatic or member
    storage, not taken from the node heap). *)
Definition obj : Set := positive.

(** [Node*] *)
Inductive NodePtr : Set :=
| nullptr
| heap_node (a : addr)
| head_of (l : obj).

#[global] Instance NodePtr_eq_dec : EqDecision NodePtr.
Proof. solve_decision. Defined.

(** What the template needs from its parameter [Type]: a default value
    (the sentinel is value-initialised), a copy constructor that may throw,
    [operator==] and [operator<]. *)
Class ElementType (T : Type) : Type := {
  Type_default : T;
  Type_copy_throws : T → bool;
  Type_eq : T → T → bool;
  Type_lt : T → T → bool
}.

(** [BasicIterator<ValueType>]: [ValueType] is [Type] or [const Type]. *)
Inductive ValueType : Set := Mutable | Const.

Record BasicIterator (c : ValueType) : Set := mkIterator { node_ : NodePtr }.
Arguments mkIterator {c} _.
Arguments node_ {c} _.

Abbreviation Iterator := (BasicIterator Mutable).
Abbreviation ConstIterator := (BasicIterator Const).

(** [BasicIterator() = default]: [node_ = nullptr]. *)
Definition BasicIterator_default (c : ValueType) : BasicIterator c :=
  mkIterator nullptr.

(** [BasicIterator(const BasicIterator<Type>& other)]: copy for [Iterator],
    conversion for [ConstIterator]. *)
Definition BasicIterator_from (c : ValueType) (other : Iterator) : BasicIterator c :=
  mkIterator (node_ other).

(** Both overloads of [operator==] (right operand const or not). *)
Definition iterator_eq {c1 c2 : ValueType}
    (lhs : BasicIterator c1) (rhs : BasicIterator c2) : bool :=
  bool_decide (node_ lhs = node_ rhs).

(** Both overloads of [operator!=]. *)
Definition iterator_ne {c1 c2 : ValueType}
    (lhs : BasicIterator c1) (rhs : BasicIterator c2) : bool :=
  negb (bool_decide (node_ lhs = node_ rhs)).

(** How the translation unit is compiled: [NDEBUG] is [true] in a release
    build, where [assert] expands to nothing, and [false] in a debug
    build. *)
Class BuildMode : Set := { NDEBUG : bool }.

Section SingleLinkedList.
Context {T : Type} {elem : ElementType T} {build : BuildMode}.

Record Node : Type := mkNode { value : T; next_node : NodePtr }.

Record SingleLinkedList : Type := mkList { head_ : Node; size_ : N }.

(** The machine state: heap nodes by address, list objects by identity. *)
Record State : Type := mkState {
  heap : gmap addr Node;
  objs : gmap obj SingleLinkedList
}.

(** ** Outcomes *)

Inductive outcome (A : Type) : Type :=
| Ok (a : A) (s : State)      (* normal return *)
| Throw (s : State)           (* an exception leaves the function *)
| Abort                       (* a failed assert *)
| UB                          (* null or dangling pointer use *)
| OutOfFuel.                  (* the loop bound of the model was hit *)
Arguments Ok {A} _ _.
Arguments Throw {A} _.
Arguments Abort {A}.
Arguments UB {A}.
Arguments OutOfFuel {A}.

Definition M (A : Type) : Type := State → outcome A.

Definition ret {A} (a : A) : M A := λ s, Ok a s.

Definition bind {A B} (m : M A) (k : A → M B) : M B := λ s,
  match m s with
  | Ok a s' => k a s'
  | Throw s' => Throw s'
  | Abort => Abort
  | UB => UB
  | OutOfFuel => OutOfFuel
  end.

Notation "x <- m ;; k" := (bind m (λ x, k))
  (at level 100, m at next level, right associativity).
Notation "m ;;; k" := (bind m (λ _, k))
  (at level 100, right associativity).

(** Runs [cleanup] when [m] returns and when [m] throws (stack unwinding of
    a local with a destructor). *)
Definition finally {A} (m : M A) (cleanup : M unit) : M A := λ s,
  match m s with
  | Ok a s' =>
      match cleanup s' with
      | Ok _ s'' => Ok a s''
      | Throw s'' => Throw s''
      | Abort => Abort
      | UB => UB
      | OutOfFuel => OutOfFuel
      end
  | Throw s' =>
      match cleanup s' with
      | Ok _ s'' => Throw s''
      | Throw s'' => Throw s''
      | Abort => Abort
      | UB => UB
      | OutOfFuel => OutOfFuel
      end
  | Abort => Abort
  | UB => UB
  | OutOfFuel => OutOfFuel
  end.

(** [assert(cond)]: with [NDEBUG] the condition is not even evaluated. *)
Definition assert_ (cond : M bool) : M unit := λ s,
  if NDEBUG then Ok () s
  else match cond s with
       | Ok true s' => Ok () s'
       | Ok false _ => Abort
       | Throw s' => Throw s'
       | Abort => Abort
       | UB => UB
       | OutOfFuel => OutOfFuel
       end.

(** ** Memory *)

(** [*p] for a [Node* p]. *)
Definition load (p : NodePtr) : M Node := λ s,
  match p with
  | nullptr => UB
  | heap_node a =>
      match heap s !! a with Some n => Ok n s | None => UB end
  | head_of l =>
      match objs s !! l with Some o => Ok (head_ o) s | None => UB end
  end.

(** [p->next_node = q] *)
Definition set_next (p q : NodePtr) : M unit := λ s,
  match p with
  | nullptr => UB
  | heap_node a =>
      match heap s !! a with
      | Some n => Ok () (mkState (<[a := mkNode (value n) q]> (heap s)) (objs s))
      | None => UB
      end
  | head_of l =>
      match objs s !! l with
      | Some o =>
          Ok () (mkState (heap s)
                   (<[l := mkList (mkNode (value (head_ o)) q) (size_ o)]> (objs s)))
      | None => UB
      end
  end.

(** [p->next_node] *)
Definition get_next (p : NodePtr) : M NodePtr :=
  n <- load p ;; ret (next_node n).

(** The first address above every allocated node; never 0. *)
Definition heap_top (h : gmap addr Node) : addr :=
  map_fold (λ a _ top, N.max (N.succ a) top) 1%N h.

(** [operator new]: a fresh address, or nothing when the address space is
    used up ([std::bad_alloc]). *)
Definition operator_new (h : gmap addr Node) : option addr :=
  let a := heap_top h in
  if (a <? addr_limit)%N then Some a else None.

(** [new Node(val, next)]: allocation, then the copy of [val] into the
    node; when either throws the heap is as before. *)
Definition new_Node (val : T) (next : NodePtr) : M NodePtr := λ s,
  match operator_new (heap s) with
  | None => Throw s
  | Some a =>
      if Type_copy_throws val then Throw s
      else Ok (heap_node a) (mkState (<[a := mkNode val next]> (heap s)) (objs s))
  end.

(** [delete p] *)
Definition delete_Node (p : NodePtr) : M unit := λ s,
  match p with
  | nullptr => Ok () s
  | heap_node a =>
      match heap s !! a with
      | Some _ => Ok () (mkState (delete a (heap s)) (objs s))
      | None => UB
      end
  | head_of _ => UB
  end.

(** Reads and writes of the member [size_]. *)
Definition get_size (this : obj) : M N := λ s,
  match objs s !! this with Some o => Ok (size_ o) s | None => UB end.

Definition set_size (this : obj) (n : N) : M unit := λ s,
  match objs s !! this with
  | Some o => Ok () (mkState (heap s) (<[this := mkList (head_ o) n]> (objs s)))
  | None => UB
  end.

(** [++size_] and [--size_] on a [size_t]. *)
Definition incr_size (this : obj) : M unit :=
  n <- get_size this ;; set_size this ((n + 1) mod size_t_modulus)%N.

Definition decr_size (this : obj) : M unit :=
  n <- get_size this ;;
  set_size this ((n + size_t_modulus - 1) mod size_t_modulus)%N.

(** ** Iterators *)

(** [operator++()] *)
Definition iterator_incr {c} (it : BasicIterator c) : M (BasicIterator c) :=
  assert_ (ret (negb (bool_decide (node_ it = nullptr)))) ;;;
  n <- get_next (node_ it) ;;
  ret (mkIterator n).

(** [operator*()] *)
Definition iterator_deref {c} (it : BasicIterator c) : M T :=
  assert_ (ret (negb (bool_decide (node_ it = nullptr)))) ;;;
  n <- load (node_ it) ;;
  ret (value n).

(** [operator++(int)]: the value before the increment is returned; the
    second component is the iterator itself after the call. *)
Definition iterator_post_incr {c} (it : BasicIterator c)
    : M (BasicIterator c * BasicIterator c) :=
  assert_ (ret (negb (bool_decide (node_ it = nullptr)))) ;;;
  it' <- iterator_incr it ;;
  ret (it, it').

(** ** Member functions *)

Definition GetSize (this : obj) : M N := get_size this.

Definition IsEmpty (this : obj) : M bool :=
  n <- get_size this ;; ret (n =? 0)%N.

(** [begin()], [begin() const] and [cbegin()] *)
Definition begin (c : ValueType) (this : obj) : M (BasicIterator c) :=
  p <- get_next (head_of this) ;; ret (mkIterator p).

(** [end()], [end() const] and [cend()] *)
Definition end_ (c : ValueType) (this : obj) : M (BasicIterator c) :=
  ret (mkIterator nullptr).

(** [before_begin()], [before_begin() const] and [cbefore_begin()] *)
Definition before_begin (c : ValueType) (this : obj) : M (BasicIterator c) :=
  ret (mkIterator (head_of this)).

Definition PushFront (this : obj) (val : T) : M unit :=
  old <- get_next (head_of this) ;;
  n <- new_Node val old ;;
  set_next (head_of this) n ;;;
  incr_size this.

Definition InsertAfter (this : obj) (pos : ConstIterator) (val : T) : M Iterator :=
  assert_ (ret (negb (bool_decide (node_ pos = nullptr)))) ;;;
  node_after_added <- get_next (node_ pos) ;;
  new_node <- new_Node val node_after_added ;;
  set_next (node_ pos) new_node ;;;
  incr_size this ;;;
  r <- get_next (node_ pos) ;;
  ret (mkIterator r).

Definition EraseAfter (this : obj) (pos : ConstIterator) : M Iterator :=
  assert_ (e <- IsEmpty this ;; ret (negb e)) ;;;
  after_pos <- get_next (node_ pos) ;;
  node_after_deleted <- get_next after_pos ;;
  to_del <- get_next (node_ pos) ;;
  delete_Node to_del ;;;
  set_next (node_ pos) node_after_deleted ;;;
  decr_size this ;;;
  ret (mkIterator node_after_deleted).

Definition PopFront (this : obj) : M unit :=
  assert_ (e <- IsEmpty this ;; ret (negb e)) ;;;
  node_to_del <- get_next (head_of this) ;;
  after <- get_next node_to_del ;;
  set_next (head_of this) after ;;;
  decr_size this ;;;
  delete_Node node_to_del.

(** The [while] loop of [Clear]. *)
Fixpoint Clear_loop (fuel : nat) (this : obj) : M unit :=
  match fuel with
  | O => λ _, OutOfFuel
  | S fuel' =>
      first <- get_next (head_of this) ;;
      if bool_decide (first = nullptr) then ret ()
      else
        after <- get_next first ;;
        set_next (head_of this) after ;;;
        delete_Node first ;;;
        Clear_loop fuel' this
  end.

Definition Clear (fuel : nat) (this : obj) : M unit :=
  Clear_loop fuel this ;;;
  set_size this 0%N.

(** Member [swap]. *)
Definition swap (this other : obj) : M unit :=
  a <- get_next (head_of this) ;;
  b <- get_next (head_of other) ;;
  set_next (head_of this) b ;;;
  set_next (head_of other) a ;;;
  n <- get_size this ;;
  m <- get_size other ;;
  set_size this m ;;;
  set_size other n.

(** The free function [swap(lhs, rhs)]. *)
Definition swap_lists (lhs rhs : obj) : M unit := swap lhs rhs.

(** ** Construction and destruction *)

(** Storage for a new list object with its default member initialisers
    [head_ = {}] and [size_ = 0]. *)
Definition alloc_object : M obj := λ s,
  let l := fresh (dom (objs s)) in
  Ok l (mkState (heap s)
          (<[l := mkList (mkNode Type_default nullptr) 0%N]> (objs s))).

Definition free_object (l : obj) : M unit := λ s,
  Ok () (mkState (heap s) (delete l (objs s))).

(** [SingleLinkedList() = default] *)
Definition SingleLinkedList_default : M obj := alloc_object.

(** [~SingleLinkedList()], then the storage goes away. *)
Definition destructor (fuel : nat) (this : obj) : M unit :=
  Clear fuel this ;;;
  free_object this.

(** Runs [cleanup] only when [m] throws (a constructor body that throws:
    the object never existed, its storage is released). *)
Definition on_throw {A} (m : M A) (cleanup : M unit) : M A := λ s,
  match m s with
  | Throw s' =>
      match cleanup s' with
      | Ok _ s'' => Throw s''
      | Throw s'' => Throw s''
      | Abort => Abort
      | UB => UB
      | OutOfFuel => OutOfFuel
      end
  | r => r
  end.

(** The copy of an element into a local ([auto value] in the range-for). *)
Definition copy_Type (v : T) : M T := λ s,
  if Type_copy_throws v then Throw s else Ok v s.

(** What [FillingListInSeries] asks of its template parameter
    [Container]: a range-for over it. *)
Class Container (C It : Type) : Type := {
  range_begin : C → M It;
  range_end : C → M It;
  range_ne : It → It → bool;
  range_incr : It → M It;
  range_deref : It → M T
}.

(** [std::initializer_list<Type>]: the iterator is a pointer into the
    backing array, here the array and an index. *)
#[global] Instance initializer_list_Container : Container (list T) (list T * nat) := {
  range_begin l := ret (l, 0);
  range_end l := ret (l, length l);
  range_ne a b := negb (a.2 =? b.2);
  range_incr a := ret (a.1, S a.2);
  range_deref a := λ s, match a.1 !! a.2 with Some x => Ok x s | None => UB end
}.

(** [const SingleLinkedList&]: [begin() const], [end() const] and the
    [ConstIterator] operators. *)
#[global] Instance SingleLinkedList_Container : Container obj ConstIterator := {
  range_begin := begin Const;
  range_end := end_ Const;
  range_ne := iterator_ne;
  range_incr := iterator_incr;
  range_deref := iterator_deref
}.

(** The range-for of [FillingListInSeries]. *)
Fixpoint Filling_loop {C It} `{!Container C It} (fuel : nat)
    (temp_list : obj) (temp_it : Iterator) (it last : It) : M unit :=
  match fuel with
  | O => λ _, OutOfFuel
  | S fuel' =>
      if range_ne it last then
        v <- range_deref it ;;
        val <- copy_Type v ;;
        InsertAfter temp_list (BasicIterator_from Const temp_it) val ;;;
        temp_it' <- iterator_incr temp_it ;;
        it' <- range_incr it ;;
        Filling_loop fuel' temp_list temp_it' it' last
      else ret ()
  end.

Definition FillingListInSeries {C It} `{!Container C It} (fuel : nat)
    (this : obj) (from : C) : M unit :=
  assert_ (IsEmpty this) ;;;
  temp_list <- SingleLinkedList_default ;;
  finally
    (bb <- before_begin Mutable temp_list ;;
     first <- range_begin from ;;
     last <- range_end from ;;
     Filling_loop fuel temp_list (BasicIterator_from Mutable bb) first last ;;;
     swap this temp_list)
    (destructor fuel temp_list).

(** [SingleLinkedList(std::initializer_list<Type> values)] *)
Definition SingleLinkedList_init (fuel : nat) (values : list T) : M obj :=
  this <- alloc_object ;;
  on_throw (FillingListInSeries fuel this values) (free_object this) ;;;
  ret this.

(** [SingleLinkedList(const SingleLinkedList& other)] *)
Definition SingleLinkedList_copy (fuel : nat) (other : obj) : M obj :=
  this <- alloc_object ;;
  on_throw (FillingListInSeries fuel this other) (free_object this) ;;;
  ret this.

(** [operator=(const SingleLinkedList& rhs)] *)
Definition operator_assign (fuel : nat) (this rhs : obj) : M obj :=
  if bool_decide (this = rhs) then ret this
  else
    tmp <- SingleLinkedList_copy fuel rhs ;;
    finally (swap this tmp) (destructor fuel tmp) ;;;
    ret this.

(** ** Comparisons *)

(** [std::equal(first1, last1, first2, last2)] on forward iterators. *)
Fixpoint std_equal (fuel : nat) (first1 last1 first2 last2 : ConstIterator) : M bool :=
  match fuel with
  | O => λ _, OutOfFuel
  | S fuel' =>
      if iterator_ne first1 last1 && iterator_ne first2 last2 then
        x <- iterator_deref first1 ;;
        y <- iterator_deref first2 ;;
        if negb (Type_eq x y) then ret false
        else
          next1 <- iterator_incr first1 ;;
          next2 <- iterator_incr first2 ;;
          std_equal fuel' next1 last1 next2 last2
      else ret (iterator_eq first1 last1 && iterator_eq first2 last2)
  end.

(** [std::lexicographical_compare(first1, last1, first2, last2)] *)
Fixpoint std_lexicographical_compare (fuel : nat)
    (first1 last1 first2 last2 : ConstIterator) : M bool :=
  match fuel with
  | O => λ _, OutOfFuel
  | S fuel' =>
      if iterator_ne first1 last1 && iterator_ne first2 last2 then
        x <- iterator_deref first1 ;;
        y <- iterator_deref first2 ;;
        if Type_lt x y then ret true
        else if Type_lt y x then ret false
        else
          next1 <- iterator_incr first1 ;;
          next2 <- iterator_incr first2 ;;
          std_lexicographical_compare fuel' next1 last1 next2 last2
      else ret (iterator_eq first1 last1 && iterator_ne first2 last2)
  end.

Definition operator_eq (fuel : nat) (lhs rhs : obj) : M bool :=
  b1 <- begin Const lhs ;;
  e1 <- end_ Const lhs ;;
  b2 <- begin Const rhs ;;
  e2 <- end_ Const rhs ;;
  std_equal fuel b1 e1 b2 e2.

Definition operator_ne (fuel : nat) (lhs rhs : obj) : M bool :=
  b <- operator_eq fuel lhs rhs ;; ret (negb b).

Definition operator_lt (fuel : nat) (lhs rhs : obj) : M bool :=
  b1 <- begin Const lhs ;;
  e1 <- end_ Const lhs ;;
  b2 <- begin Const rhs ;;
  e2 <- end_ Const rhs ;;
  std_lexicographical_compare fuel b1 e1 b2 e2.

Definition operator_le (fuel : nat) (lhs rhs : obj) : M bool :=
  b <- operator_lt fuel rhs lhs ;; ret (negb b).

Definition operator_gt (fuel : nat) (lhs rhs : obj) : M bool :=
  operator_lt fuel rhs lhs.

Definition operator_ge (fuel : nat) (lhs rhs : obj) : M bool :=
  b <- operator_lt fuel rhs lhs ;; ret (negb b).

(** ** Observing a list *)

(** The client loop that walks from [first] to [last] with [operator!=],
    [operator++] and the dereference, collecting the values it reads. *)
Fixpoint traverse (fuel : nat) (it last : ConstIterator) : M (list T) :=
  match fuel with
  | O => λ _, OutOfFuel
  | S fuel' =>
      if iterator_ne it last then
        x <- iterator_deref it ;;
        it' <- iterator_incr it ;;
        rest <- traverse fuel' it' last ;;
        ret (x :: rest)
      else ret []
  end.

(** Traversal from [begin()] to [end()]. *)
Definition to_list (fuel : nat) (this : obj) : M (list T) :=
  b <- begin Const this ;;
  e <- end_ Const this ;;
  traverse fuel b e.

End SingleLinkedList.

Notation "x <- m ;; k" := (bind m (λ x, k))
  (at level 100, m at next level, right associativity).
Notation "m ;;; k" := (bind m (λ _, k))
  (at level 100, right associativity).

Arguments Ok {T A} _ _.
Arguments Throw {T A} _.
Arguments Abort {T A}.
Arguments UB {T A}.
Arguments OutOfFuel {T A}.

(** ** Concrete instances used by the examples *)

Definition debug_build : BuildMode := {| NDEBUG := false |}.
Definition release_build : BuildMode := {| NDEBUG := true |}.

(** [int] elements: copies never throw. *)
Definition int_ElementType : ElementType Z := {|
  Type_default := 0%Z;
  Type_copy_throws := λ _, false;
  Type_eq := Z.eqb;
  Type_lt := Z.ltb
|}.

(** An element type whose copy constructor throws on the value 13. *)
Definition unlucky_ElementType : ElementType Z := {|
  Type_default := 0%Z;
  Type_copy_throws := λ z, (z =? 13)%Z;
  Type_eq := Z.eqb;
  Type_lt := Z.ltb
|}.

Definition empty_state : State (T:=Z) := mkState ∅ ∅.

(** One list, object 1, holding 1, 2, 3 in the nodes at 1, 2, 3. *)
Definition state_123 : State (T:=Z) :=
  mkState
    (list_to_map [(1%N, mkNode 1%Z (heap_node 2%N)); (2%N, mkNode 2%Z (heap_node 3%N));
                  (3%N, mkNode 3%Z nullptr)])
    (list_to_map [(1%positive, mkList (mkNode 0%Z (heap_node 1%N)) 3%N)]).

Definition cells_123 : list (addr * Z) := [(1%N, 1%Z); (2%N, 2%Z); (3%N, 3%Z)].

(** Two lists: object 1 holds the single value 1, object 2 the single
    value 2. *)
Definition state_1_2 : State (T:=Z) :=
  mkState
    (list_to_map [(1%N, mkNode 1%Z nullptr); (2%N, mkNode 2%Z nullptr)])
    (list_to_map [(1%positive, mkList (mkNode 0%Z (heap_node 1%N)) 1%N);
                  (2%positive, mkList (mkNode 0%Z (heap_node 2%N)) 1%N)]).

(** Two equal lists: objects 1 and 2 both hold 5, 6. *)
Definition state_twins : State (T:=Z) :=
  mkState
    (list_to_map [(1%N, mkNode 5%Z (heap_node 2%N)); (2%N, mkNode 6%Z nullptr);
                  (3%N, mkNode 5%Z (heap_node 4%N)); (4%N, mkNode 6%Z nullptr)])
    (list_to_map [(1%positive, mkList (mkNode 0%Z (heap_node 1%N)) 2%N);
                  (2%positive, mkList (mkNode 0%Z (heap_node 3%N)) 2%N)]).

(** For the element type that cannot copy 13: object 1 holds 1, 13 and
    object 2 holds 4. *)
Definition state_unlucky : State (T:=Z) :=
  mkState
    (list_to_map [(1%N, mkNode 1%Z (heap_node 2%N)); (2%N, mkNode 13%Z nullptr);
                  (3%N, mkNode 4%Z nullptr)])
    (list_to_map [(1%positive, mkList (mkNode 0%Z (heap_node 1%N)) 2%N);
                  (2%positive, mkList (mkNode 0%Z (heap_node 3%N)) 1%N)]).

(** One empty list, object 1. *)
Definition state_empty_list : State (T:=Z) :=
  mkState ∅ (list_to_map [(1%positive, mkList (mkNode 0%Z nullptr) 0%N)]).


(** ** Representation *)

Section Representation.
Context {T : Type} {elem : ElementType T} {build : BuildMode}.

(** [lseg h p q cells]: following [next_node] from [p] one meets exactly
    the heap nodes [cells] (address and stored value, in order) and then
    the pointer [q]. *)
Fixpoint lseg (h : gmap addr (Node (T:=T))) (p q : NodePtr) (cells : list (addr * T)) : Prop :=
  match cells with
  | [] => p = q
  | c :: rest =>
      p = heap_node c.1 ∧
      ∃ r, h !! c.1 = Some (mkNode c.2 r) ∧ lseg h r q rest
  end.

(** The list object [this] owns the chain [cells] and its counter agrees. *)
Definition is_list (s : State (T:=T)) (this : obj) (cells : list (addr * T)) : Prop :=
  ∃ l, objs s !! this = Some l ∧
       lseg (heap s) (next_node (head_ l)) nullptr cells ∧
       size_ l = N.of_nat (length cells).

(** The container invariant: [size_] is the number of real nodes reachable
    from the sentinel by next-links. *)
Definition size_invariant (s : State (T:=T)) (this : obj) : Prop :=
  ∃ cells, is_list s this cells.

(** Every allocated node sits at a non-null machine address. *)
Definition heap_wf (s : State (T:=T)) : Prop :=
  map_Forall (λ a _, (0 < a < addr_limit)%N) (heap s).

#[global] Instance heap_wf_dec (s : State (T:=T)) : Decision (heap_wf s).
Proof. unfold heap_wf. apply _. Defined.

(** [p] is the sentinel of [this] (index 0) or its [i]-th node. *)
Definition pos_at (this : obj) (cells : list (addr * T)) (i : nat) (p : NodePtr) : Prop :=
  match i with
  | O => p = head_of this
  | S j => ∃ c, cells !! j = Some c ∧ p = heap_node c.1
  end.

(** The heap address behind a node pointer, if any. *)
Definition addr_of (p : NodePtr) : list addr :=
  match p with heap_node a => [a] | _ => [] end.

(** [s'] differs from [s] at most in the object [this] and in the heap
    cells [touched]. *)
Definition unchanged_except (this : obj) (touched : list addr) (s s' : State (T:=T)) : Prop :=
  (∀ o, o ≠ this → objs s' !! o = objs s !! o) ∧
  (∀ b, b ∉ touched → heap s' !! b = heap s !! b).

(** The heap [h'] agrees with [h] on every address below [t]. *)
Definition heap_below (t : addr) (h h' : gmap addr (Node (T:=T))) : Prop :=
  ∀ b, (b < t)%N → h' !! b = h !! b.

(** Copying the values [xs] one by one into fresh nodes succeeds when the
    first free address is [top]: every copy constructor returns and every
    allocation finds an address. *)
Fixpoint fill_succeeds (top : addr) (xs : list T) : bool :=
  match xs with
  | [] => true
  | x :: rest =>
      (top <? addr_limit)%N && negb (Type_copy_throws x) &&
      fill_succeeds (N.succ top) rest
  end.

(** The spec's equality of two sequences: equal length and equal elements
    (by the element type's [operator==]) at every position. *)
Definition spec_equal (xs ys : list T) : Prop :=
  length xs = length ys ∧
  ∀ i x y, xs !! i = Some x → ys !! i = Some y → Type_eq x y = true.

(** What an iterator into the initializer list [l] has left to read. *)
Definition init_src (l : list T) (t : addr) (h : gmap addr (Node (T:=T)))
    (it : list T * nat) (xs : list T) : Prop :=
  ∃ pre, l = pre ++ xs ∧ it = (l, length pre).

(** What a [ConstIterator] into a chain below the address [t] has left to
    read. *)
Definition list_src (t : addr) (h : gmap addr (Node (T:=T)))
    (it : ConstIterator) (xs : list T) : Prop :=
  ∃ cells, lseg h (node_ it) nullptr cells ∧ cells.*2 = xs ∧
           ∀ a, a ∈ cells.*1 → (a < t)%N.

(** The pointer to the node number [i] of a chain, null past its end. *)
Definition node_ptr (cells : list (addr * T)) (i : nat) : NodePtr :=
  match cells !! i with Some c => heap_node c.1 | None => nullptr end.

(** The pure counterpart of [std::equal]. *)
Fixpoint equal_values (xs ys : list T) : bool :=
  match xs, ys with
  | [], [] => true
  | x :: xs', y :: ys' => Type_eq x y && equal_values xs' ys'
  | _, _ => false
  end.

(** The pure counterpart of [std::lexicographical_compare]: the first
    position where the elements differ (by [operator<]) decides; without
    one, the shorter sequence is the smaller. *)
Fixpoint lexicographic_less (xs ys : list T) : bool :=
  match xs, ys with
  | _, [] => false
  | [], _ :: _ => true
  | x :: xs', y :: ys' =>
      if Type_lt x y then true
      else if Type_lt y x then false
      else lexicographic_less xs' ys'
  end.

(** Lexicographic order in words: up to some index [i] the elements are
    pairwise equivalent (neither is less than the other), and there either
    the first sequence has ended while the second goes on, or the element
    of the first is less than the element of the second. *)
Definition spec_less (xs ys : list T) : Prop :=
  ∃ i, (∀ j x y, j < i → xs !! j = Some x → ys !! j = Some y →
                 Type_lt x y = false ∧ Type_lt y x = false) ∧
       i ≤ length xs ∧ i ≤ length ys ∧
       ((length xs = i ∧ i < length ys) ∨
        ∃ x y, xs !! i = Some x ∧ ys !! i = Some y ∧ Type_lt x y = true).

(** [new Node(v, _)] succeeds in state [s]. *)
Definition can_allocate (s : State (T:=T)) (v : T) : bool :=
  (heap_top (heap s) <? addr_limit)%N && negb (Type_copy_throws v).

End Representation.

Section Chains.
Context {T : Type} {elem : ElementType T} {build : BuildMode}.
Implicit Types (h : gmap addr (Node (T:=T))) (s : State (T:=T)).
Implicit Types (cells : list (addr * T)) (p q : NodePtr) (this : obj).

Lemma heap_wf_check s : bool_decide (heap_wf s) = true → heap_wf s.
Proof. apply bool_decide_eq_true_1. Qed.

Lemma lseg_frame h h' p q cells :
  (∀ a, a ∈ cells.*1 → h' !! a = h !! a) →
  lseg h p q cells → lseg h' p q cells.
Proof.
  revert p. induction cells as [|[a x] rest IH]; intros p Hag; simpl; [done|].
  intros [-> (r & Ha & Hr)]. split; [done|]. exists r. split.
  - rewrite Hag; [done|]. simpl. left.
  - apply IH; [|done]. intros b Hb. apply Hag. simpl. by right.
Qed.

Lemma lseg_app h p q cells1 cells2 :
  lseg h p q (cells1 ++ cells2) ↔
  ∃ r, lseg h p r cells1 ∧ lseg h r q cells2.
Proof.
  revert p. induction cells1 as [|[a x] rest IH]; intros p; simpl.
  - split; [intros Hl; by exists p|]. by intros (r & -> & Hl).
  - split.
    + intros [-> (r & Ha & Hr)]. apply IH in Hr as (r' & H1 & H2).
      exists r'. split; [|done]. split; [done|]. by exists r.
    + intros (r' & [-> (r & Ha & Hr)] & H2). split; [done|].
      exists r. split; [done|]. apply IH. by exists r'.
Qed.

Lemma lseg_det h p cells1 cells2 :
  lseg h p nullptr cells1 → lseg h p nullptr cells2 → cells1 = cells2.
Proof.
  revert p cells2. induction cells1 as [|[a x] rest IH]; intros p [|[b y] rest2]; simpl.
  - done.
  - intros -> [? _]. done.
  - intros [-> _] ?. done.
  - intros [-> (r & Ha & Hr)] [[= <-] (r2 & Hb & Hr2)].
    rewrite Ha in Hb. injection Hb as <- <-. f_equal. by eapply IH.
Qed.

Lemma lseg_suffix h p cells a :
  lseg h p nullptr cells → a ∈ cells.*1 →
  ∃ pre x suf, cells = pre ++ (a, x) :: suf ∧ lseg h (heap_node a) nullptr ((a, x) :: suf).
Proof.
  revert p. induction cells as [|[b y] rest IH]; intros p; simpl.
  - intros _ Hin. by apply elem_of_nil in Hin.
  - intros [-> (r & Hb & Hr)] Hin. apply elem_of_cons in Hin as [->|Hin].
    + exists [], y, rest. split; [done|]. simpl. split; [done|]. by exists r.
    + destruct (IH r Hr Hin) as (pre & x & suf & -> & Hs).
      by exists ((b, y) :: pre), x, suf.
Qed.

Lemma lseg_NoDup h p cells :
  lseg h p nullptr cells → NoDup cells.*1.
Proof.
  revert p. induction cells as [|[a x] rest IH]; intros p; simpl.
  - intros _. constructor.
  - intros [-> (r & Ha & Hr)]. constructor; [|by eapply IH].
    intros Hin. destruct (lseg_suffix _ _ _ _ Hr Hin) as (pre & x' & suf & -> & Hs).
    assert (Hwhole : lseg h (heap_node a) nullptr ((a, x) :: pre ++ (a, x') :: suf)).
    { simpl. split; [done|]. by exists r. }
    pose proof (lseg_det _ _ _ _ Hs Hwhole) as Heq.
    apply (f_equal length) in Heq. simpl in Heq. rewrite length_app in Heq.
    simpl in Heq. lia.
Qed.

Lemma lseg_allocated h p q cells a :
  lseg h p q cells → a ∈ cells.*1 → is_Some (h !! a).
Proof.
  revert p. induction cells as [|[b y] rest IH]; intros p; simpl.
  - intros _ Hin. by apply elem_of_nil in Hin.
  - intros [-> (r & Hb & Hr)] Hin. apply elem_of_cons in Hin as [->|Hin]; eauto.
Qed.

(** Pigeonhole on machine addresses. *)
Lemma bounded_NoDup_length (l : list N) (n : N) :
  (0 < n)%N → NoDup l → (∀ a, a ∈ l → (0 < a < n)%N) →
  (N.of_nat (length l) < n)%N.
Proof.
  intros Hn Hnd Hb.
  assert (Hsub : l ⊆+ (N.of_nat <$> seq 1 (N.to_nat n - 1))).
  { apply NoDup_submseteq; [done|]. intros a Ha. apply Hb in Ha.
    apply list_elem_of_fmap. exists (N.to_nat a). split; [lia|].
    apply elem_of_seq. lia. }
  apply submseteq_length in Hsub. rewrite length_fmap, length_seq in Hsub.
  lia.
Qed.

(** *** The allocator *)

Lemma heap_top_spec h :
  (1 ≤ heap_top h)%N ∧
  (∀ a, is_Some (h !! a) → (a < heap_top h)%N) ∧
  (heap_top h = 1%N ∨ ∃ a, is_Some (h !! a) ∧ heap_top h = N.succ a).
Proof.
  unfold heap_top.
  apply (map_fold_weak_ind (λ top (m : gmap addr Node),
    (1 ≤ top)%N ∧ (∀ a, is_Some (m !! a) → (a < top)%N) ∧
    (top = 1%N ∨ ∃ a, is_Some (m !! a) ∧ top = N.succ a))).
  - split; [lia|]. split; [|by left].
    intros a [n Hn]. by rewrite lookup_empty in Hn.
  - intros i x m r Hi (H1 & H2 & H3). split; [lia|]. split.
    + intros a [n Hn]. destruct (decide (i = a)) as [->|Hne]; [lia|].
      rewrite lookup_insert_ne in Hn by done.
      specialize (H2 a (mk_is_Some _ _ Hn)). lia.
    + destruct (N.max_spec (N.succ i) r) as [[Hlt ->]|[Hle ->]].
      * destruct H3 as [->|(a & [n Hn] & ->)]; [lia|].
        right. exists a. split; [|done].
        destruct (decide (i = a)) as [->|Hne]; [by rewrite Hi in Hn|].
        rewrite lookup_insert_ne by done. eauto.
      * right. exists i. split; [|done]. rewrite lookup_insert_eq. eauto.
Qed.

Lemma heap_top_fresh h : h !! heap_top h = None.
Proof.
  destruct (h !! heap_top h) as [n|] eqn:E; [|done].
  destruct (heap_top_spec h) as (_ & H & _).
  specialize (H _ (mk_is_Some _ _ E)). lia.
Qed.

Lemma heap_top_unique h t :
  (1 ≤ t)%N →
  (∀ a, is_Some (h !! a) → (a < t)%N) →
  (t = 1%N ∨ ∃ a, is_Some (h !! a) ∧ t = N.succ a) →
  heap_top h = t.
Proof.
  intros H1 H2 H3. destruct (heap_top_spec h) as (G1 & G2 & G3).
  apply N.le_antisymm.
  - destruct G3 as [->|(a & Ha & ->)]; [done|]. apply H2 in Ha. lia.
  - destruct H3 as [->|(a & Ha & ->)]; [done|]. apply G2 in Ha. lia.
Qed.

Lemma heap_top_insert h a n :
  heap_top (<[a := n]> h) = N.max (N.succ a) (heap_top h).
Proof.
  destruct (heap_top_spec h) as (G1 & G2 & G3).
  apply heap_top_unique.
  - lia.
  - intros b [m Hb]. destruct (decide (a = b)) as [->|Hne]; [lia|].
    rewrite lookup_insert_ne in Hb by done.
    specialize (G2 b (mk_is_Some _ _ Hb)). lia.
  - destruct (N.max_spec (N.succ a) (heap_top h)) as [[Hlt ->]|[Hle ->]].
    + destruct G3 as [G3|(b & [m Hb] & G3)]; [lia|]. right. exists b.
      split; [|done]. destruct (decide (a = b)) as [->|Hne].
      * rewrite lookup_insert_eq. eauto.
      * rewrite lookup_insert_ne by done. eauto.
    + right. exists a. split; [|done]. rewrite lookup_insert_eq. eauto.
Qed.

Lemma heap_top_insert_existing h a n :
  is_Some (h !! a) → heap_top (<[a := n]> h) = heap_top h.
Proof.
  intros Ha. rewrite heap_top_insert.
  destruct (heap_top_spec h) as (_ & G2 & _). apply G2 in Ha. lia.
Qed.

Lemma heap_top_delete h a : (heap_top (delete a h) ≤ heap_top h)%N.
Proof.
  destruct (heap_top_spec (delete a h)) as (G1 & G2 & G3).
  destruct (heap_top_spec h) as (K1 & K2 & K3).
  destruct G3 as [->|(b & [m Hb] & ->)]; [done|].
  apply lookup_delete_Some in Hb as [_ Hb].
  specialize (K2 b (mk_is_Some _ _ Hb)). lia.
Qed.

(** A chain of a well-formed heap is shorter than the address space, so
    the counter of a list never wraps. *)
Lemma lseg_length_bound s p cells :
  heap_wf s → lseg (heap s) p nullptr cells →
  (N.of_nat (length cells) < addr_limit)%N.
Proof.
  intros Hwf Hl. rewrite <-(length_fmap fst).
  apply bounded_NoDup_length; [done|by eapply lseg_NoDup|].
  intros a Ha. destruct (lseg_allocated _ _ _ _ _ Hl Ha) as [n Hn]. eauto.
Qed.

Lemma lseg_fresh_frame h p q cells a n :
  h !! a = None → lseg h p q cells → lseg (<[a := n]> h) p q cells.
Proof.
  intros Ha Hl. eapply lseg_frame; [|done]. intros b Hb.
  destruct (lseg_allocated _ _ _ _ _ Hl Hb) as [m Hm].
  rewrite lookup_insert_ne; [done|]. intros ->. by rewrite Ha in Hm.
Qed.

Lemma size_incr_no_wrap (n : nat) :
  (N.of_nat n + 1 < size_t_modulus)%N →
  ((N.of_nat n + 1) mod size_t_modulus)%N = N.of_nat (S n).
Proof. intros H. rewrite N.mod_small by done. lia. Qed.

Lemma pos_at_not_null this cells i p : pos_at this cells i p → p ≠ nullptr.
Proof.
  destruct i; simpl; [by intros ->|]. by intros (c & _ & ->).
Qed.

End Chains.

(** *** Running the primitive steps *)

Section Steps.
Context {T : Type} {elem : ElementType T} {build : BuildMode}.
Implicit Types (h : gmap addr (Node (T:=T))) (s : State (T:=T)).
Implicit Types (cells : list (addr * T)) (p q : NodePtr) (this : obj).

Lemma assert_true s : assert_ (ret true) s = Ok () s.
Proof. unfold assert_. by destruct NDEBUG. Qed.

Lemma assert_holds (cond : M bool) s : cond s = Ok true s → assert_ cond s = Ok () s.
Proof. unfold assert_. intros ->. by destruct NDEBUG. Qed.

Lemma bind_Ok {A B} (m : M A) (k : A → M B) s a s' :
  m s = Ok a s' → bind m k s = k a s'.
Proof. unfold bind. by intros ->. Qed.

Lemma bind_Throw {A B} (m : M A) (k : A → M B) s s' :
  m s = Throw s' → bind m k s = Throw s'.
Proof. unfold bind. by intros ->. Qed.

Lemma finally_Ok {A} (m : M A) (cleanup : M unit) s a s1 s2 :
  m s = Ok a s1 → cleanup s1 = Ok () s2 → finally m cleanup s = Ok a s2.
Proof. unfold finally. by intros -> ->. Qed.

Lemma finally_Throw {A} (m : M A) (cleanup : M unit) s s1 s2 :
  m s = Throw s1 → cleanup s1 = Ok () s2 → finally m cleanup s = Throw s2.
Proof. unfold finally. by intros -> ->. Qed.

Lemma fresh_object_None s : objs s !! fresh (dom (objs s)) = None.
Proof. apply not_elem_of_dom, is_fresh. Qed.

Lemma on_throw_Ok {A} (m : M A) (cleanup : M unit) s a s1 :
  m s = Ok a s1 → on_throw m cleanup s = Ok a s1.
Proof. unfold on_throw. by intros ->. Qed.

Lemma on_throw_Throw {A} (m : M A) (cleanup : M unit) s s1 s2 :
  m s = Throw s1 → cleanup s1 = Ok () s2 → on_throw m cleanup s = Throw s2.
Proof. unfold on_throw. by intros -> ->. Qed.

Lemma fresh_object_ne s o : is_Some (objs s !! o) → fresh (dom (objs s)) ≠ o.
Proof. intros [l Hl] <-. by rewrite fresh_object_None in Hl. Qed.

(** The memory primitives have no [assert]. *)
Lemma bind_not_Abort {A B} (m : M A) (k : A → M B) s :
  m s ≠ Abort → (∀ a s', k a s' ≠ Abort) → bind m k s ≠ Abort.
Proof. unfold bind. intros Hm Hk. destruct (m s); auto. Qed.

Lemma get_next_not_Abort p s : get_next p s ≠ Abort.
Proof.
  unfold get_next, bind, load.
  destruct p as [|a|l]; [done|destruct (heap s !! a)|destruct (objs s !! l)]; done.
Qed.

Lemma set_next_not_Abort p q s : set_next p q s ≠ Abort.
Proof.
  unfold set_next.
  destruct p as [|a|l]; [done|destruct (heap s !! a)|destruct (objs s !! l)]; done.
Qed.

Lemma delete_Node_not_Abort p s : delete_Node p s ≠ Abort.
Proof.
  unfold delete_Node. destruct p as [|a|l]; [done|destruct (heap s !! a)|]; done.
Qed.

Lemma decr_size_not_Abort this s : decr_size this s ≠ Abort.
Proof.
  unfold decr_size, bind, get_size, set_size.
  destruct (objs s !! this); [|done]. simpl. by destruct (objs s !! this).
Qed.

Lemma get_next_head s l o :
  objs s !! l = Some o → get_next (head_of l) s = Ok (next_node (head_ o)) s.
Proof. unfold get_next, bind, load. by intros ->. Qed.

Lemma get_next_heap s a n :
  heap s !! a = Some n → get_next (heap_node a) s = Ok (next_node n) s.
Proof. unfold get_next, bind, load. by intros ->. Qed.

Lemma set_next_head s l o q :
  objs s !! l = Some o →
  set_next (head_of l) q s =
  Ok () (mkState (heap s) (<[l := mkList (mkNode (value (head_ o)) q) (size_ o)]> (objs s))).
Proof. unfold set_next. by intros ->. Qed.

Lemma set_next_heap s a n q :
  heap s !! a = Some n →
  set_next (heap_node a) q s =
  Ok () (mkState (<[a := mkNode (value n) q]> (heap s)) (objs s)).
Proof. unfold set_next. by intros ->. Qed.

Lemma get_size_eq s l o :
  objs s !! l = Some o → get_size l s = Ok (size_ o) s.
Proof. unfold get_size. by intros ->. Qed.

Lemma set_size_eq s l o n :
  objs s !! l = Some o →
  set_size l n s = Ok () (mkState (heap s) (<[l := mkList (head_ o) n]> (objs s))).
Proof. unfold set_size. by intros ->. Qed.

Lemma incr_size_eq s l o :
  objs s !! l = Some o →
  incr_size l s =
  Ok () (mkState (heap s)
           (<[l := mkList (head_ o) ((size_ o + 1) mod size_t_modulus)%N]> (objs s))).
Proof.
  intros Ho. unfold incr_size. rewrite (bind_Ok _ _ _ _ _ (get_size_eq _ _ _ Ho)).
  by apply set_size_eq.
Qed.

Lemma decr_size_eq s l o :
  objs s !! l = Some o →
  decr_size l s =
  Ok () (mkState (heap s)
           (<[l := mkList (head_ o)
                    ((size_ o + size_t_modulus - 1) mod size_t_modulus)%N]> (objs s))).
Proof.
  intros Ho. unfold decr_size. rewrite (bind_Ok _ _ _ _ _ (get_size_eq _ _ _ Ho)).
  by apply set_size_eq.
Qed.

Lemma IsEmpty_eq s l o :
  objs s !! l = Some o → IsEmpty l s = Ok (size_ o =? 0)%N s.
Proof.
  intros Ho. unfold IsEmpty. by rewrite (bind_Ok _ _ _ _ _ (get_size_eq _ _ _ Ho)).
Qed.

Lemma assert_not_empty s l o :
  objs s !! l = Some o → size_ o ≠ 0%N →
  assert_ (e <- IsEmpty l ;; ret (negb e)) s = Ok () s.
Proof.
  intros Ho Hnz. apply assert_holds.
  erewrite bind_Ok by (by apply IsEmpty_eq).
  apply N.eqb_neq in Hnz. by rewrite Hnz.
Qed.

Lemma assert_empty s l o :
  objs s !! l = Some o → size_ o = 0%N → assert_ (IsEmpty l) s = Ok () s.
Proof.
  intros Ho Hz. apply assert_holds. erewrite IsEmpty_eq by done. by rewrite Hz.
Qed.

Lemma delete_Node_heap s a n :
  heap s !! a = Some n →
  delete_Node (heap_node a) s = Ok () (mkState (delete a (heap s)) (objs s)).
Proof. unfold delete_Node. by intros ->. Qed.

Lemma new_Node_eq s v q :
  new_Node v q s =
  if can_allocate s v
  then Ok (heap_node (heap_top (heap s)))
          (mkState (<[heap_top (heap s) := mkNode v q]> (heap s)) (objs s))
  else Throw s.
Proof.
  unfold new_Node, operator_new, can_allocate.
  destruct (heap_top (heap s) <? addr_limit)%N; [|done].
  by destruct (Type_copy_throws v).
Qed.

End Steps.

(** One step of a computation: rewrite the head of a [bind] with an
    equation for its first action. *)
Tactic Notation "step_with" uconstr(lem) :=
  erewrite bind_Ok;
  [|eapply lem; simpl; rewrite ?lookup_insert_eq; try done;
    (rewrite ?lookup_insert_ne by done); rewrite ?lookup_insert_eq; try done;
    eassumption].

(** *** Single operations on a well-formed list *)

Section Operations.
Context {T : Type} {elem : ElementType T} {build : BuildMode}.
Implicit Types (h : gmap addr (Node (T:=T))) (s : State (T:=T)).
Implicit Types (cells : list (addr * T)) (p q : NodePtr) (this : obj).

Lemma InsertAfter_spec s this cells i (pos : ConstIterator) v :
  heap_wf s → is_list s this cells → pos_at this cells i (node_ pos) →
  if can_allocate s v
  then ∃ s', InsertAfter this pos v s = Ok (mkIterator (heap_node (heap_top (heap s)))) s' ∧
             heap_wf s' ∧
             is_list s' this (take i cells ++ (heap_top (heap s), v) :: drop i cells) ∧
             heap_top (heap s') = N.succ (heap_top (heap s)) ∧
             get_next (node_ pos) s' = Ok (heap_node (heap_top (heap s))) s' ∧
             unchanged_except this (heap_top (heap s) :: addr_of (node_ pos)) s s'
  else InsertAfter this pos v s = Throw s.
Proof.
  intros Hwf (l & Hobj & Hchain & Hsize) Hpos.
  destruct pos as [pn]. simpl in Hpos |- *.
  pose proof (heap_top_fresh (heap s)) as Hfresh.
  destruct (heap_top_spec (heap s)) as (Htop1 & _ & _).
  destruct (can_allocate s v) eqn:Hcan.
  2:{ unfold InsertAfter. simpl.
      assert (Hnn : pn ≠ nullptr).
      { destruct i; simpl in Hpos; [by subst|]. by destruct Hpos as (c & _ & ->). }
      rewrite bool_decide_eq_false_2 by done. simpl.
      step_with assert_true.
      destruct i as [|j]; simpl in Hpos.
      - subst pn. step_with get_next_head.
        unfold bind. by rewrite new_Node_eq, Hcan.
      - destruct Hpos as ([aj xj] & Hj & ->). simpl.
        destruct (lseg_allocated _ _ _ _ aj Hchain) as [n Hn].
        { apply list_elem_of_fmap. exists (aj, xj). split; [done|].
          by eapply list_elem_of_lookup_2. }
        step_with get_next_heap.
        unfold bind. by rewrite new_Node_eq, Hcan. }
  unfold can_allocate in Hcan. apply andb_true_iff in Hcan as [Hlim Hcopy].
  apply N.ltb_lt in Hlim.
  assert (Hcan : can_allocate s v = true).
  { unfold can_allocate. rewrite Hcopy. by apply N.ltb_lt in Hlim as ->. }
  set (a := heap_top (heap s)) in *.
  destruct i as [|j]; simpl in Hpos.
  - (* after the sentinel *)
    subst pn. unfold InsertAfter. simpl.
    step_with assert_true. step_with get_next_head.
    erewrite bind_Ok; [|by rewrite new_Node_eq, Hcan].
    step_with set_next_head. step_with incr_size_eq.
    step_with get_next_head. simpl. rewrite insert_insert_eq. fold a.
    eexists. split; [reflexivity|].
    assert (Hwf' : heap_wf (mkState (<[a:=mkNode v (next_node (head_ l))]> (heap s))
                     (<[this:=mkList (mkNode (value (head_ l)) (heap_node a))
                          ((size_ l + 1) mod size_t_modulus)%N]> (objs s)))).
    { intros b n. simpl. intros Hb. destruct (decide (a = b)) as [<-|Hne]; [lia|].
      rewrite lookup_insert_ne in Hb by done. eauto. }
    assert (Hchain' : lseg (<[a:=mkNode v (next_node (head_ l))]> (heap s)) (heap_node a) nullptr
                        ((a, v) :: cells)).
    { simpl. split; [done|]. exists (next_node (head_ l)).
      rewrite lookup_insert_eq. split; [done|]. by apply lseg_fresh_frame. }
    split; [done|]. split; [|split; [|split]].
    + exists (mkList (mkNode (value (head_ l)) (heap_node a))
               ((size_ l + 1) mod size_t_modulus)%N).
      simpl. rewrite lookup_insert_eq. split; [done|]. rewrite drop_0.
      split; [done|]. rewrite Hsize. apply size_incr_no_wrap.
      pose proof (lseg_length_bound _ _ _ Hwf' Hchain') as Hb. simpl in Hb.
      unfold size_t_modulus, addr_limit in *. lia.
    + simpl. rewrite heap_top_insert. fold a. lia.
    + erewrite get_next_head by (simpl; apply lookup_insert_eq). done.
    + split; simpl.
      * intros o Ho. by rewrite lookup_insert_ne.
      * intros b Hb. rewrite lookup_insert_ne; [done|]. intros ->. apply Hb. left.
  - (* after the node number [j] *)
    destruct Hpos as ([aj xj] & Hj & ->). simpl.
    pose proof (take_drop_middle _ _ _ Hj) as Hsplit.
    pose proof Hchain as Hwhole.
    rewrite <-Hsplit in Hchain.
    apply lseg_app in Hchain as (r0 & Hpre & Hrest). simpl in Hrest.
    destruct Hrest as [-> (r & Haj & Hsuf)].
    pose proof (lseg_NoDup _ _ _ Hwhole) as Hnd.
    rewrite <-Hsplit, fmap_app in Hnd. simpl in Hnd.
    apply NoDup_app in Hnd as (_ & Hdisj & Hnd2). apply NoDup_cons in Hnd2 as [Hnotin _].
    assert (Hne : a ≠ aj). { intros Heq. rewrite <-Heq in Haj. by rewrite Hfresh in Haj. }
    unfold InsertAfter. simpl.
    step_with assert_true. step_with get_next_heap.
    erewrite bind_Ok; [|by rewrite new_Node_eq, Hcan].
    step_with set_next_heap. step_with incr_size_eq.
    step_with get_next_heap. simpl. fold a.
    eexists. split; [reflexivity|].
    set (h' := <[aj:=mkNode xj (heap_node a)]> (<[a:=mkNode v r]> (heap s))).
    assert (Hwf' : heap_wf (mkState h' (<[this:=mkList (head_ l)
                          ((size_ l + 1) mod size_t_modulus)%N]> (objs s)))).
    { intros b n. simpl. unfold h'. intros Hb.
      destruct (decide (aj = b)) as [<-|Hne1]; [by eapply Hwf|].
      rewrite lookup_insert_ne in Hb by done.
      destruct (decide (a = b)) as [<-|Hne2]; [lia|].
      rewrite lookup_insert_ne in Hb by done. eauto. }
    assert (Hchain' : lseg h' (next_node (head_ l)) nullptr
                        (take (S j) cells ++ (a, v) :: drop (S j) cells)).
    { rewrite (take_S_r _ _ _ Hj). rewrite <-app_assoc. simpl.
      apply lseg_app. exists (heap_node aj). split.
      - eapply lseg_frame; [|exact Hpre]. intros b Hb. unfold h'.
        rewrite lookup_insert_ne.
        + rewrite lookup_insert_ne; [done|]. intros <-.
          destruct (lseg_allocated _ _ _ _ _ Hpre Hb) as [m Hm].
          by rewrite Hfresh in Hm.
        + intros <-. by apply (Hdisj aj Hb); left.
      - simpl. split; [done|]. exists (heap_node a). unfold h'.
        rewrite lookup_insert_eq. split; [done|]. split; [done|].
        exists r. rewrite lookup_insert_ne by done. rewrite lookup_insert_eq.
        split; [done|]. eapply lseg_frame; [|exact Hsuf]. intros b Hb.
        rewrite lookup_insert_ne.
        + rewrite lookup_insert_ne; [done|]. intros <-.
          destruct (lseg_allocated _ _ _ _ _ Hsuf Hb) as [m Hm].
          by rewrite Hfresh in Hm.
        + by intros <-. }
    split; [done|]. split; [|split; [|split]].
    + exists (mkList (head_ l) ((size_ l + 1) mod size_t_modulus)%N).
      simpl. rewrite lookup_insert_eq. split; [done|]. split; [done|].
      rewrite Hsize. rewrite length_app. simpl.
      rewrite length_take, length_drop.
      pose proof (lseg_length_bound _ _ _ Hwf' Hchain') as Hb. simpl in Hb.
      rewrite length_app in Hb. simpl in Hb. rewrite length_take, length_drop in Hb.
      apply lookup_lt_Some in Hj.
      rewrite N.mod_small; unfold size_t_modulus, addr_limit in *; lia.
    + simpl. unfold h'. rewrite heap_top_insert_existing.
      * rewrite heap_top_insert. fold a. lia.
      * rewrite lookup_insert_ne by done. eauto.
    + erewrite get_next_heap by (simpl; apply lookup_insert_eq). done.
    + split; simpl.
      * intros o Ho. by rewrite lookup_insert_ne.
      * intros b Hb. unfold h'. rewrite !lookup_insert_ne; [done| |].
        -- intros ->. apply Hb. left.
        -- intros ->. apply Hb. right. left.
Qed.

Lemma PushFront_spec s this cells v :
  heap_wf s → is_list s this cells →
  if can_allocate s v
  then ∃ s', PushFront this v s = Ok () s' ∧
             heap_wf s' ∧
             is_list s' this ((heap_top (heap s), v) :: cells) ∧
             heap_top (heap s') = N.succ (heap_top (heap s)) ∧
             unchanged_except this [heap_top (heap s)] s s'
  else PushFront this v s = Throw s.
Proof.
  intros Hwf (l & Hobj & Hchain & Hsize).
  pose proof (heap_top_fresh (heap s)) as Hfresh.
  destruct (heap_top_spec (heap s)) as (Htop1 & _ & _).
  unfold PushFront. step_with get_next_head.
  destruct (can_allocate s v) eqn:Hcan.
  2:{ unfold bind. by rewrite new_Node_eq, Hcan. }
  erewrite bind_Ok; [|by rewrite new_Node_eq, Hcan].
  step_with set_next_head. erewrite incr_size_eq by (simpl; apply lookup_insert_eq).
  simpl. rewrite insert_insert_eq.
  unfold can_allocate in Hcan. apply andb_true_iff in Hcan as [Hlim _].
  apply N.ltb_lt in Hlim.
  set (a := heap_top (heap s)) in *.
  eexists. split; [reflexivity|].
  assert (Hwf' : heap_wf (mkState (<[a:=mkNode v (next_node (head_ l))]> (heap s))
                   (<[this:=mkList (mkNode (value (head_ l)) (heap_node a))
                        ((size_ l + 1) mod size_t_modulus)%N]> (objs s)))).
  { intros b n. simpl. intros Hb. destruct (decide (a = b)) as [<-|Hne]; [lia|].
    rewrite lookup_insert_ne in Hb by done. eauto. }
  assert (Hchain' : lseg (<[a:=mkNode v (next_node (head_ l))]> (heap s)) (heap_node a) nullptr
                      ((a, v) :: cells)).
  { simpl. split; [done|]. exists (next_node (head_ l)).
    rewrite lookup_insert_eq. split; [done|]. by apply lseg_fresh_frame. }
  split; [done|]. split; [|split].
  - exists (mkList (mkNode (value (head_ l)) (heap_node a))
             ((size_ l + 1) mod size_t_modulus)%N).
    simpl. rewrite lookup_insert_eq. split; [done|].
    split; [done|]. rewrite Hsize. apply size_incr_no_wrap.
    pose proof (lseg_length_bound _ _ _ Hwf' Hchain') as Hb. simpl in Hb.
    unfold size_t_modulus, addr_limit in *. lia.
  - simpl. rewrite heap_top_insert. fold a. lia.
  - split; simpl.
    + intros o Ho. by rewrite lookup_insert_ne.
    + intros b Hb. rewrite lookup_insert_ne; [done|]. intros ->. apply Hb. left.
Qed.

Lemma size_decr_no_wrap (n : nat) :
  (N.of_nat (S n) < size_t_modulus)%N →
  ((N.of_nat (S n) + size_t_modulus - 1) mod size_t_modulus)%N = N.of_nat n.
Proof.
  intros H. replace (N.of_nat (S n) + size_t_modulus - 1)%N
    with (N.of_nat n + 1 * size_t_modulus)%N by lia.
  rewrite N.Div0.mod_add. apply N.mod_small. lia.
Qed.

Lemma lseg_head_ptr h p cells :
  lseg h p nullptr cells → p = node_ptr cells 0.
Proof. destruct cells as [|[a x] rest]; simpl; [done|]. by intros [-> _]. Qed.

Lemma EraseAfter_spec s this cells i (pos : ConstIterator) c :
  heap_wf s → is_list s this cells → pos_at this cells i (node_ pos) →
  cells !! i = Some c →
  ∃ s', EraseAfter this pos s = Ok (mkIterator (node_ptr cells (S i))) s' ∧
        heap_wf s' ∧
        is_list s' this (delete i cells) ∧
        heap s' !! c.1 = None ∧
        (heap_top (heap s') ≤ heap_top (heap s))%N ∧
        unchanged_except this (c.1 :: addr_of (node_ pos)) s s'.
Proof.
  intros Hwf (l & Hobj & Hchain & Hsize) Hpos Hi.
  destruct pos as [pn]. simpl in Hpos |- *. destruct c as [ai xi]. simpl.
  pose proof (lseg_length_bound _ _ _ Hwf Hchain) as Hlen.
  pose proof (lseg_NoDup _ _ _ Hchain) as Hnd.
  pose proof (take_drop_middle _ _ _ Hi) as Hsplit.
  assert (Hnz : size_ l ≠ 0%N).
  { rewrite Hsize. apply lookup_lt_Some in Hi. lia. }
  assert (Hsize' : ((size_ l + size_t_modulus - 1) mod size_t_modulus)%N
                   = N.of_nat (length (delete i cells))).
  { rewrite Hsize, length_delete by eauto.
    apply lookup_lt_Some in Hi.
    replace (length cells) with (S (length cells - 1)) at 1 by lia.
    apply size_decr_no_wrap. unfold size_t_modulus, addr_limit in *. lia. }
  unfold EraseAfter.
  erewrite bind_Ok by (by eapply assert_not_empty).
  destruct i as [|j]; simpl in Hpos.
  - (* the first node goes *)
    subst pn. destruct cells as [|[a0 x0] rest]; [done|].
    simpl in Hi. injection Hi as -> ->.
    simpl in Hchain. destruct Hchain as [Hp (r & Ha & Hrest)].
    apply NoDup_cons in Hnd as [Hnotin Hnd].
    step_with get_next_head. rewrite Hp. step_with get_next_heap.
    step_with get_next_head. rewrite Hp. step_with delete_Node_heap.
    step_with set_next_head. step_with decr_size_eq. simpl.
    rewrite insert_insert_eq.
    assert (Hr : r = node_ptr ((ai, xi) :: rest) 1).
    { unfold node_ptr. simpl. by apply lseg_head_ptr in Hrest. }
    rewrite <-Hr.
    eexists. split; [reflexivity|]. split; [|split; [|split; [|split]]].
    + intros b n. simpl. intros Hb. apply lookup_delete_Some in Hb as [_ Hb]. eauto.
    + eexists. simpl. rewrite lookup_insert_eq. split; [done|]. simpl. split.
      * eapply lseg_frame; [|exact Hrest]. intros b Hb.
        rewrite lookup_delete_ne; [done|]. by intros ->.
      * exact Hsize'.
    + simpl. apply lookup_delete_eq.
    + simpl. apply heap_top_delete.
    + split; simpl.
      * intros o Ho. by rewrite lookup_insert_ne.
      * intros b Hb. rewrite lookup_delete_ne; [done|]. intros ->. apply Hb. left.
  - (* an inner node goes *)
    destruct Hpos as ([aj xj] & Hj & ->). simpl.
    pose proof (take_drop_middle _ _ _ Hj) as Hsplitj.
    assert (Hdrop : drop (S j) cells = (ai, xi) :: drop (S (S j)) cells).
    { by apply drop_S. }
    rewrite Hdrop in Hsplitj.
    pose proof Hchain as Hwhole.
    rewrite <-Hsplitj in Hchain.
    apply lseg_app in Hchain as (r0 & Hpre & Hrest). simpl in Hrest.
    destruct Hrest as [-> (r1 & Haj & [-> (r & Hai & Hsuf)])].
    rewrite <-Hsplitj, fmap_app in Hnd. simpl in Hnd.
    apply NoDup_app in Hnd as (_ & Hdisj & Hnd2).
    apply NoDup_cons in Hnd2 as [Hnotin Hnd2].
    apply NoDup_cons in Hnd2 as [Hnotin2 _].
    assert (Hne : aj ≠ ai). { intros ->. apply Hnotin. left. }
    step_with get_next_heap. step_with get_next_heap.
    step_with get_next_heap. step_with delete_Node_heap.
    erewrite bind_Ok; [|apply set_next_heap; simpl; rewrite lookup_delete_ne by done; exact Haj].
    step_with decr_size_eq. simpl.
    assert (Hr : r = node_ptr cells (S (S j))).
    { unfold node_ptr. apply lseg_head_ptr in Hsuf. rewrite Hsuf. unfold node_ptr.
      by rewrite lookup_drop, Nat.add_0_r. }
    rewrite <-Hr.
    eexists. split; [reflexivity|]. split; [|split; [|split; [|split]]].
    + intros b n. simpl. intros Hb.
      destruct (decide (aj = b)) as [<-|Hne1]; [by eapply Hwf|].
      rewrite lookup_insert_ne in Hb by done.
      apply lookup_delete_Some in Hb as [_ Hb]. eauto.
    + eexists. simpl. rewrite lookup_insert_eq. split; [done|]. simpl.
      split; [|exact Hsize'].
      rewrite delete_take_drop, (take_S_r _ _ _ Hj), <-app_assoc. simpl.
      apply lseg_app. exists (heap_node aj). split.
      * eapply lseg_frame; [|exact Hpre]. intros b Hb.
        rewrite lookup_insert_ne.
        -- rewrite lookup_delete_ne; [done|]. intros <-. apply (Hdisj ai Hb). right. left.
        -- intros <-. apply (Hdisj aj Hb). left.
      * simpl. split; [done|]. exists r. rewrite lookup_insert_eq. split; [done|].
        eapply lseg_frame; [|exact Hsuf]. intros b Hb.
        rewrite lookup_insert_ne.
        -- rewrite lookup_delete_ne; [done|]. by intros <-.
        -- intros <-. apply Hnotin. by right.
    + simpl. rewrite lookup_insert_ne by done. apply lookup_delete_eq.
    + simpl. rewrite heap_top_insert_existing.
      * apply heap_top_delete.
      * rewrite lookup_delete_ne by done. eauto.
    + split; simpl.
      * intros o Ho. by rewrite lookup_insert_ne.
      * intros b Hb. rewrite lookup_insert_ne.
        -- rewrite lookup_delete_ne; [done|]. intros ->. apply Hb. left.
        -- intros ->. apply Hb. right. left.
Qed.

Lemma PopFront_spec s this c cells :
  heap_wf s → is_list s this (c :: cells) →
  ∃ s', PopFront this s = Ok () s' ∧
        heap_wf s' ∧
        is_list s' this cells ∧
        heap s' !! c.1 = None ∧
        (heap_top (heap s') ≤ heap_top (heap s))%N ∧
        unchanged_except this [c.1] s s'.
Proof.
  intros Hwf (l & Hobj & Hchain & Hsize). destruct c as [a0 x0].
  pose proof (lseg_length_bound _ _ _ Hwf Hchain) as Hlen.
  pose proof (lseg_NoDup _ _ _ Hchain) as Hnd.
  simpl in Hchain. destruct Hchain as [Hp (r & Ha & Hrest)].
  apply NoDup_cons in Hnd as [Hnotin Hnd].
  assert (Hnz : size_ l ≠ 0%N).
  { rewrite Hsize. simpl. lia. }
  unfold PopFront.
  erewrite bind_Ok by (by eapply assert_not_empty).
  step_with get_next_head. rewrite Hp. step_with get_next_heap.
  step_with set_next_head. step_with decr_size_eq.
  erewrite delete_Node_heap by (simpl; exact Ha).
  simpl. rewrite insert_insert_eq.
  eexists. split; [reflexivity|]. split; [|split; [|split; [|split]]].
  - intros b n. simpl. intros Hb. apply lookup_delete_Some in Hb as [_ Hb]. eauto.
  - eexists. simpl. rewrite lookup_insert_eq. split; [done|]. simpl. split.
    + eapply lseg_frame; [|exact Hrest]. intros b Hb.
      rewrite lookup_delete_ne; [done|]. by intros ->.
    + rewrite Hsize. apply size_decr_no_wrap.
      simpl in Hlen. unfold size_t_modulus, addr_limit in *. lia.
  - simpl. apply lookup_delete_eq.
  - simpl. apply heap_top_delete.
  - split; simpl.
    + intros o Ho. by rewrite lookup_insert_ne.
    + intros b Hb. rewrite lookup_delete_ne; [done|]. intros ->. apply Hb. left.
Qed.

Lemma Clear_loop_spec fuel s this l cells :
  objs s !! this = Some l →
  lseg (heap s) (next_node (head_ l)) nullptr cells →
  length cells < fuel →
  ∃ h', Clear_loop fuel this s =
          Ok () (mkState h'
                   (<[this := mkList (mkNode (value (head_ l)) nullptr) (size_ l)]> (objs s))) ∧
        (∀ b, b ∉ cells.*1 → h' !! b = heap s !! b) ∧
        (∀ b, b ∈ cells.*1 → h' !! b = None).
Proof.
  revert s l cells. induction fuel as [|fuel IH]; intros s l cells Hobj Hchain Hfuel; [lia|].
  pose proof (lseg_NoDup _ _ _ Hchain) as Hnd.
  simpl. step_with get_next_head.
  destruct cells as [|[a x] rest]; simpl in Hchain.
  - rewrite Hchain. rewrite bool_decide_eq_true_2 by done.
    exists (heap s). split; [|split; [done|]].
    + unfold ret. f_equal. destruct s as [h o]. simpl in *. f_equal.
      rewrite insert_id; [done|]. rewrite Hobj. f_equal.
      destruct l as [[d p0] n]. simpl in *. by subst.
    + intros b Hb. by apply elem_of_nil in Hb.
  - destruct Hchain as [Hp (r & Ha & Hrest)]. rewrite Hp.
    rewrite bool_decide_eq_false_2 by done.
    apply NoDup_cons in Hnd as [Hnotin Hnd].
    step_with get_next_heap. step_with set_next_head. step_with delete_Node_heap.
    simpl.
    edestruct (IH (mkState (delete a (heap s))
                     (<[this := mkList (mkNode (value (head_ l)) r) (size_ l)]> (objs s)))
                  (mkList (mkNode (value (head_ l)) r) (size_ l)) rest)
      as (h' & Hrun & Hout & Hin).
    { simpl. apply lookup_insert_eq. }
    { simpl. eapply lseg_frame; [|exact Hrest]. intros b Hb.
      rewrite lookup_delete_ne; [done|]. by intros ->. }
    { simpl in Hfuel. lia. }
    exists h'. simpl in Hrun. rewrite insert_insert_eq in Hrun.
    split; [exact Hrun|]. simpl in Hout, Hin. split.
    + intros b Hb. rewrite Hout.
      * rewrite lookup_delete_ne; [done|]. intros ->. apply Hb. left.
      * intros Hb'. apply Hb. by right.
    + intros b Hb. simpl in Hb. apply elem_of_cons in Hb as [->|Hb]; [|by apply Hin].
      rewrite Hout by done. apply lookup_delete_eq.
Qed.

Lemma Clear_spec fuel s this cells :
  heap_wf s → is_list s this cells → length cells < fuel →
  ∃ s', Clear fuel this s = Ok () s' ∧
        heap_wf s' ∧
        is_list s' this [] ∧
        (∀ b, b ∈ cells.*1 → heap s' !! b = None) ∧
        unchanged_except this cells.*1 s s'.
Proof.
  intros Hwf (l & Hobj & Hchain & Hsize) Hfuel.
  destruct (Clear_loop_spec fuel s this l cells Hobj Hchain Hfuel) as (h' & Hrun & Hout & Hin).
  unfold Clear. erewrite bind_Ok by exact Hrun.
  erewrite set_size_eq by (simpl; apply lookup_insert_eq).
  simpl. rewrite insert_insert_eq.
  eexists. split; [reflexivity|]. split; [|split; [|split]].
  - intros b n. simpl. intros Hb.
    destruct (decide (b ∈ cells.*1)) as [Hbin|Hbout].
    + by rewrite Hin in Hb.
    + rewrite Hout in Hb by done. eauto.
  - eexists. simpl. rewrite lookup_insert_eq. split; [done|]. by simpl.
  - exact Hin.
  - split; simpl.
    + intros o Ho. by rewrite lookup_insert_ne.
    + exact Hout.
Qed.

Lemma swap_spec s this other cells1 cells2 :
  is_list s this cells1 → is_list s other cells2 →
  ∃ s', swap this other s = Ok () s' ∧
        heap s' = heap s ∧
        is_list s' this cells2 ∧
        is_list s' other cells1 ∧
        (∀ o, o ≠ this → o ≠ other → objs s' !! o = objs s !! o).
Proof.
  intros (l1 & Hobj1 & Hchain1 & Hsize1) (l2 & Hobj2 & Hchain2 & Hsize2).
  unfold swap.
  step_with get_next_head. step_with get_next_head. step_with set_next_head.
  destruct (decide (this = other)) as [<-|Hne].
  - assert (l2 = l1) as -> by congruence.
    pose proof (lseg_det _ _ _ _ Hchain1 Hchain2) as <-.
    step_with set_next_head. step_with get_size_eq. step_with get_size_eq.
    step_with set_size_eq.
    erewrite set_size_eq by (simpl; apply lookup_insert_eq).
    simpl. rewrite !insert_insert_eq.
    eexists. split; [reflexivity|]. simpl. split; [done|].
    assert (Hl : is_list (mkState (heap s)
                  (<[this := mkList (mkNode (value (head_ l1)) (next_node (head_ l1))) (size_ l1)]>
                     (objs s))) this cells1).
    { eexists. simpl. rewrite lookup_insert_eq. split; [done|]. by simpl. }
    split; [done|]. split; [done|].
    intros o Ho _. by rewrite lookup_insert_ne.
  - step_with set_next_head. step_with get_size_eq. step_with get_size_eq.
    step_with set_size_eq.
    erewrite set_size_eq
      by (simpl; rewrite lookup_insert_ne by done; apply lookup_insert_eq).
    simpl.
    eexists. split; [reflexivity|]. simpl. split; [done|]. split; [|split].
    + eexists. simpl. rewrite lookup_insert_ne by done. rewrite lookup_insert_eq.
      split; [done|]. by simpl.
    + eexists. simpl. rewrite lookup_insert_eq. split; [done|]. by simpl.
    + intros o Ho1 Ho2. by rewrite !lookup_insert_ne.
Qed.

(** *** Reading a chain *)

Lemma is_list_frame s s' this cells :
  is_list s this cells →
  objs s' !! this = objs s !! this →
  (∀ b, b ∈ cells.*1 → heap s' !! b = heap s !! b) →
  is_list s' this cells.
Proof.
  intros (l & Hobj & Hchain & Hsize) Ho Hh. exists l.
  split; [by rewrite Ho|]. split; [|done]. by eapply lseg_frame.
Qed.

Lemma iterator_deref_heap {c} s a n :
  heap s !! a = Some n →
  iterator_deref (c:=c) (mkIterator (heap_node a)) s = Ok (value n) s.
Proof.
  intros Ha. unfold iterator_deref. simpl. step_with assert_true.
  unfold bind, load. by rewrite Ha.
Qed.

Lemma iterator_incr_heap {c} s a n :
  heap s !! a = Some n →
  iterator_incr (c:=c) (mkIterator (heap_node a)) s = Ok (mkIterator (next_node n)) s.
Proof.
  intros Ha. unfold iterator_incr. simpl. step_with assert_true.
  by step_with get_next_heap.
Qed.

Lemma begin_eq {c} s this l :
  objs s !! this = Some l →
  begin c this s = Ok (mkIterator (next_node (head_ l))) s.
Proof. intros Ho. unfold begin. by step_with get_next_head. Qed.

Lemma traverse_spec fuel s p cells :
  lseg (heap s) p nullptr cells → length cells < fuel →
  traverse fuel (mkIterator p) (mkIterator nullptr) s = Ok cells.*2 s.
Proof.
  revert p cells. induction fuel as [|fuel IH]; intros p cells Hchain Hfuel; [lia|].
  destruct cells as [|[a x] rest]; simpl in Hchain.
  - subst p. done.
  - destruct Hchain as [-> (r & Ha & Hrest)]. simpl.
    unfold iterator_ne. simpl.
    step_with iterator_deref_heap. step_with iterator_incr_heap. simpl.
    erewrite bind_Ok; [done|]. apply IH; [done|]. simpl in Hfuel. lia.
Qed.

Lemma to_list_spec fuel s this cells :
  is_list s this cells → length cells < fuel →
  to_list fuel this s = Ok cells.*2 s.
Proof.
  intros (l & Hobj & Hchain & Hsize) Hfuel. unfold to_list.
  step_with begin_eq. unfold end_. simpl. by apply traverse_spec.
Qed.

Lemma GetSize_spec s this cells :
  is_list s this cells → GetSize this s = Ok (N.of_nat (length cells)) s.
Proof.
  intros (l & Hobj & Hchain & Hsize). unfold GetSize.
  erewrite get_size_eq by done. by rewrite Hsize.
Qed.

Lemma equal_values_spec xs ys : equal_values xs ys = true ↔ spec_equal xs ys.
Proof.
  revert ys. induction xs as [|x xs IH]; intros [|y ys]; simpl.
  - split; [|done]. intros _. split; [done|]. intros i ? ? Hi. by destruct i.
  - split; [done|]. by intros [? _].
  - split; [done|]. by intros [? _].
  - rewrite andb_true_iff, IH. unfold spec_equal. simpl. split.
    + intros (Hxy & Hlen & Hall). split; [by f_equal|].
      intros [|i] x' y' Hx Hy; simpl in *; [congruence|eauto].
    + intros (Hlen & Hall). split; [by apply (Hall 0)|]. split; [congruence|].
      intros i x' y' Hx Hy. by apply (Hall (S i)).
Qed.

Lemma std_equal_spec fuel s p1 p2 cells1 cells2 :
  lseg (heap s) p1 nullptr cells1 → lseg (heap s) p2 nullptr cells2 →
  length cells1 < fuel →
  std_equal fuel (mkIterator p1) (mkIterator nullptr) (mkIterator p2) (mkIterator nullptr) s
  = Ok (equal_values cells1.*2 cells2.*2) s.
Proof.
  revert p1 p2 cells1 cells2.
  induction fuel as [|fuel IH]; intros p1 p2 cells1 cells2 H1 H2 Hfuel; [lia|].
  simpl. unfold iterator_ne, iterator_eq. simpl.
  destruct cells1 as [|[a x] rest1]; simpl in H1.
  - subst p1. simpl. destruct cells2 as [|[b y] rest2]; simpl in H2.
    + by subst p2.
    + destruct H2 as [-> _]. done.
  - destruct H1 as [-> (r1 & Ha & Hr1)]. simpl.
    destruct cells2 as [|[b y] rest2]; simpl in H2.
    + subst p2. done.
    + destruct H2 as [-> (r2 & Hb & Hr2)]. simpl.
      step_with iterator_deref_heap. step_with iterator_deref_heap. simpl.
      destruct (Type_eq x y); simpl; [|done].
      step_with iterator_incr_heap. step_with iterator_incr_heap. simpl.
      apply IH; [done|done|]. simpl in Hfuel. lia.
Qed.

Lemma std_lexicographical_compare_spec fuel s p1 p2 cells1 cells2 :
  lseg (heap s) p1 nullptr cells1 → lseg (heap s) p2 nullptr cells2 →
  length cells1 < fuel →
  std_lexicographical_compare fuel
    (mkIterator p1) (mkIterator nullptr) (mkIterator p2) (mkIterator nullptr) s
  = Ok (lexicographic_less cells1.*2 cells2.*2) s.
Proof.
  revert p1 p2 cells1 cells2.
  induction fuel as [|fuel IH]; intros p1 p2 cells1 cells2 H1 H2 Hfuel; [lia|].
  simpl. unfold iterator_ne, iterator_eq. simpl.
  destruct cells1 as [|[a x] rest1]; simpl in H1.
  - subst p1. simpl. destruct cells2 as [|[b y] rest2]; simpl in H2.
    + by subst p2.
    + destruct H2 as [-> _]. done.
  - destruct H1 as [-> (r1 & Ha & Hr1)]. simpl.
    destruct cells2 as [|[b y] rest2]; simpl in H2.
    + subst p2. done.
    + destruct H2 as [-> (r2 & Hb & Hr2)]. simpl.
      step_with iterator_deref_heap. step_with iterator_deref_heap. simpl.
      destruct (Type_lt x y); simpl; [done|].
      destruct (Type_lt y x); simpl; [done|].
      step_with iterator_incr_heap. step_with iterator_incr_heap. simpl.
      apply IH; [done|done|]. simpl in Hfuel. lia.
Qed.

Lemma operator_lt_spec fuel s (A B : obj) ca cb :
  is_list s A ca → is_list s B cb → length ca < fuel →
  operator_lt fuel A B s = Ok (lexicographic_less ca.*2 cb.*2) s.
Proof.
  intros (la & Ha & Hca & _) (lb & Hb & Hcb & _) Hfuel.
  unfold operator_lt. step_with begin_eq. unfold end_ at 1.
  erewrite (bind_Ok (ret _)) by reflexivity.
  step_with begin_eq. unfold end_.
  erewrite (bind_Ok (ret _)) by reflexivity.
  by apply std_lexicographical_compare_spec.
Qed.

(** What [operator>=] computes: the negation of [rhs < lhs]. *)
Lemma operator_ge_spec fuel s (A B : obj) ca cb :
  is_list s A ca → is_list s B cb → length cb < fuel →
  operator_ge fuel A B s = Ok (negb (lexicographic_less cb.*2 ca.*2)) s.
Proof.
  intros HA HB Hfuel. unfold operator_ge.
  by erewrite bind_Ok by (by apply operator_lt_spec).
Qed.

End Operations.

(** *** The range-for of [FillingListInSeries], for any container *)

Section Filling.
Context {T : Type} {elem : ElementType T} {build : BuildMode}.
Context {C It : Type} {cont : Container (T:=T) C It}.
Implicit Types (s : State (T:=T)) (cells : list (addr * T)).

(** [src t h it xs]: in the heap [h], the source iterator [it] still has
    the values [xs] to deliver before it reaches [last], and what it reads
    lies below the address [t]. *)
Variable src : addr → gmap addr (Node (T:=T)) → It → list T → Prop.
Variable last : It.

Hypothesis src_nil : ∀ t h it, src t h it [] → range_ne it last = false.
Hypothesis src_cons : ∀ t s it x xs,
  src t (heap s) it (x :: xs) →
  range_ne it last = true ∧ range_deref it s = Ok x s ∧
  ∃ it', range_incr it s = Ok it' s ∧ src t (heap s) it' xs.
Hypothesis src_stable : ∀ t h h' it xs,
  src t h it xs → heap_below t h h' → src t h' it xs.

Lemma Filling_loop_spec t0 temp xs :
  ∀ fuel s done (temp_it : Iterator) it,
  length xs < fuel → heap_wf s → is_list s temp done →
  (∀ a, a ∈ done.*1 → (t0 ≤ a)%N) → (t0 ≤ heap_top (heap s))%N →
  pos_at temp done (length done) (node_ temp_it) →
  src t0 (heap s) it xs →
  ∃ s' cells',
    heap_wf s' ∧ is_list s' temp cells' ∧
    (∀ a, a ∈ cells'.*1 → (t0 ≤ a)%N) ∧
    length cells' ≤ length done + length xs ∧
    heap_below t0 (heap s) (heap s') ∧
    (∀ o, o ≠ temp → objs s' !! o = objs s !! o) ∧
    if fill_succeeds (heap_top (heap s)) xs
    then Filling_loop fuel temp temp_it it last s = Ok () s' ∧
         cells'.*2 = done.*2 ++ xs
    else Filling_loop fuel temp temp_it it last s = Throw s'.
Proof.
  induction xs as [|x xs IH];
    intros fuel s done temp_it it Hfuel Hwf Hlist Hfresh Htop Hpos Hsrc;
    (destruct fuel as [|fuel]; [simpl in Hfuel; lia|]).
  - exists s, done. simpl. rewrite (src_nil _ _ _ Hsrc).
    split; [done|]. split; [done|]. split; [done|]. split; [lia|].
    split; [by intros b _|]. split; [done|]. split; [done|]. by rewrite app_nil_r.
  - destruct (src_cons _ _ _ _ _ Hsrc) as (Hne & Hderef & _).
    simpl. rewrite Hne. erewrite bind_Ok by exact Hderef.
    destruct (Type_copy_throws x) eqn:Hcopy.
    { rewrite andb_false_r. simpl.
      exists s, done. split; [done|]. split; [done|]. split; [done|]. split; [lia|].
      split; [by intros b _|]. split; [done|].
      apply bind_Throw. unfold copy_Type. by rewrite Hcopy. }
    erewrite bind_Ok by (unfold copy_Type; by rewrite Hcopy).
    pose proof (InsertAfter_spec s temp done (length done)
                  (BasicIterator_from Const temp_it) x Hwf Hlist Hpos) as Hins.
    unfold can_allocate in Hins. rewrite Hcopy in Hins.
    destruct (heap_top (heap s) <? addr_limit)%N eqn:Hlim; simpl in Hins |- *.
    2:{ exists s, done. split; [done|]. split; [done|]. split; [done|]. split; [lia|].
        split; [by intros b _|]. split; [done|]. by apply bind_Throw. }
    destruct Hins as (s1 & Hrun & Hwf1 & Hlist1 & Htop1 & Hnext & Hobjs1 & Hheap1).
    rewrite firstn_all, drop_all in Hlist1.
    erewrite bind_Ok by exact Hrun.
    assert (Hincr : iterator_incr temp_it s1 = Ok (mkIterator (heap_node (heap_top (heap s)))) s1).
    { unfold iterator_incr.
      assert (Hnn : node_ temp_it ≠ nullptr).
      { destruct (length done); simpl in Hpos; [by rewrite Hpos|].
        destruct Hpos as (c & _ & ->). done. }
      rewrite bool_decide_eq_false_2 by done. simpl. step_with assert_true.
      by erewrite bind_Ok by exact Hnext. }
    erewrite bind_Ok by exact Hincr.
    assert (Hbelow1 : heap_below t0 (heap s) (heap s1)).
    { intros b Hb. apply Hheap1. intros Hin. apply elem_of_cons in Hin as [->|Hin]; [lia|].
      simpl in Hin. destruct (length done) as [|n] eqn:Hn; simpl in Hpos.
      - rewrite Hpos in Hin. by apply elem_of_nil in Hin.
      - destruct Hpos as (c & Hc & Hp). rewrite Hp in Hin. simpl in Hin.
        apply list_elem_of_singleton in Hin. subst b.
        assert (t0 ≤ c.1)%N; [|lia]. apply Hfresh.
        apply list_elem_of_fmap. exists c. split; [done|].
        by eapply list_elem_of_lookup_2. }
    pose proof (src_stable _ _ _ _ _ Hsrc Hbelow1) as Hsrc1.
    destruct (src_cons _ _ _ _ _ Hsrc1) as (_ & _ & it' & Hit' & Hsrc').
    erewrite bind_Ok by exact Hit'.
    destruct (IH fuel s1 (done ++ [(heap_top (heap s), x)])
                (mkIterator (heap_node (heap_top (heap s)))) it')
      as (s' & cells' & Hwf' & Hlist' & Hfresh' & Hlen' & Hbelow' & Hobjs' & Hres).
    { simpl in Hfuel. lia. }
    { done. }
    { done. }
    { intros a Ha. rewrite fmap_app in Ha. apply elem_of_app in Ha as [Ha|Ha]; [eauto|].
      simpl in Ha. apply list_elem_of_singleton in Ha. by subst a. }
    { rewrite Htop1. lia. }
    { rewrite length_app. simpl. rewrite Nat.add_1_r. simpl.
      exists (heap_top (heap s), x). split; [|done].
      by rewrite lookup_app_r, Nat.sub_diag by lia. }
    { done. }
    exists s', cells'. split; [done|]. split; [done|]. split; [done|].
    split; [rewrite length_app in Hlen'; simpl in *; lia|].
    split; [|split].
    + intros b Hb. rewrite Hbelow' by done. by apply Hbelow1.
    + intros o Ho. rewrite Hobjs' by done. by apply Hobjs1.
    + rewrite Htop1 in Hres. destruct (fill_succeeds _ xs); [|done].
      destruct Hres as [-> ->]. split; [done|].
      rewrite fmap_app, <-app_assoc. done.
Qed.

Lemma destructor_spec fuel s this cells :
  heap_wf s → is_list s this cells → length cells < fuel →
  ∃ s', destructor fuel this s = Ok () s' ∧
        heap_wf s' ∧
        objs s' = delete this (objs s) ∧
        (∀ b, b ∈ cells.*1 → heap s' !! b = None) ∧
        (∀ b, b ∉ cells.*1 → heap s' !! b = heap s !! b).
Proof.
  intros Hwf Hlist Hfuel.
  destruct (Clear_spec fuel s this cells Hwf Hlist Hfuel)
    as (s1 & Hrun & Hwf1 & Hlist1 & Hgone & Hobjs & Hheap).
  unfold destructor. erewrite bind_Ok by exact Hrun. unfold free_object.
  eexists. split; [reflexivity|]. simpl. split; [done|]. split; [|done].
  apply map_eq. intros o. destruct (decide (o = this)) as [->|Hne].
  - by rewrite !lookup_delete_eq.
  - rewrite !lookup_delete_ne by done. by apply Hobjs.
Qed.

Lemma FillingListInSeries_spec fuel s this (from : C) first xs :
  heap_wf s → is_list s this [] → length xs < fuel →
  range_begin from
    (mkState (heap s)
       (<[fresh (dom (objs s)) := mkList (mkNode Type_default nullptr) 0%N]> (objs s)))
  = Ok first
      (mkState (heap s)
         (<[fresh (dom (objs s)) := mkList (mkNode Type_default nullptr) 0%N]> (objs s))) →
  range_end from
    (mkState (heap s)
       (<[fresh (dom (objs s)) := mkList (mkNode Type_default nullptr) 0%N]> (objs s)))
  = Ok last
      (mkState (heap s)
         (<[fresh (dom (objs s)) := mkList (mkNode Type_default nullptr) 0%N]> (objs s))) →
  src (heap_top (heap s)) (heap s) first xs →
  ∃ s', heap_wf s' ∧
        heap_below (heap_top (heap s)) (heap s) (heap s') ∧
        (∀ o, o ≠ this → objs s' !! o = objs s !! o) ∧
        if fill_succeeds (heap_top (heap s)) xs
        then FillingListInSeries fuel this from s = Ok () s' ∧
             ∃ cells', is_list s' this cells' ∧ cells'.*2 = xs ∧
                       (∀ a, a ∈ cells'.*1 → (heap_top (heap s) ≤ a)%N)
        else FillingListInSeries fuel this from s = Throw s' ∧
             objs s' !! this = objs s !! this.
Proof.
  intros Hwf Hthis Hfuel.
  pose proof (fresh_object_None s) as Htemp.
  set (temp := fresh (dom (objs s))) in *.
  set (s1 := mkState (heap s) (<[temp := mkList (mkNode Type_default nullptr) 0%N]> (objs s))).
  intros Hbegin Hend Hsrc.
  assert (Hne : this ≠ temp).
  { intros ->. destruct Hthis as (l & Hl & _). by rewrite Htemp in Hl. }
  assert (Hwf1 : heap_wf s1) by done.
  assert (Htemp1 : is_list s1 temp []).
  { eexists. simpl. rewrite lookup_insert_eq. done. }
  assert (Hnone : ∀ a : addr, a ∈ ([] : list (addr * T)).*1 → (heap_top (heap s) ≤ a)%N).
  { intros a Ha. by apply elem_of_nil in Ha. }
  destruct (Filling_loop_spec (heap_top (heap s)) temp xs fuel s1 []
              (mkIterator (head_of temp)) first Hfuel Hwf1 Htemp1 Hnone
              (N.le_refl _) eq_refl Hsrc)
    as (s2 & cells' & Hwf2 & Hlist2 & Hfresh2 & Hlen2 & Hbelow2 & Hobjs2 & Hres).
  assert (Hstart :
    FillingListInSeries fuel this from s =
    finally
      (bb <- before_begin Mutable temp ;;
       first <- range_begin from ;;
       last <- range_end from ;;
       Filling_loop fuel temp (BasicIterator_from Mutable bb) first last ;;;
       swap this temp)
      (destructor fuel temp) s1).
  { unfold FillingListInSeries. destruct Hthis as (l & Hl & _ & Hsz).
    by erewrite bind_Ok by (by eapply assert_empty). }
  rewrite Hstart. clear Hstart.
  assert (Hbody : ∀ k : unit → M (T:=T) unit,
    (bb <- before_begin Mutable temp ;;
     first <- range_begin from ;;
     last <- range_end from ;;
     Filling_loop fuel temp (BasicIterator_from Mutable bb) first last ;;;
     k ()) s1 =
    (Filling_loop fuel temp (mkIterator (head_of temp)) first last ;;; k ()) s1).
  { intros k. unfold before_begin.
    erewrite (bind_Ok (ret _)) by reflexivity.
    erewrite bind_Ok by exact Hbegin. by erewrite bind_Ok by exact Hend. }
  simpl in Hres.
  destruct (fill_succeeds (heap_top (heap s)) xs).
  - destruct Hres as [Hloop Hvals].
    assert (Hthis2 : is_list s2 this []).
    { eapply (is_list_frame s); [done| |].
      - rewrite Hobjs2 by done. simpl. by rewrite lookup_insert_ne.
      - intros b Hb. by apply elem_of_nil in Hb. }
    destruct (swap_spec s2 this temp [] cells' Hthis2 Hlist2)
      as (s3 & Hswap & Hheap3 & Hthis3 & Htemp3 & Hobjs3).
    assert (Hwf3 : heap_wf s3). { intros b n. rewrite Hheap3. apply Hwf2. }
    destruct (destructor_spec fuel s3 temp [] Hwf3 Htemp3)
      as (s4 & Hdes & Hwf4 & Hobjs4 & _ & Hheap4); [simpl; lia|].
    assert (Hheap4' : ∀ b, heap s4 !! b = heap s2 !! b).
    { intros b. rewrite Hheap4, Hheap3; [done|]. intros Hb. by apply elem_of_nil in Hb. }
    exists s4. split; [done|]. split; [|split; [|split]].
    + intros b Hb. rewrite Hheap4'. by apply Hbelow2.
    + intros o Ho. rewrite Hobjs4. destruct (decide (o = temp)) as [->|Hot].
      * by rewrite lookup_delete_eq.
      * rewrite lookup_delete_ne, Hobjs3, Hobjs2 by done. simpl.
        by rewrite lookup_insert_ne.
    + eapply finally_Ok; [|exact Hdes]. rewrite (Hbody (λ _, swap this temp)).
      by erewrite bind_Ok by exact Hloop.
    + exists cells'. split; [|done].
      eapply (is_list_frame s3); [done| |].
      * rewrite Hobjs4. by rewrite lookup_delete_ne.
      * intros b _. by rewrite Hheap4', Hheap3.
  - destruct (destructor_spec fuel s2 temp cells' Hwf2 Hlist2)
      as (s4 & Hdes & Hwf4 & Hobjs4 & _ & Hheap4); [simpl in Hlen2; lia|].
    assert (Hobjs : ∀ o, objs s4 !! o = objs s !! o).
    { intros o. rewrite Hobjs4. destruct (decide (o = temp)) as [->|Hot].
      - by rewrite lookup_delete_eq.
      - rewrite lookup_delete_ne, Hobjs2 by done. simpl. by rewrite lookup_insert_ne. }
    exists s4. split; [done|]. split; [|split; [|split]].
    + intros b Hb. rewrite Hheap4; [by apply Hbelow2|].
      intros Hin. apply Hfresh2 in Hin. lia.
    + intros o _. apply Hobjs.
    + eapply finally_Throw; [|exact Hdes]. rewrite (Hbody (λ _, swap this temp)).
      by apply bind_Throw.
    + apply Hobjs.
Qed.

Lemma is_list_det s this cells1 cells2 :
  is_list s this cells1 → is_list s this cells2 → cells1 = cells2.
Proof.
  intros (l1 & Ho1 & Hc1 & _) (l2 & Ho2 & Hc2 & _).
  assert (l2 = l1) as -> by congruence. by eapply lseg_det.
Qed.

(** The loop allocates for the temporary list only: above [t0], a node in
    use is a node of that list. *)
Lemma Filling_loop_owned t0 temp xs :
  ∀ fuel s done (temp_it : Iterator) it s' cells',
  length xs < fuel → heap_wf s → is_list s temp done →
  (∀ a, a ∈ done.*1 → (t0 ≤ a)%N) → (t0 ≤ heap_top (heap s))%N →
  pos_at temp done (length done) (node_ temp_it) →
  src t0 (heap s) it xs →
  (∀ b, (t0 ≤ b)%N → is_Some (heap s !! b) → b ∈ done.*1) →
  (Filling_loop fuel temp temp_it it last s = Ok () s' ∨
   Filling_loop fuel temp temp_it it last s = Throw s') →
  is_list s' temp cells' →
  ∀ b, (t0 ≤ b)%N → is_Some (heap s' !! b) → b ∈ cells'.*1.
Proof.
  induction xs as [|x xs IH];
    intros fuel s done temp_it it s' cells'
           Hfuel Hwf Hlist Hfresh Htop Hpos Hsrc Hown Hrun Hlist';
    (destruct fuel as [|fuel]; [simpl in Hfuel; lia|]).
  - simpl in Hrun. rewrite (src_nil _ _ _ Hsrc) in Hrun.
    assert (s' = s) as -> by (destruct Hrun as [Hrun|Hrun]; by inversion Hrun).
    by rewrite (is_list_det _ _ _ _ Hlist' Hlist).
  - destruct (src_cons _ _ _ _ _ Hsrc) as (Hne & Hderef & _).
    simpl in Hrun. rewrite Hne in Hrun.
    erewrite !bind_Ok in Hrun by exact Hderef.
    destruct (Type_copy_throws x) eqn:Hcopy.
    { erewrite !bind_Throw in Hrun by (unfold copy_Type; by rewrite Hcopy).
      assert (s' = s) as -> by (destruct Hrun as [Hrun|Hrun]; by inversion Hrun).
      by rewrite (is_list_det _ _ _ _ Hlist' Hlist). }
    erewrite !bind_Ok in Hrun by (unfold copy_Type; by rewrite Hcopy).
    pose proof (InsertAfter_spec s temp done (length done)
                  (BasicIterator_from Const temp_it) x Hwf Hlist Hpos) as Hins.
    unfold can_allocate in Hins. rewrite Hcopy in Hins.
    destruct (heap_top (heap s) <? addr_limit)%N eqn:Hlim; simpl in Hins.
    2:{ erewrite !bind_Throw in Hrun by exact Hins.
        assert (s' = s) as -> by (destruct Hrun as [Hrun|Hrun]; by inversion Hrun).
        by rewrite (is_list_det _ _ _ _ Hlist' Hlist). }
    destruct Hins as (s1 & Hrun1 & Hwf1 & Hlist1 & Htop1 & Hnext & Hobjs1 & Hheap1).
    rewrite firstn_all, drop_all in Hlist1.
    erewrite !bind_Ok in Hrun by exact Hrun1.
    assert (Hincr : iterator_incr temp_it s1 = Ok (mkIterator (heap_node (heap_top (heap s)))) s1).
    { unfold iterator_incr.
      rewrite bool_decide_eq_false_2 by (by eapply pos_at_not_null).
      simpl. step_with assert_true.
      by erewrite bind_Ok by exact Hnext. }
    erewrite !bind_Ok in Hrun by exact Hincr.
    assert (Hpos_in : ∀ b, b ∈ addr_of (node_ (BasicIterator_from Const temp_it)) →
                           b ∈ done.*1).
    { intros b Hin. simpl in Hin.
      destruct (length done) as [|n] eqn:Hn; simpl in Hpos.
      - rewrite Hpos in Hin. by apply elem_of_nil in Hin.
      - destruct Hpos as (c & Hc & Hp). rewrite Hp in Hin. simpl in Hin.
        apply list_elem_of_singleton in Hin. subst b.
        apply list_elem_of_fmap. exists c. split; [done|].
        by eapply list_elem_of_lookup_2. }
    assert (Hbelow1 : heap_below t0 (heap s) (heap s1)).
    { intros b Hb. apply Hheap1. intros Hin.
      apply elem_of_cons in Hin as [->|Hin]; [lia|].
      apply Hpos_in, Hfresh in Hin. lia. }
    pose proof (src_stable _ _ _ _ _ Hsrc Hbelow1) as Hsrc1.
    destruct (src_cons _ _ _ _ _ Hsrc1) as (_ & _ & it' & Hit' & Hsrc').
    erewrite !bind_Ok in Hrun by exact Hit'.
    eapply (IH fuel s1 (done ++ [(heap_top (heap s), x)])
              (mkIterator (heap_node (heap_top (heap s)))) it' s' cells');
      try done.
    + simpl in Hfuel. lia.
    + intros a Ha. rewrite fmap_app in Ha. apply elem_of_app in Ha as [Ha|Ha]; [eauto|].
      simpl in Ha. apply list_elem_of_singleton in Ha. by subst a.
    + rewrite Htop1. lia.
    + rewrite length_app. simpl. rewrite Nat.add_1_r. simpl.
      exists (heap_top (heap s), x). split; [|done].
      by rewrite lookup_app_r, Nat.sub_diag by lia.
    + intros b Hb Hsome. rewrite fmap_app. apply elem_of_app.
      destruct (decide (b = heap_top (heap s))) as [->|Hnb]; [right; simpl; left|].
      left. destruct (decide (b ∈ addr_of (node_ (BasicIterator_from Const temp_it))))
        as [Hin|Hnin]; [by apply Hpos_in|].
      apply Hown; [done|]. rewrite <-Hheap1; [done|].
      intros Hin. apply elem_of_cons in Hin as [?|?]; done.
Qed.

Lemma State_eq (s1 s2 : State (T:=T)) :
  heap s1 = heap s2 → objs s1 = objs s2 → s1 = s2.
Proof. destruct s1, s2. simpl. by intros -> ->. Qed.

Lemma above_top_free (h : gmap addr (Node (T:=T))) b :
  (heap_top h ≤ b)%N → h !! b = None.
Proof.
  intros Hb. destruct (h !! b) as [n|] eqn:E; [|done].
  destruct (heap_top_spec h) as (_ & Hlt & _).
  specialize (Hlt b (mk_is_Some _ _ E)). lia.
Qed.

(** [FillingListInSeries] to the letter: on success the heap gains the
    nodes of the new chain and nothing else; when a copy or an allocation
    throws, the state is exactly the one before the call. *)
Lemma FillingListInSeries_exact fuel s this (from : C) first xs :
  heap_wf s → is_list s this [] → length xs < fuel →
  range_begin from
    (mkState (heap s)
       (<[fresh (dom (objs s)) := mkList (mkNode Type_default nullptr) 0%N]> (objs s)))
  = Ok first
      (mkState (heap s)
         (<[fresh (dom (objs s)) := mkList (mkNode Type_default nullptr) 0%N]> (objs s))) →
  range_end from
    (mkState (heap s)
       (<[fresh (dom (objs s)) := mkList (mkNode Type_default nullptr) 0%N]> (objs s)))
  = Ok last
      (mkState (heap s)
         (<[fresh (dom (objs s)) := mkList (mkNode Type_default nullptr) 0%N]> (objs s))) →
  src (heap_top (heap s)) (heap s) first xs →
  if fill_succeeds (heap_top (heap s)) xs
  then ∃ s' cells',
         FillingListInSeries fuel this from s = Ok () s' ∧
         heap_wf s' ∧ is_list s' this cells' ∧ cells'.*2 = xs ∧
         (∀ b, b ∈ cells'.*1 → heap s !! b = None) ∧
         (∀ b, b ∉ cells'.*1 → heap s' !! b = heap s !! b) ∧
         (∀ o, o ≠ this → objs s' !! o = objs s !! o)
  else FillingListInSeries fuel this from s = Throw s.
Proof.
  intros Hwf Hthis Hfuel.
  pose proof (fresh_object_None s) as Htemp.
  set (temp := fresh (dom (objs s))) in *.
  set (s1 := mkState (heap s) (<[temp := mkList (mkNode Type_default nullptr) 0%N]> (objs s))).
  intros Hbegin Hend Hsrc.
  assert (Hne : this ≠ temp).
  { intros ->. destruct Hthis as (l & Hl & _). by rewrite Htemp in Hl. }
  assert (Hwf1 : heap_wf s1) by done.
  assert (Htemp1 : is_list s1 temp []).
  { eexists. simpl. rewrite lookup_insert_eq. done. }
  assert (Hnone : ∀ a : addr, a ∈ ([] : list (addr * T)).*1 → (heap_top (heap s) ≤ a)%N).
  { intros a Ha. by apply elem_of_nil in Ha. }
  destruct (Filling_loop_spec (heap_top (heap s)) temp xs fuel s1 []
              (mkIterator (head_of temp)) first Hfuel Hwf1 Htemp1 Hnone
              (N.le_refl _) eq_refl Hsrc)
    as (s2 & cells' & Hwf2 & Hlist2 & Hfresh2 & Hlen2 & Hbelow2 & Hobjs2 & Hres).
  assert (Hown2 : ∀ b, (heap_top (heap s) ≤ b)%N → is_Some (heap s2 !! b) → b ∈ cells'.*1).
  { eapply (Filling_loop_owned (heap_top (heap s)) temp xs fuel s1 []
              (mkIterator (head_of temp)) first s2 cells'); try done.
    - intros b Hb [n Hn]. simpl in Hn. by rewrite above_top_free in Hn.
    - simpl in Hres. destruct (fill_succeeds _ _); [left; apply Hres|by right]. }
  assert (Hrest : ∀ b, b ∉ cells'.*1 → heap s2 !! b = heap s !! b).
  { intros b Hb. destruct (decide (b < heap_top (heap s))%N) as [Hlt|Hge].
    - by apply Hbelow2.
    - assert (Hfree : heap s !! b = None) by (apply above_top_free; lia).
      rewrite Hfree.
      destruct (heap s2 !! b) as [n|] eqn:E; [|done].
      exfalso. apply Hb, Hown2; [lia|eauto]. }
  assert (Hstart :
    FillingListInSeries fuel this from s =
    finally
      (Filling_loop fuel temp (mkIterator (head_of temp)) first last ;;;
       swap this temp)
      (destructor fuel temp) s1).
  { unfold FillingListInSeries. destruct Hthis as (l & Hl & _ & Hsz).
    erewrite bind_Ok by (by eapply assert_empty).
    erewrite (bind_Ok SingleLinkedList_default) by reflexivity.
    unfold finally, before_begin.
    erewrite (bind_Ok (ret _)) by reflexivity.
    erewrite bind_Ok by exact Hbegin. by erewrite bind_Ok by exact Hend. }
  rewrite Hstart. clear Hstart. simpl in Hres.
  destruct (fill_succeeds (heap_top (heap s)) xs).
  - destruct Hres as [Hloop Hvals].
    assert (Hthis2 : is_list s2 this []).
    { eapply (is_list_frame s); [done| |].
      - rewrite Hobjs2 by done. simpl. by rewrite lookup_insert_ne.
      - intros b Hb. by apply elem_of_nil in Hb. }
    destruct (swap_spec s2 this temp [] cells' Hthis2 Hlist2)
      as (s3 & Hswap & Hheap3 & Hthis3 & Htemp3 & Hobjs3).
    assert (Hwf3 : heap_wf s3). { intros b n. rewrite Hheap3. apply Hwf2. }
    destruct (destructor_spec fuel s3 temp [] Hwf3 Htemp3)
      as (s4 & Hdes & Hwf4 & Hobjs4 & _ & Hheap4); [simpl; lia|].
    assert (Hheap4' : ∀ b, heap s4 !! b = heap s2 !! b).
    { intros b. rewrite Hheap4, Hheap3; [done|]. intros Hb. by apply elem_of_nil in Hb. }
    exists s4, cells'. split; [|split; [done|split; [|split; [by simpl in Hvals|]]]].
    + eapply finally_Ok; [|exact Hdes]. by erewrite bind_Ok by exact Hloop.
    + eapply (is_list_frame s3); [done| |].
      * rewrite Hobjs4. by rewrite lookup_delete_ne.
      * intros b _. by rewrite Hheap4', Hheap3.
    + split; [|split].
      * intros b Hb. apply above_top_free. by apply Hfresh2.
      * intros b Hb. rewrite Hheap4'. by apply Hrest.
      * intros o Ho. rewrite Hobjs4. destruct (decide (o = temp)) as [->|Hot].
        -- by rewrite lookup_delete_eq.
        -- rewrite lookup_delete_ne, Hobjs3, Hobjs2 by done. simpl.
           by rewrite lookup_insert_ne.
  - destruct (destructor_spec fuel s2 temp cells' Hwf2 Hlist2)
      as (s4 & Hdes & Hwf4 & Hobjs4 & Hgone & Hheap4); [simpl in Hlen2; lia|].
    assert (s4 = s) as Heq.
    { apply State_eq.
      - apply map_eq. intros b. destruct (decide (b ∈ cells'.*1)) as [Hin|Hnin].
        + rewrite Hgone by done. symmetry. apply above_top_free. by apply Hfresh2.
        + rewrite Hheap4 by done. by apply Hrest.
      - apply map_eq. intros o. rewrite Hobjs4.
        destruct (decide (o = temp)) as [->|Hot].
        + by rewrite lookup_delete_eq.
        + rewrite lookup_delete_ne, Hobjs2 by done. simpl. by rewrite lookup_insert_ne. }
    rewrite Heq in Hdes. eapply finally_Throw; [|exact Hdes]. by apply bind_Throw.
Qed.

(** A constructor that fills the new object from [from]. *)
Lemma constructor_spec fuel s (from : C) first xs :
  heap_wf s → length xs < fuel →
  (∀ s', heap s' = heap s →
         (∀ o, is_Some (objs s !! o) → objs s' !! o = objs s !! o) →
         range_begin from s' = Ok first s' ∧ range_end from s' = Ok last s') →
  src (heap_top (heap s)) (heap s) first xs →
  ∃ s', heap_wf s' ∧
        heap_below (heap_top (heap s)) (heap s) (heap s') ∧
        (∀ o, o ≠ fresh (dom (objs s)) → objs s' !! o = objs s !! o) ∧
        if fill_succeeds (heap_top (heap s)) xs
        then (this <- alloc_object ;;
              on_throw (FillingListInSeries fuel this from) (free_object this) ;;;
              ret this) s = Ok (fresh (dom (objs s))) s' ∧
             ∃ cells', is_list s' (fresh (dom (objs s))) cells' ∧ cells'.*2 = xs ∧
                       (∀ a, a ∈ cells'.*1 → (heap_top (heap s) ≤ a)%N)
        else (this <- alloc_object ;;
              on_throw (FillingListInSeries fuel this from) (free_object this) ;;;
              ret this) s = Throw s' ∧
             objs s' !! fresh (dom (objs s)) = None.
Proof.
  intros Hwf Hfuel Hrange Hsrc.
  pose proof (fresh_object_None s) as Hthis.
  set (this := fresh (dom (objs s))) in *.
  set (s1 := mkState (heap s) (<[this := mkList (mkNode Type_default nullptr) 0%N]> (objs s))).
  assert (Halloc : alloc_object s = Ok this s1) by done.
  assert (Hkeep : ∀ o, is_Some (objs s !! o) → objs s1 !! o = objs s !! o).
  { intros o [l Hl]. simpl. rewrite lookup_insert_ne; [done|].
    intros <-. by rewrite Hthis in Hl. }
  destruct (FillingListInSeries_spec fuel s1 this from first xs)
    as (s2 & Hwf2 & Hbelow2 & Hobjs2 & Hres).
  { done. }
  { eexists. simpl. rewrite lookup_insert_eq. done. }
  { done. }
  { apply Hrange; [done|]. intros o Ho. simpl. rewrite lookup_insert_ne.
    - by apply Hkeep.
    - apply (fresh_object_ne s1). by rewrite Hkeep. }
  { apply Hrange; [done|]. intros o Ho. simpl. rewrite lookup_insert_ne.
    - by apply Hkeep.
    - apply (fresh_object_ne s1). by rewrite Hkeep. }
  { done. }
  simpl in Hbelow2, Hres.
  destruct (fill_succeeds (heap_top (heap s)) xs).
  - destruct Hres as (Hrun & cells' & Hlist & Hvals & Hfresh).
    exists s2. split; [done|]. split; [done|]. split; [|split].
    + intros o Ho. rewrite Hobjs2 by done. simpl. by rewrite lookup_insert_ne.
    + erewrite bind_Ok by exact Halloc.
      erewrite bind_Ok; [done|]. by apply on_throw_Ok.
    + by exists cells'.
  - destruct Hres as (Hrun & Hsame).
    exists (mkState (heap s2) (delete this (objs s2))).
    split; [done|]. split; [done|]. split; [|split].
    + intros o Ho. simpl. rewrite lookup_delete_ne, Hobjs2 by done.
      simpl. by rewrite lookup_insert_ne.
    + erewrite bind_Ok by exact Halloc. apply bind_Throw.
      by eapply on_throw_Throw.
    + simpl. apply lookup_delete_eq.
Qed.

(** The constructors to the letter: the new object with exactly the new
    nodes, or the state before the call. *)
Lemma constructor_exact fuel s (from : C) first xs :
  heap_wf s → length xs < fuel →
  (∀ s', heap s' = heap s →
         (∀ o, is_Some (objs s !! o) → objs s' !! o = objs s !! o) →
         range_begin from s' = Ok first s' ∧ range_end from s' = Ok last s') →
  src (heap_top (heap s)) (heap s) first xs →
  if fill_succeeds (heap_top (heap s)) xs
  then ∃ s' cells',
         (this <- alloc_object ;;
          on_throw (FillingListInSeries fuel this from) (free_object this) ;;;
          ret this) s = Ok (fresh (dom (objs s))) s' ∧
         heap_wf s' ∧ is_list s' (fresh (dom (objs s))) cells' ∧ cells'.*2 = xs ∧
         (∀ b, b ∈ cells'.*1 → heap s !! b = None) ∧
         (∀ b, b ∉ cells'.*1 → heap s' !! b = heap s !! b) ∧
         (∀ o, o ≠ fresh (dom (objs s)) → objs s' !! o = objs s !! o)
  else (this <- alloc_object ;;
        on_throw (FillingListInSeries fuel this from) (free_object this) ;;;
        ret this) s = Throw s.
Proof.
  intros Hwf Hfuel Hrange Hsrc.
  pose proof (fresh_object_None s) as Hthis.
  set (this := fresh (dom (objs s))) in *.
  set (s1 := mkState (heap s) (<[this := mkList (mkNode Type_default nullptr) 0%N]> (objs s))).
  assert (Halloc : alloc_object s = Ok this s1) by done.
  assert (Hkeep : ∀ o, is_Some (objs s !! o) → objs s1 !! o = objs s !! o).
  { intros o [l Hl]. simpl. rewrite lookup_insert_ne; [done|].
    intros <-. by rewrite Hthis in Hl. }
  set (st := mkState (heap s1)
                (<[fresh (dom (objs s1)) := mkList (mkNode Type_default nullptr) 0%N]>
                   (objs s1))).
  assert (Hr : ∀ o, is_Some (objs s !! o) → objs st !! o = objs s !! o).
  { intros o Ho. simpl. rewrite lookup_insert_ne.
    - rewrite lookup_insert_ne; [done|]. intros <-. destruct Ho as [l Hl].
      by rewrite Hthis in Hl.
    - apply (fresh_object_ne s1). by rewrite Hkeep. }
  destruct (Hrange st eq_refl Hr) as [Hb He].
  assert (Hthis1 : is_list s1 this []).
  { eexists. simpl. rewrite lookup_insert_eq. done. }
  pose proof (FillingListInSeries_exact fuel s1 this from first xs
                Hwf Hthis1 Hfuel Hb He Hsrc) as Hfill.
  simpl in Hfill.
  destruct (fill_succeeds (heap_top (heap s)) xs).
  - destruct Hfill as (s2 & cells' & Hrun & Hwf2 & Hlist & Hvals & Hnew & Hold & Hobjs).
    exists s2, cells'. split; [|split; [done|split; [done|split; [done|]]]].
    + erewrite bind_Ok by exact Halloc.
      erewrite bind_Ok; [done|]. by apply on_throw_Ok.
    + split; [done|]. split; [done|].
      intros o Ho. rewrite Hobjs by done. simpl. by rewrite lookup_insert_ne.
  - erewrite bind_Ok by exact Halloc. apply bind_Throw.
    eapply on_throw_Throw; [exact Hfill|]. unfold free_object. f_equal.
    apply State_eq; [done|]. simpl. by apply delete_insert_id.
Qed.

End Filling.

(** *** The two constructors and copy assignment *)

Section Copying.
Context {T : Type} {elem : ElementType T} {build : BuildMode}.
Implicit Types (h : gmap addr (Node (T:=T))) (s : State (T:=T)).
Implicit Types (cells : list (addr * T)) (p q : NodePtr) (this : obj).

Lemma init_src_nil l t h it :
  init_src l t h it [] → range_ne it (l, length l) = false.
Proof.
  intros (pre & Hl & ->). simpl. rewrite app_nil_r in Hl. subst pre.
  by rewrite Nat.eqb_refl.
Qed.

Lemma init_src_cons l t s it x xs :
  init_src l t (heap s) it (x :: xs) →
  range_ne it (l, length l) = true ∧ range_deref it s = Ok x s ∧
  ∃ it', range_incr it s = Ok it' s ∧ init_src l t (heap s) it' xs.
Proof.
  intros (pre & Hl & ->). subst l. simpl. split; [|split].
  - apply negb_true_iff, Nat.eqb_neq.
    rewrite length_app. simpl. lia.
  - by rewrite lookup_app_r, Nat.sub_diag by lia.
  - eexists. split; [reflexivity|]. exists (pre ++ [x]).
    rewrite <-app_assoc. split; [done|]. rewrite length_app. simpl.
    by rewrite Nat.add_1_r.
Qed.

Lemma init_src_stable l t h h' it xs :
  init_src l t h it xs → heap_below t h h' → init_src l t h' it xs.
Proof. done. Qed.

Lemma list_src_nil t h it :
  list_src t h it [] → range_ne (T:=T) it (mkIterator (c:=Const) nullptr) = false.
Proof.
  intros (cells & Hchain & Hvals & _). destruct cells; [|done].
  simpl in Hchain. destruct it as [pn]. simpl in *. subst pn. done.
Qed.

Lemma list_src_cons t s it x xs :
  list_src t (heap s) it (x :: xs) →
  range_ne (T:=T) it (mkIterator (c:=Const) nullptr) = true ∧ range_deref it s = Ok x s ∧
  ∃ it', range_incr it s = Ok it' s ∧ list_src t (heap s) it' xs.
Proof.
  intros (cells & Hchain & Hvals & Hlow). destruct cells as [|[a y] rest]; [done|].
  simpl in Hvals. injection Hvals as -> Hvals.
  simpl in Hchain. destruct Hchain as [Hit (r & Ha & Hrest)].
  destruct it as [pn]. simpl in Hit. subst pn. split; [|split].
  - done.
  - simpl. by erewrite iterator_deref_heap by exact Ha.
  - exists (mkIterator r). simpl. split.
    + by erewrite iterator_incr_heap by exact Ha.
    + exists rest. split; [done|]. split; [done|].
      intros b Hb. apply Hlow. simpl. by right.
Qed.

Lemma list_src_stable t h h' it xs :
  list_src t h it xs → heap_below t h h' → list_src t h' it xs.
Proof.
  intros (cells & Hchain & Hvals & Hlow) Hbelow. exists cells.
  split; [|done]. eapply lseg_frame; [|done]. intros a Ha. apply Hbelow. eauto.
Qed.

Lemma lseg_below_top h p q cells a :
  lseg h p q cells → a ∈ cells.*1 → (a < heap_top h)%N.
Proof.
  intros Hchain Ha. destruct (heap_top_spec h) as (_ & Hlt & _).
  apply Hlt. by eapply lseg_allocated.
Qed.

Lemma SingleLinkedList_init_spec fuel s values :
  heap_wf s → length values < fuel →
  ∃ s', heap_wf s' ∧
        heap_below (heap_top (heap s)) (heap s) (heap s') ∧
        (∀ o, o ≠ fresh (dom (objs s)) → objs s' !! o = objs s !! o) ∧
        if fill_succeeds (heap_top (heap s)) values
        then SingleLinkedList_init fuel values s = Ok (fresh (dom (objs s))) s' ∧
             ∃ cells', is_list s' (fresh (dom (objs s))) cells' ∧ cells'.*2 = values ∧
                       (∀ a, a ∈ cells'.*1 → (heap_top (heap s) ≤ a)%N)
        else SingleLinkedList_init fuel values s = Throw s' ∧
             objs s' !! fresh (dom (objs s)) = None.
Proof.
  intros Hwf Hfuel.
  apply (constructor_spec (init_src values) (values, length values)
           (init_src_nil values) (init_src_cons values) (init_src_stable values)
           fuel s values (values, 0) values Hwf Hfuel).
  - done.
  - by exists [].
Qed.

Lemma SingleLinkedList_copy_spec fuel s other cells :
  heap_wf s → is_list s other cells → length cells < fuel →
  ∃ s', heap_wf s' ∧
        heap_below (heap_top (heap s)) (heap s) (heap s') ∧
        (∀ o, o ≠ fresh (dom (objs s)) → objs s' !! o = objs s !! o) ∧
        if fill_succeeds (heap_top (heap s)) cells.*2
        then SingleLinkedList_copy fuel other s = Ok (fresh (dom (objs s))) s' ∧
             ∃ cells', is_list s' (fresh (dom (objs s))) cells' ∧ cells'.*2 = cells.*2 ∧
                       (∀ a, a ∈ cells'.*1 → (heap_top (heap s) ≤ a)%N)
        else SingleLinkedList_copy fuel other s = Throw s' ∧
             objs s' !! fresh (dom (objs s)) = None.
Proof.
  intros Hwf (l & Hobj & Hchain & Hsize) Hfuel.
  apply (constructor_spec list_src (mkIterator nullptr)
           list_src_nil list_src_cons list_src_stable
           fuel s other (mkIterator (next_node (head_ l))) cells.*2 Hwf).
  - by rewrite length_fmap.
  - intros s' _ Hobjs. split; [|done]. simpl.
    apply begin_eq. rewrite Hobjs by eauto. done.
  - exists cells. split; [done|]. split; [done|].
    intros a Ha. by eapply lseg_below_top.
Qed.

Lemma operator_assign_spec fuel s this rhs ct cr :
  heap_wf s → is_list s this ct → is_list s rhs cr → this ≠ rhs →
  length ct < fuel → length cr < fuel →
  ∃ s', heap_wf s' ∧
        if fill_succeeds (heap_top (heap s)) cr.*2
        then operator_assign fuel this rhs s = Ok this s' ∧
             (∃ cells', is_list s' this cells' ∧ cells'.*2 = cr.*2) ∧
             ((∀ a, a ∈ ct.*1 → a ∉ cr.*1) → is_list s' rhs cr)
        else operator_assign fuel this rhs s = Throw s' ∧
             is_list s' this ct ∧ is_list s' rhs cr.
Proof.
  intros Hwf Hthis Hrhs Hne Hfuelt Hfuelr.
  destruct (SingleLinkedList_copy_spec fuel s rhs cr Hwf Hrhs Hfuelr)
    as (s1 & Hwf1 & Hbelow1 & Hobjs1 & Hres).
  set (tmp := fresh (dom (objs s))) in *.
  assert (Hthis_tmp : this ≠ tmp).
  { destruct Hthis as (l & Hl & _). intros ->. by apply (fresh_object_ne s tmp). }
  assert (Hrhs_tmp : rhs ≠ tmp).
  { destruct Hrhs as (l & Hl & _). intros ->. by apply (fresh_object_ne s tmp). }
  assert (Hthis1 : is_list s1 this ct).
  { eapply (is_list_frame s); [done|by apply Hobjs1|].
    intros b Hb. apply Hbelow1. destruct Hthis as (l & _ & Hchain & _).
    by eapply lseg_below_top. }
  assert (Hrhs1 : is_list s1 rhs cr).
  { eapply (is_list_frame s); [done|by apply Hobjs1|].
    intros b Hb. apply Hbelow1. destruct Hrhs as (l & _ & Hchain & _).
    by eapply lseg_below_top. }
  unfold operator_assign. rewrite bool_decide_eq_false_2 by done.
  destruct (fill_succeeds (heap_top (heap s)) cr.*2).
  - destruct Hres as (Hcopy & cells' & Htmp1 & Hvals & Hfresh).
    destruct (swap_spec s1 this tmp ct cells' Hthis1 Htmp1)
      as (s2 & Hswap & Hheap2 & Hthis2 & Htmp2 & Hobjs2).
    assert (Hwf2 : heap_wf s2). { intros b n. rewrite Hheap2. apply Hwf1. }
    destruct (destructor_spec fuel s2 tmp ct Hwf2 Htmp2 Hfuelt)
      as (s3 & Hdes & Hwf3 & Hobjs3 & _ & Hheap3).
    exists s3. split; [done|]. split; [|split].
    + erewrite bind_Ok by exact Hcopy. erewrite bind_Ok; [done|].
      by eapply finally_Ok.
    + exists cells'. split; [|done].
      eapply (is_list_frame s2); [done| |].
      * rewrite Hobjs3. by rewrite lookup_delete_ne.
      * intros b Hb. apply Hheap3. intros Hin.
        apply Hfresh in Hb. destruct Hthis as (l & _ & Hchain & _).
        pose proof (lseg_below_top _ _ _ _ _ Hchain Hin). lia.
    + intros Hdisj. eapply (is_list_frame s1); [done| |].
      * rewrite Hobjs3. rewrite lookup_delete_ne by done. by apply Hobjs2.
      * intros b Hb. rewrite Hheap3, Hheap2; [done|].
        intros Hin. by apply (Hdisj b).
  - destruct Hres as (Hcopy & _). exists s1. split; [done|].
    split; [by apply bind_Throw|]. done.
Qed.

Lemma SingleLinkedList_init_exact fuel s values :
  heap_wf s → length values < fuel →
  if fill_succeeds (heap_top (heap s)) values
  then ∃ s' cells',
         SingleLinkedList_init fuel values s = Ok (fresh (dom (objs s))) s' ∧
         heap_wf s' ∧ is_list s' (fresh (dom (objs s))) cells' ∧ cells'.*2 = values ∧
         (∀ b, b ∈ cells'.*1 → heap s !! b = None) ∧
         (∀ b, b ∉ cells'.*1 → heap s' !! b = heap s !! b) ∧
         (∀ o, o ≠ fresh (dom (objs s)) → objs s' !! o = objs s !! o)
  else SingleLinkedList_init fuel values s = Throw s.
Proof.
  intros Hwf Hfuel.
  apply (constructor_exact (init_src values) (values, length values)
           (init_src_nil values) (init_src_cons values) (init_src_stable values)
           fuel s values (values, 0) values Hwf Hfuel).
  - done.
  - by exists [].
Qed.

Lemma SingleLinkedList_copy_exact fuel s other cells :
  heap_wf s → is_list s other cells → length cells < fuel →
  if fill_succeeds (heap_top (heap s)) cells.*2
  then ∃ s' cells',
         SingleLinkedList_copy fuel other s = Ok (fresh (dom (objs s))) s' ∧
         heap_wf s' ∧ is_list s' (fresh (dom (objs s))) cells' ∧
         cells'.*2 = cells.*2 ∧
         (∀ b, b ∈ cells'.*1 → heap s !! b = None) ∧
         (∀ b, b ∉ cells'.*1 → heap s' !! b = heap s !! b) ∧
         (∀ o, o ≠ fresh (dom (objs s)) → objs s' !! o = objs s !! o)
  else SingleLinkedList_copy fuel other s = Throw s.
Proof.
  intros Hwf (l & Hobj & Hchain & Hsize) Hfuel.
  apply (constructor_exact list_src (mkIterator nullptr)
           list_src_nil list_src_cons list_src_stable
           fuel s other (mkIterator (next_node (head_ l))) cells.*2 Hwf).
  - by rewrite length_fmap.
  - intros s' _ Hobjs. split; [|done]. simpl.
    apply begin_eq. rewrite Hobjs by eauto. done.
  - exists cells. split; [done|]. split; [done|].
    intros a Ha. by eapply lseg_below_top.
Qed.

(** A chain uses allocated nodes only. *)
Lemma is_list_allocated s this cells b :
  is_list s this cells → b ∈ cells.*1 → is_Some (heap s !! b).
Proof. intros (l & _ & Hchain & _) Hb. by eapply lseg_allocated. Qed.

Lemma operator_assign_exact fuel s this rhs ct cr :
  heap_wf s → is_list s this ct → is_list s rhs cr → this ≠ rhs →
  length ct < fuel → length cr < fuel →
  if fill_succeeds (heap_top (heap s)) cr.*2
  then ∃ s' cells',
         operator_assign fuel this rhs s = Ok this s' ∧
         heap_wf s' ∧ is_list s' this cells' ∧ cells'.*2 = cr.*2 ∧
         (∀ b, b ∈ cells'.*1 → heap s !! b = None) ∧
         (∀ b, b ∈ ct.*1 → heap s' !! b = None) ∧
         (∀ b, b ∉ ct.*1 → b ∉ cells'.*1 → heap s' !! b = heap s !! b) ∧
         (∀ o, o ≠ this → objs s' !! o = objs s !! o)
  else operator_assign fuel this rhs s = Throw s.
Proof.
  intros Hwf Hthis Hrhs Hne Hfuelt Hfuelr.
  pose proof (SingleLinkedList_copy_exact fuel s rhs cr Hwf Hrhs Hfuelr) as Hcopy.
  pose proof (fresh_object_None s) as Htmp.
  set (tmp := fresh (dom (objs s))) in *.
  assert (Hthis_tmp : this ≠ tmp).
  { destruct Hthis as (l & Hl & _). intros ->. by rewrite Htmp in Hl. }
  unfold operator_assign. rewrite bool_decide_eq_false_2 by done.
  destruct (fill_succeeds (heap_top (heap s)) cr.*2).
  2:{ by apply bind_Throw. }
  destruct Hcopy as (s1 & cells' & Hrun & Hwf1 & Htmp1 & Hvals & Hnew & Hold & Hobjs1).
  assert (Hsep : ∀ b, b ∈ ct.*1 → b ∉ cells'.*1).
  { intros b Hb Hin. apply Hnew in Hin.
    destruct (is_list_allocated _ _ _ _ Hthis Hb) as [n Hn]. congruence. }
  assert (Hthis1 : is_list s1 this ct).
  { eapply (is_list_frame s); [done|by apply Hobjs1|].
    intros b Hb. apply Hold. by apply Hsep. }
  destruct (swap_spec s1 this tmp ct cells' Hthis1 Htmp1)
    as (s2 & Hswap & Hheap2 & Hthis2 & Htmp2 & Hobjs2).
  assert (Hwf2 : heap_wf s2). { intros b n. rewrite Hheap2. apply Hwf1. }
  destruct (destructor_spec fuel s2 tmp ct Hwf2 Htmp2 Hfuelt)
    as (s3 & Hdes & Hwf3 & Hobjs3 & Hgone & Hheap3).
  exists s3, cells'. split; [|split; [done|split; [|split; [done|split; [done|]]]]].
  - erewrite bind_Ok by exact Hrun. erewrite bind_Ok; [done|].
    by eapply finally_Ok.
  - eapply (is_list_frame s2); [done| |].
    + rewrite Hobjs3. by rewrite lookup_delete_ne.
    + intros b Hb. apply Hheap3. intros Hin. by apply (Hsep b).
  - split; [done|]. split.
    + intros b Hb1 Hb2. rewrite Hheap3, Hheap2 by done. by apply Hold.
    + intros o Ho. rewrite Hobjs3. destruct (decide (o = tmp)) as [->|Hot].
      * by rewrite lookup_delete_eq.
      * rewrite lookup_delete_ne, Hobjs2 by done. by apply Hobjs1.
Qed.

End Copying.

(** ** The properties of the container *)

Section Claims.
Context {T : Type} {elem : ElementType T} {build : BuildMode}.
Implicit Types (h : gmap addr (Node (T:=T))) (s : State (T:=T)).
Implicit Types (cells : list (addr * T)) (p q : NodePtr) (this : obj).

Lemma operator_assign_self fuel s (A : obj) :
  operator_assign fuel A A s = Ok A s.
Proof. unfold operator_assign. by rewrite bool_decide_eq_true_2. Qed.

(** [operator>=] has the body of [operator<=]. *)
Lemma operator_ge_is_operator_le fuel (lhs rhs : obj) :
  operator_ge fuel lhs rhs = operator_le fuel lhs rhs.
Proof. reflexivity. Qed.

(** C2, as the code has it: in a debug build the [assert] of [EraseAfter]
    looks at the stored size only.  On a list whose [size_] is 0 the call
    aborts at the assertion, before [pos] is dereferenced and before any
    node is freed; on a list whose [size_] is not 0 the assertion passes,
    whatever [pos] is. *)
Theorem C2_EraseAfter_asserts_nonempty s this l (pos : ConstIterator) :
  NDEBUG = false → objs s !! this = Some l →
  (size_ l = 0%N → EraseAfter this pos s = Abort) ∧
  (size_ l ≠ 0%N → EraseAfter this pos s ≠ Abort).
Proof.
  intros Hdebug Hobj. unfold EraseAfter.
  split.
  - intros Hz. unfold bind at 1, assert_. rewrite Hdebug.
    erewrite bind_Ok by (by apply IsEmpty_eq). by rewrite Hz.
  - intros Hnz. erewrite bind_Ok by (by eapply assert_not_empty).
    repeat (apply bind_not_Abort; [auto using get_next_not_Abort,
      delete_Node_not_Abort, set_next_not_Abort, decr_size_not_Abort|intros ? ?]).
    done.
Qed.

(** C3: when the construction of the new node throws inside
    [InsertAfter(pos, value)] (the copy constructor of the value throws, or
    the allocation fails), the exception leaves with the machine state it
    found: the size and the element sequence of the list are what they
    were, and no link has changed. *)
Theorem C3_InsertAfter_strong_guarantee s this cells i (pos : ConstIterator) v :
  heap_wf s → is_list s this cells → pos_at this cells i (node_ pos) →
  (Type_copy_throws v = true → InsertAfter this pos v s = Throw s) ∧
  (∀ s', InsertAfter this pos v s = Throw s' →
         s' = s ∧ is_list s' this cells ∧
         GetSize this s' = Ok (N.of_nat (length cells)) s' ∧
         ∀ fuel, length cells < fuel → to_list fuel this s' = Ok cells.*2 s').
Proof.
  intros Hwf Hlist Hpos.
  pose proof (InsertAfter_spec s this cells i pos v Hwf Hlist Hpos) as Hspec.
  split.
  - intros Hthrows. unfold can_allocate in Hspec.
    by rewrite Hthrows, andb_false_r in Hspec.
  - intros s' Hrun. destruct (can_allocate s v).
    + destruct Hspec as (s1 & Hok & _). congruence.
    + assert (s' = s) as -> by congruence.
      split; [done|]. split; [done|]. split; [by apply GetSize_spec|].
      intros fuel Hfuel. by apply to_list_spec.
Qed.

(** C4: a list constructed from a sequence [values] of initial values, by
    the initializer-list constructor or by copying a list that holds
    [values], is traversed from [begin()] to [end()] as exactly [values],
    in order, and [GetSize()] is the length of [values].  (The construction
    returns when no copy of an element throws and memory suffices.) *)
Theorem C4_construct_then_traverse fuel s values :
  heap_wf s → length values < fuel →
  fill_succeeds (heap_top (heap s)) values = true →
  (∃ this s', SingleLinkedList_init fuel values s = Ok this s' ∧
              to_list fuel this s' = Ok values s' ∧
              GetSize this s' = Ok (N.of_nat (length values)) s') ∧
  (∀ other cells, is_list s other cells → cells.*2 = values →
     ∃ this s', SingleLinkedList_copy fuel other s = Ok this s' ∧
                to_list fuel this s' = Ok values s' ∧
                GetSize this s' = Ok (N.of_nat (length values)) s').
Proof.
  intros Hwf Hfuel Hok. split.
  - destruct (SingleLinkedList_init_spec fuel s values Hwf Hfuel)
      as (s' & _ & _ & _ & Hres).
    rewrite Hok in Hres. destruct Hres as (Hrun & cells' & Hlist & Hvals & _).
    assert (Hlen : length cells' = length values).
    { by rewrite <-Hvals, length_fmap. }
    exists (fresh (dom (objs s))), s'. split; [done|]. split.
    + rewrite <-Hvals. apply to_list_spec; [done|lia].
    + rewrite <-Hlen. by apply GetSize_spec.
  - intros other cells Hother Hcells.
    assert (Hlenc : length cells = length values).
    { by rewrite <-Hcells, length_fmap. }
    destruct (SingleLinkedList_copy_spec fuel s other cells Hwf Hother)
      as (s' & _ & _ & _ & Hres); [lia|].
    rewrite Hcells, Hok in Hres.
    destruct Hres as (Hrun & cells' & Hlist & Hvals & _).
    assert (Hlen : length cells' = length values).
    { by rewrite <-Hvals, length_fmap. }
    exists (fresh (dom (objs s))), s'. split; [done|]. split.
    + rewrite <-Hvals. apply to_list_spec; [done|lia].
    + rewrite <-Hlen. by apply GetSize_spec.
Qed.

(** C5: in a list that satisfies the invariant, [GetSize()] is the number
    of real nodes reachable from the sentinel by next-links; and every
    operation, called within its precondition, returns (or throws) in a
    state in which the invariant holds again: [PushFront], [InsertAfter],
    [EraseAfter], [PopFront], [Clear], [swap] (for both lists), copy
    construction (for the new list and for its source) and copy
    assignment (for the target, and for the source when the two lists
    share no node).  The default and the initializer-list constructor
    establish it. *)
Theorem C5_size_invariant_preserved fuel s this other cells co v i (pos : ConstIterator) :
  heap_wf s → is_list s this cells → is_list s other co →
  length cells < fuel → length co < fuel →
  GetSize this s = Ok (N.of_nat (length cells)) s ∧
  (∃ s', (PushFront this v s = Ok () s' ∨ PushFront this v s = Throw s') ∧
         heap_wf s' ∧ size_invariant s' this) ∧
  (pos_at this cells i (node_ pos) →
   ∃ s', ((∃ it, InsertAfter this pos v s = Ok it s') ∨
          InsertAfter this pos v s = Throw s') ∧
         heap_wf s' ∧ size_invariant s' this) ∧
  (pos_at this cells i (node_ pos) → i < length cells →
   ∃ it s', EraseAfter this pos s = Ok it s' ∧
            heap_wf s' ∧ size_invariant s' this) ∧
  (cells ≠ [] →
   ∃ s', PopFront this s = Ok () s' ∧ heap_wf s' ∧ size_invariant s' this) ∧
  (∃ s', Clear fuel this s = Ok () s' ∧ heap_wf s' ∧ size_invariant s' this) ∧
  (∃ s', swap this other s = Ok () s' ∧ heap_wf s' ∧
         size_invariant s' this ∧ size_invariant s' other) ∧
  (∃ s', ((∃ new, SingleLinkedList_copy fuel other s = Ok new s' ∧
                  size_invariant s' new) ∨
          SingleLinkedList_copy fuel other s = Throw s') ∧
         heap_wf s' ∧ size_invariant s' other) ∧
  (∃ s', (operator_assign fuel this other s = Ok this s' ∨
          operator_assign fuel this other s = Throw s') ∧
         heap_wf s' ∧ size_invariant s' this ∧
         ((∀ a, a ∈ cells.*1 → a ∉ co.*1) → size_invariant s' other)) ∧
  (∃ new s', SingleLinkedList_default s = Ok new s' ∧
             heap_wf s' ∧ size_invariant s' new) ∧
  (∀ values, length values < fuel →
   ∃ s', ((∃ new, SingleLinkedList_init fuel values s = Ok new s' ∧
                  size_invariant s' new) ∨
          SingleLinkedList_init fuel values s = Throw s') ∧
         heap_wf s').
Proof.
  intros Hwf Hthis Hother Hfuel Hfuelo.
  split; [by apply GetSize_spec|].
  split; [|split; [|split; [|split; [|split; [|split; [|split; [|split; [|split]]]]]]]].
  - pose proof (PushFront_spec s this cells v Hwf Hthis) as Hspec.
    destruct (can_allocate s v).
    + destruct Hspec as (s' & Hrun & Hwf' & Hlist & _).
      exists s'. split; [by left|]. split; [done|]. by eexists.
    + exists s. split; [by right|]. split; [done|]. by eexists.
  - intros Hpos.
    pose proof (InsertAfter_spec s this cells i pos v Hwf Hthis Hpos) as Hspec.
    destruct (can_allocate s v).
    + destruct Hspec as (s' & Hrun & Hwf' & Hlist & _).
      exists s'. split; [left; by eexists|]. split; [done|]. by eexists.
    + exists s. split; [by right|]. split; [done|]. by eexists.
  - intros Hpos Hi. apply lookup_lt_is_Some in Hi as [c Hc].
    destruct (EraseAfter_spec s this cells i pos c Hwf Hthis Hpos Hc)
      as (s' & Hrun & Hwf' & Hlist & _).
    eexists _, s'. split; [done|]. split; [done|]. by eexists.
  - intros Hne. destruct cells as [|c rest]; [done|].
    destruct (PopFront_spec s this c rest Hwf Hthis) as (s' & Hrun & Hwf' & Hlist & _).
    exists s'. split; [done|]. split; [done|]. by eexists.
  - destruct (Clear_spec fuel s this cells Hwf Hthis Hfuel)
      as (s' & Hrun & Hwf' & Hlist & _).
    exists s'. split; [done|]. split; [done|]. by eexists.
  - destruct (swap_spec s this other cells co Hthis Hother)
      as (s' & Hrun & Hheap & Hl1 & Hl2 & _).
    exists s'. split; [done|]. split; [|split; by eexists].
    intros b n. rewrite Hheap. apply Hwf.
  - destruct (SingleLinkedList_copy_spec fuel s other co Hwf Hother Hfuelo)
      as (s' & Hwf' & Hbelow & Hobjs & Hres).
    assert (Hother' : is_list s' other co).
    { eapply (is_list_frame s); [done| |].
      - apply Hobjs. destruct Hother as (l & Hl & _). intros ->.
        by apply (fresh_object_ne s (fresh (dom (objs s)))).
      - intros b Hb. apply Hbelow. destruct Hother as (l & _ & Hchain & _).
        by eapply lseg_below_top. }
    exists s'. split; [|split; [done|by eexists]].
    destruct (fill_succeeds _ _).
    + destruct Hres as (Hrun & cells' & Hlist & _). left.
      eexists. split; [done|]. by eexists.
    + destruct Hres as (Hrun & _). by right.
  - destruct (decide (this = other)) as [<-|Hne].
    + exists s. split; [left; apply operator_assign_self|]. split; [done|].
      split; by eexists.
    + destruct (operator_assign_spec fuel s this other cells co
                  Hwf Hthis Hother Hne Hfuel Hfuelo) as (s' & Hwf' & Hres).
      exists s'. destruct (fill_succeeds _ _).
      * destruct Hres as (Hrun & (cells' & Hlist & _) & Hsrc).
        split; [by left|]. split; [done|]. split; [by eexists|].
        intros Hdisj. exists co. by apply Hsrc.
      * destruct Hres as (Hrun & Hlist & Hsrc).
        split; [by right|]. split; [done|]. split; by eexists.
  - eexists _, _. split; [reflexivity|]. split; [done|].
    exists [], (mkList (mkNode Type_default nullptr) 0%N). simpl.
    by rewrite lookup_insert_eq.
  - intros values Hlen.
    destruct (SingleLinkedList_init_spec fuel s values Hwf Hlen)
      as (s' & Hwf' & _ & _ & Hres).
    exists s'. split; [|done]. destruct (fill_succeeds _ _).
    + destruct Hres as (Hrun & cells' & Hlist & _). left.
      eexists. split; [done|]. by eexists.
    + destruct Hres as (Hrun & _). by right.
Qed.

(** C6: [A == B] returns [true] exactly when the two lists have the same
    length and equal elements at every position. *)
Theorem C6_operator_eq fuel s (A B : obj) ca cb :
  is_list s A ca → is_list s B cb → length ca < fuel →
  ∃ b, operator_eq fuel A B s = Ok b s ∧
       (b = true ↔ spec_equal ca.*2 cb.*2).
Proof.
  intros (la & Ha & Hca & _) (lb & Hb & Hcb & _) Hfuel.
  exists (equal_values ca.*2 cb.*2). split; [|apply equal_values_spec].
  unfold operator_eq. step_with begin_eq. unfold end_ at 1.
  erewrite (bind_Ok (ret _)) by reflexivity.
  step_with begin_eq. unfold end_.
  erewrite (bind_Ok (ret _)) by reflexivity.
  by apply std_equal_spec.
Qed.

(** C8: [InsertAfter(before_begin(), v)] and [PushFront(v)] on equal lists
    leave lists with the same element sequence, [v] in front of the old
    elements, and the same size; the handle that [InsertAfter] returns is
    [begin()] of the new list, a node that was not there before and that
    holds [v]. *)
Theorem C8_InsertAfter_before_begin_is_PushFront s1 s2 (A B : obj) ca cb v :
  heap_wf s1 → heap_wf s2 → is_list s1 A ca → is_list s2 B cb →
  ca.*2 = cb.*2 → can_allocate s1 v = true → can_allocate s2 v = true →
  ∃ it s1' s2' ca' cb',
    (bb <- before_begin Const A ;; InsertAfter A bb v) s1 = Ok it s1' ∧
    PushFront B v s2 = Ok () s2' ∧
    is_list s1' A ca' ∧ is_list s2' B cb' ∧
    ca'.*2 = v :: ca.*2 ∧ cb'.*2 = v :: cb.*2 ∧
    GetSize A s1' = Ok (N.of_nat (S (length ca))) s1' ∧
    GetSize B s2' = Ok (N.of_nat (S (length ca))) s2' ∧
    begin Mutable A s1' = Ok it s1' ∧
    iterator_deref it s1' = Ok v s1' ∧
    (∀ a, node_ it = heap_node a → heap s1 !! a = None).
Proof.
  intros Hwf1 Hwf2 HA HB Hvals Hcan1 Hcan2.
  pose proof (InsertAfter_spec s1 A ca 0 (mkIterator (head_of A)) v Hwf1 HA eq_refl) as Hins.
  rewrite Hcan1 in Hins.
  destruct Hins as (s1' & Hrun1 & Hwf1' & HA' & _ & Hnext & _).
  pose proof (PushFront_spec s2 B cb v Hwf2 HB) as Hpush. rewrite Hcan2 in Hpush.
  destruct Hpush as (s2' & Hrun2 & _ & HB' & _).
  rewrite take_0, drop_0 in HA'. simpl in HA'.
  assert (Hlen : length cb = length ca).
  { by rewrite <-(length_fmap snd ca), Hvals, length_fmap. }
  exists (mkIterator (heap_node (heap_top (heap s1)))), s1', s2',
    ((heap_top (heap s1), v) :: ca), ((heap_top (heap s2), v) :: cb).
  split; [done|]. split; [done|]. split; [done|]. split; [done|].
  split; [done|]. split; [done|].
  split; [by rewrite (GetSize_spec _ _ _ HA')|].
  split; [rewrite (GetSize_spec _ _ _ HB'); simpl; by rewrite Hlen|].
  destruct HA' as (l & Hl & Hchain & _). simpl in Hchain.
  destruct Hchain as [Hhead (r & Hnode & _)].
  split; [|split].
  - erewrite begin_eq by done. by rewrite Hhead.
  - by erewrite iterator_deref_heap by exact Hnode.
  - simpl. intros a [= <-]. apply heap_top_fresh.
Qed.

(** The two calls of C8 are the same computation on the same list, up to
    the returned handle. *)
Lemma PushFront_is_InsertAfter_before_begin s this v :
  PushFront this v s =
  ((bb <- before_begin Const this ;; InsertAfter this bb v) ;;; ret ()) s.
Proof.
  unfold PushFront, InsertAfter, before_begin, incr_size, get_next, bind, ret,
    assert_, load, new_Node, set_next, get_size, set_size.
  simpl. destruct NDEBUG; simpl.
  all: destruct (objs s !! this) as [o|] eqn:Ho; simpl; [|done].
  all: destruct (operator_new (heap s)); simpl; [|done].
  all: destruct (Type_copy_throws v); simpl; [done|].
  all: rewrite ?Ho; simpl.
  all: repeat (rewrite lookup_insert_eq; simpl).
  all: done.
Qed.

(** C9: the self-assignment [A = A] returns at once; the machine state,
    and with it the element sequence and the size of [A], is untouched. *)
Theorem C9_self_assignment fuel s (A : obj) :
  operator_assign fuel A A s = Ok A s.
Proof. apply operator_assign_self. Qed.

(** C10: a default-constructed iterator of either kind is equal to
    [end()] and [cend()] of every list, and different from [begin()] of
    every list that is not empty. *)
Theorem C10_default_iterator (c1 c2 : ValueType) s this :
  (∃ e, end_ c2 this s = Ok e s ∧
        iterator_eq (BasicIterator_default c1) e = true ∧
        iterator_ne (BasicIterator_default c1) e = false) ∧
  (size_invariant s this → IsEmpty this s = Ok false s →
   ∃ b, begin c2 this s = Ok b s ∧
        iterator_eq (BasicIterator_default c1) b = false ∧
        iterator_ne (BasicIterator_default c1) b = true).
Proof.
  split.
  - by exists (mkIterator nullptr).
  - intros (cells & l & Hobj & Hchain & Hsize) Hne.
    erewrite IsEmpty_eq in Hne by done. injection Hne as Hne.
    apply N.eqb_neq in Hne.
    destruct cells as [|[a x] rest]; [by rewrite Hsize in Hne|].
    simpl in Hchain. destruct Hchain as [Hhead _].
    exists (mkIterator (heap_node a)). split; [|done].
    erewrite begin_eq by done. by rewrite Hhead.
Qed.

End Claims.

(** ** Further behaviour of the member functions *)

Section Behaviour.
Context {T : Type} {elem : ElementType T} {build : BuildMode}.
Implicit Types (h : gmap addr (Node (T:=T))) (s : State (T:=T)).
Implicit Types (cells : list (addr * T)) (p q : NodePtr) (this : obj).

(** A list that shares no node with the touched cells, and is not the
    object operated on, is as it was. *)
Lemma is_list_unchanged s s' this other touched co :
  unchanged_except this touched s s' → other ≠ this →
  (∀ b, b ∈ touched → b ∉ co.*1) →
  is_list s other co → is_list s' other co.
Proof.
  intros [Hobjs Hheap] Hne Hdisj Hother.
  eapply (is_list_frame s); [done|by apply Hobjs|].
  intros b Hb. apply Hheap. intros Hin. by apply (Hdisj b).
Qed.

(** X1: [PushFront(v)] puts [v] in front: traversal then gives [v] followed
    by the old elements, the size is one more, every old node is where it
    was, and the other lists are untouched.  It throws exactly when the
    node cannot be created, and then nothing has changed. *)
Theorem PushFront_prepends fuel s this cells v :
  heap_wf s → is_list s this cells → S (length cells) < fuel →
  (can_allocate s v = false → PushFront this v s = Throw s) ∧
  (can_allocate s v = true →
   ∃ s' a, PushFront this v s = Ok () s' ∧
           heap s !! a = None ∧
           is_list s' this ((a, v) :: cells) ∧
           to_list fuel this s' = Ok (v :: cells.*2) s' ∧
           GetSize this s' = Ok (N.of_nat (S (length cells))) s' ∧
           ∀ other co, other ≠ this → is_list s other co → is_list s' other co).
Proof.
  intros Hwf Hlist Hfuel.
  pose proof (PushFront_spec s this cells v Hwf Hlist) as Hspec.
  split; intros Hcan; rewrite Hcan in Hspec; [done|].
  destruct Hspec as (s' & Hrun & Hwf' & Hlist' & _ & Hframe).
  exists s', (heap_top (heap s)). split; [done|].
  split; [apply heap_top_fresh|]. split; [done|].
  split; [by rewrite (to_list_spec fuel s' this _ Hlist')|].
  split; [by rewrite (GetSize_spec s' this _ Hlist')|].
  intros other co Hne Hother. eapply is_list_unchanged; [exact Hframe|done| |done].
  intros b Hb Hin. apply list_elem_of_singleton in Hb. subst b.
  destruct Hother as (l & _ & Hchain & _).
  destruct (lseg_allocated _ _ _ _ _ Hchain Hin) as [n Hn].
  by rewrite heap_top_fresh in Hn.
Qed.

(** X2: [PopFront()] on a list that is not empty removes the first
    element and frees its node: traversal gives the remaining elements,
    the size is one less, the remaining nodes are where they were, and the
    other lists are untouched. *)
Theorem PopFront_removes_first fuel s this c cells :
  heap_wf s → is_list s this (c :: cells) → length cells < fuel →
  ∃ s', PopFront this s = Ok () s' ∧
        heap s' !! c.1 = None ∧
        is_list s' this cells ∧
        to_list fuel this s' = Ok cells.*2 s' ∧
        GetSize this s' = Ok (N.of_nat (length cells)) s' ∧
        ∀ other co, other ≠ this → (c.1 ∉ co.*1) →
                    is_list s other co → is_list s' other co.
Proof.
  intros Hwf Hlist Hfuel.
  destruct (PopFront_spec s this c cells Hwf Hlist)
    as (s' & Hrun & Hwf' & Hlist' & Hfree & _ & Hframe).
  exists s'. split; [done|]. split; [done|]. split; [done|].
  split; [by rewrite (to_list_spec fuel s' this _ Hlist')|].
  split; [by rewrite (GetSize_spec s' this _ Hlist')|].
  intros other co Hne Hnot Hother.
  eapply is_list_unchanged; [exact Hframe|done| |done].
  intros b Hb. apply list_elem_of_singleton in Hb. by subst b.
Qed.

(** X3: [PushFront(v)] followed by [PopFront()] is a round trip: the
    machine state, heap and list objects, is exactly what it was. *)
Theorem PushFront_PopFront_roundtrip s this cells v :
  heap_wf s → is_list s this cells → can_allocate s v = true →
  (PushFront this v ;;; PopFront this) s = Ok () s.
Proof.
  intros Hwf Hlist Hcan.
  pose proof (PushFront_spec s this cells v Hwf Hlist) as Hspec.
  rewrite Hcan in Hspec. destruct Hspec as (s1 & Hrun1 & Hwf1 & Hlist1 & _).
  destruct Hlist1 as (l1 & _ & Hchain1 & _).
  pose proof (lseg_length_bound _ _ _ Hwf1 Hchain1) as Hbound. simpl in Hbound.
  clear s1 Hrun1 Hwf1 l1 Hchain1.
  destruct Hlist as (l & Hobj & Hchain & Hsize).
  pose proof (heap_top_fresh (heap s)) as Hfresh.
  set (a := heap_top (heap s)) in *.
  assert (Hsz : ((size_ l + 1) mod size_t_modulus)%N = N.of_nat (S (length cells))).
  { rewrite Hsize. apply size_incr_no_wrap. unfold size_t_modulus, addr_limit in *. lia. }
  assert (Hpush : PushFront this v s =
    Ok () (mkState (<[a := mkNode v (next_node (head_ l))]> (heap s))
             (<[this := mkList (mkNode (value (head_ l)) (heap_node a))
                          (N.of_nat (S (length cells)))]> (objs s)))).
  { unfold PushFront. step_with get_next_head.
    erewrite bind_Ok; [|by rewrite new_Node_eq, Hcan].
    step_with set_next_head. erewrite incr_size_eq by (simpl; apply lookup_insert_eq).
    simpl. by rewrite insert_insert_eq, Hsz. }
  erewrite bind_Ok by exact Hpush.
  unfold PopFront.
  erewrite bind_Ok; cycle 1.
  { eapply assert_not_empty; [simpl; apply lookup_insert_eq|]. simpl. lia. }
  step_with get_next_head. step_with get_next_heap.
  step_with set_next_head. step_with decr_size_eq. simpl.
  rewrite lookup_insert_eq.
  rewrite delete_insert_id by done. rewrite !insert_insert_eq.
  rewrite size_decr_no_wrap by (unfold size_t_modulus, addr_limit in *; lia).
  rewrite <-Hsize. destruct s as [hp ob]. simpl in *. do 2 f_equal.
  apply insert_id. rewrite Hobj. by destruct l as [[d nx] n].
Qed.

(** Every cell of a chain is in the heap, linked to the next one. *)
Lemma lseg_lookup h p cells j c :
  lseg h p nullptr cells → cells !! j = Some c →
  h !! c.1 = Some (mkNode c.2 (node_ptr cells (S j))).
Proof.
  revert p j. induction cells as [|[a x] rest IH]; intros p j Hchain Hj; [done|].
  simpl in Hchain. destruct Hchain as [-> (r & Ha & Hrest)].
  destruct j as [|j]; simpl in Hj.
  - injection Hj as <-. simpl. rewrite Ha. f_equal. f_equal.
    by apply lseg_head_ptr in Hrest.
  - by apply (IH r j).
Qed.

(** X4: [InsertAfter(pos, v)] at the position number [i] (0 is
    [before_begin()]) puts [v] right after it: traversal gives the old
    elements with [v] inserted at index [i], the size is one more, the
    returned iterator dereferences to [v] and is what [++pos] reaches,
    and every old node is where it was. *)
Theorem InsertAfter_inserts fuel s this cells i (pos : ConstIterator) v :
  heap_wf s → is_list s this cells → pos_at this cells i (node_ pos) →
  can_allocate s v = true → S (length cells) < fuel →
  ∃ it s' a,
    InsertAfter this pos v s = Ok it s' ∧
    node_ it = heap_node a ∧ heap s !! a = None ∧
    is_list s' this (take i cells ++ (a, v) :: drop i cells) ∧
    to_list fuel this s' = Ok (take i cells.*2 ++ v :: drop i cells.*2) s' ∧
    GetSize this s' = Ok (N.of_nat (S (length cells))) s' ∧
    iterator_deref it s' = Ok v s' ∧
    iterator_incr pos s' = Ok (mkIterator (node_ it)) s'.
Proof.
  intros Hwf Hlist Hpos Hcan Hfuel.
  pose proof (InsertAfter_spec s this cells i pos v Hwf Hlist Hpos) as Hspec.
  rewrite Hcan in Hspec.
  destruct Hspec as (s' & Hrun & Hwf' & Hlist' & _ & Hnext & _).
  assert (Hi : i ≤ length cells).
  { destruct i as [|j]; simpl in Hpos; [lia|].
    destruct Hpos as (c & Hc & _). apply lookup_lt_Some in Hc. lia. }
  assert (Hlen : length (take i cells ++ (heap_top (heap s), v) :: drop i cells)
                 = S (length cells)).
  { rewrite length_app. simpl. rewrite length_take, length_drop. lia. }
  exists (mkIterator (heap_node (heap_top (heap s)))), s', (heap_top (heap s)).
  split; [done|]. split; [done|]. split; [apply heap_top_fresh|]. split; [done|].
  split; [|split; [|split]].
  - rewrite (to_list_spec fuel s' this _ Hlist') by lia.
    by rewrite fmap_app, fmap_cons, fmap_take, fmap_drop.
  - by rewrite (GetSize_spec s' this _ Hlist'), Hlen.
  - destruct Hlist' as (l' & _ & Hchain' & _).
    assert (Hcell : (take i cells ++ (heap_top (heap s), v) :: drop i cells) !! i
                    = Some (heap_top (heap s), v)).
    { rewrite lookup_app_r by (rewrite length_take; lia).
      rewrite length_take. by replace (i - i `min` length cells) with 0 by lia. }
    pose proof (lseg_lookup _ _ _ _ _ Hchain' Hcell) as Hnode. simpl in Hnode.
    by erewrite iterator_deref_heap by exact Hnode.
  - unfold iterator_incr.
    rewrite bool_decide_eq_false_2 by (by eapply pos_at_not_null).
    simpl. step_with assert_true. by erewrite bind_Ok by exact Hnext.
Qed.

(** X5: [EraseAfter(pos)] at the position number [i], when an element
    follows it, removes that element and frees its node: traversal gives
    the old elements without the one at index [i], the size is one less,
    and the returned iterator is the position of the element that
    followed the erased one, or [end()] when there was none. *)
Theorem EraseAfter_removes fuel s this cells i (pos : ConstIterator) c :
  heap_wf s → is_list s this cells → pos_at this cells i (node_ pos) →
  cells !! i = Some c → length cells ≤ fuel →
  ∃ it s',
    EraseAfter this pos s = Ok it s' ∧
    heap s' !! c.1 = None ∧
    is_list s' this (delete i cells) ∧
    to_list fuel this s' = Ok (delete i cells.*2) s' ∧
    GetSize this s' = Ok (N.of_nat (length cells - 1)) s' ∧
    (cells !! S i = None → iterator_eq it (mkIterator (c:=Mutable) nullptr) = true) ∧
    (∀ c', cells !! S i = Some c' →
           node_ it = heap_node c'.1 ∧ iterator_deref it s' = Ok c'.2 s').
Proof.
  intros Hwf Hlist Hpos Hc Hfuel.
  destruct (EraseAfter_spec s this cells i pos c Hwf Hlist Hpos Hc)
    as (s' & Hrun & Hwf' & Hlist' & Hfree & _).
  assert (Hlen : length (delete i cells) = length cells - 1).
  { apply length_delete. eauto. }
  pose proof (lookup_lt_Some _ _ _ Hc) as Hi.
  exists (mkIterator (node_ptr cells (S i))), s'.
  split; [done|]. split; [done|]. split; [done|]. split; [|split; [|split]].
  - rewrite (to_list_spec fuel s' this _ Hlist') by lia.
    by rewrite list_fmap_delete.
  - by rewrite (GetSize_spec s' this _ Hlist'), Hlen.
  - intros Hnone. unfold node_ptr. by rewrite Hnone.
  - intros c' Hc'. unfold node_ptr. rewrite Hc'. split; [done|].
    destruct Hlist' as (l' & _ & Hchain' & _).
    assert (Hcell : delete i cells !! i = Some c').
    { by rewrite list_lookup_delete_ge by lia. }
    pose proof (lseg_lookup _ _ _ _ _ Hchain' Hcell) as Hnode.
    by erewrite iterator_deref_heap by exact Hnode.
Qed.

(** X6: [InsertAfter(pos, v)] followed by [EraseAfter(pos)] is a round
    trip: the list has the same nodes with the same values in the same
    order as before, the node of [v] is freed again, and the returned
    iterator is the old successor of [pos]. *)
Theorem InsertAfter_EraseAfter_roundtrip s this cells i (pos : ConstIterator) v :
  heap_wf s → is_list s this cells → pos_at this cells i (node_ pos) →
  can_allocate s v = true →
  ∃ s', (InsertAfter this pos v ;;; EraseAfter this pos) s
        = Ok (mkIterator (node_ptr cells i)) s' ∧
        heap_wf s' ∧ is_list s' this cells ∧
        heap s' !! heap_top (heap s) = None.
Proof.
  intros Hwf Hlist Hpos Hcan.
  pose proof (InsertAfter_spec s this cells i pos v Hwf Hlist Hpos) as Hspec.
  rewrite Hcan in Hspec.
  destruct Hspec as (s1 & Hrun1 & Hwf1 & Hlist1 & _).
  set (a := heap_top (heap s)) in *.
  assert (Hi : i ≤ length cells).
  { destruct i as [|j]; simpl in Hpos; [lia|].
    destruct Hpos as (c & Hc & _). apply lookup_lt_Some in Hc. lia. }
  assert (Htake : length (take i cells) = i) by (rewrite length_take; lia).
  assert (Hpos1 : pos_at this (take i cells ++ (a, v) :: drop i cells) i (node_ pos)).
  { destruct i as [|j]; simpl in Hpos |- *; [done|].
    destruct Hpos as (c & Hc & Hp). exists c. split; [|done].
    rewrite lookup_app_l by lia. by rewrite lookup_take_lt by lia. }
  assert (Hcell : (take i cells ++ (a, v) :: drop i cells) !! i = Some (a, v)).
  { rewrite lookup_app_r by lia. by rewrite Htake, Nat.sub_diag. }
  destruct (EraseAfter_spec s1 this _ i pos (a, v) Hwf1 Hlist1 Hpos1 Hcell)
    as (s2 & Hrun2 & Hwf2 & Hlist2 & Hfree & _).
  assert (Hdel : delete i (take i cells ++ (a, v) :: drop i cells) = cells).
  { rewrite <-Htake at 1. by rewrite delete_middle, take_drop. }
  rewrite Hdel in Hlist2.
  assert (Hret : node_ptr (take i cells ++ (a, v) :: drop i cells) (S i)
                 = node_ptr cells i).
  { unfold node_ptr. rewrite lookup_app_r by lia. rewrite Htake.
    replace (S i - i) with 1 by lia. simpl. by rewrite lookup_drop, Nat.add_0_r. }
  exists s2. split; [|done].
  erewrite bind_Ok by exact Hrun1. by rewrite Hrun2, Hret.
Qed.

(** X7: [Clear()] empties the list and frees every node: afterwards
    [IsEmpty()] is [true], [GetSize()] is 0, [begin()] equals [end()],
    none of the old nodes is allocated, and a list that shared no node
    with this one is untouched. *)
Theorem Clear_empties fuel s this cells :
  heap_wf s → is_list s this cells → length cells < fuel →
  ∃ s', Clear fuel this s = Ok () s' ∧
        heap_wf s' ∧
        IsEmpty this s' = Ok true s' ∧
        GetSize this s' = Ok 0%N s' ∧
        begin Mutable this s' = Ok (mkIterator nullptr) s' ∧
        (∀ b, b ∈ cells.*1 → heap s' !! b = None) ∧
        ∀ other co, other ≠ this → (∀ b, b ∈ cells.*1 → b ∉ co.*1) →
                    is_list s other co → is_list s' other co.
Proof.
  intros Hwf Hlist Hfuel.
  destruct (Clear_spec fuel s this cells Hwf Hlist Hfuel)
    as (s' & Hrun & Hwf' & Hlist' & Hfree & Hframe).
  exists s'. split; [done|]. split; [done|].
  pose proof (GetSize_spec s' this [] Hlist') as Hsz.
  destruct Hlist' as (l' & Hobj' & Hchain' & Hsize').
  split; [|split; [done|split; [|split; [done|]]]].
  - erewrite IsEmpty_eq by done. by rewrite Hsize'.
  - erewrite begin_eq by done. simpl in Hchain'. by rewrite Hchain'.
  - intros other co Hne Hdisj Hother. by eapply is_list_unchanged.
Qed.

(** X8: [swap] (the member and the free function) exchanges the element
    sequences and the sizes of two lists without touching a node: the
    heap is the same, so every iterator still points to its element, now
    in the other list.  It always returns.  Swapping twice gives each
    list its own nodes back. *)
Theorem swap_exchanges s (A B : obj) ca cb :
  is_list s A ca → is_list s B cb →
  (∃ s', swap_lists A B s = Ok () s' ∧ heap s' = heap s ∧
         is_list s' A cb ∧ is_list s' B ca ∧
         (∀ o, o ≠ A → o ≠ B → objs s' !! o = objs s !! o)) ∧
  (∃ s'', (swap A B ;;; swap A B) s = Ok () s'' ∧ heap s'' = heap s ∧
          is_list s'' A ca ∧ is_list s'' B cb ∧
          (∀ o, o ≠ A → o ≠ B → objs s'' !! o = objs s !! o)).
Proof.
  intros HA HB.
  destruct (swap_spec s A B ca cb HA HB) as (s1 & Hrun1 & Hheap1 & HA1 & HB1 & Hobjs1).
  split; [by exists s1|].
  destruct (swap_spec s1 A B cb ca HA1 HB1) as (s2 & Hrun2 & Hheap2 & HA2 & HB2 & Hobjs2).
  exists s2. split; [by erewrite bind_Ok by exact Hrun1|].
  split; [congruence|]. split; [done|]. split; [done|].
  intros o HoA HoB. rewrite Hobjs2 by done. by apply Hobjs1.
Qed.

(** X9: the copy constructor makes a deep copy: a new list object with
    the elements of the source in the same order and the same size, in
    nodes that were free before, one per element; the source and every
    other node and list are untouched. *)
Theorem copy_constructor_deep_copy fuel s (A : obj) ca :
  heap_wf s → is_list s A ca → length ca < fuel →
  fill_succeeds (heap_top (heap s)) ca.*2 = true →
  ∃ B s' cb,
    SingleLinkedList_copy fuel A s = Ok B s' ∧
    objs s !! B = None ∧ heap_wf s' ∧
    is_list s' A ca ∧ is_list s' B cb ∧ cb.*2 = ca.*2 ∧
    to_list fuel B s' = Ok ca.*2 s' ∧
    GetSize B s' = Ok (N.of_nat (length ca)) s' ∧
    (∀ b, b ∈ cb.*1 → heap s !! b = None ∧ b ∉ ca.*1) ∧
    (∀ b, b ∉ cb.*1 → heap s' !! b = heap s !! b) ∧
    (∀ o, o ≠ B → objs s' !! o = objs s !! o).
Proof.
  intros Hwf HA Hfuel Hok.
  pose proof (SingleLinkedList_copy_exact fuel s A ca Hwf HA Hfuel) as Hcopy.
  rewrite Hok in Hcopy.
  destruct Hcopy as (s' & cb & Hrun & Hwf' & HB & Hvals & Hnew & Hold & Hobjs).
  assert (Hlen : length cb = length ca).
  { by rewrite <-(length_fmap snd cb), Hvals, length_fmap. }
  assert (Hsep : ∀ b, b ∈ cb.*1 → b ∉ ca.*1).
  { intros b Hb Hin. apply Hnew in Hb.
    destruct (is_list_allocated _ _ _ _ HA Hin) as [n Hn]. congruence. }
  assert (HneA : A ≠ fresh (dom (objs s))).
  { destruct HA as (l & Hl & _). intros Heq.
    by apply (fresh_object_ne s A); [eauto|]. }
  exists (fresh (dom (objs s))), s', cb.
  split; [done|]. split; [apply fresh_object_None|]. split; [done|].
  split; [|split; [done|split; [done|split; [|split; [|split; [|done]]]]]].
  - eapply (is_list_frame s); [done|by apply Hobjs|].
    intros b Hb. apply Hold. intros Hin. by apply (Hsep b).
  - rewrite (to_list_spec fuel s' _ cb HB) by lia. by rewrite Hvals.
  - by rewrite (GetSize_spec s' _ cb HB), Hlen.
  - intros b Hb. split; [by apply Hnew|by apply Hsep].
Qed.

(** X10: a copy is independent of its source.  After the copy
    construction of [B] from [A], clearing [B] or pushing onto [B] leaves
    the elements of [A] as they were, and destroying [A] leaves the
    elements of [B] as they were. *)
Theorem copy_is_independent fuel s (A : obj) ca v :
  heap_wf s → is_list s A ca → S (length ca) < fuel →
  fill_succeeds (heap_top (heap s)) ca.*2 = true →
  ∃ B s',
    SingleLinkedList_copy fuel A s = Ok B s' ∧
    (∃ s2, Clear fuel B s' = Ok () s2 ∧
           to_list fuel A s2 = Ok ca.*2 s2 ∧ to_list fuel B s2 = Ok [] s2) ∧
    (∃ s2, (PushFront B v s' = Ok () s2 ∨ PushFront B v s' = Throw s2) ∧
           to_list fuel A s2 = Ok ca.*2 s2) ∧
    (∃ s2, destructor fuel A s' = Ok () s2 ∧ objs s2 !! A = None ∧
           to_list fuel B s2 = Ok ca.*2 s2).
Proof.
  intros Hwf HA Hfuel Hok.
  pose proof (SingleLinkedList_copy_exact fuel s A ca Hwf HA ltac:(lia)) as Hcopy.
  rewrite Hok in Hcopy.
  destruct Hcopy as (s' & cb & Hrun & Hwf' & HB' & Hvals & Hfree & Hold & Hobjs).
  set (B := fresh (dom (objs s))) in *.
  assert (Hlen : length cb = length ca).
  { by rewrite <-(length_fmap snd cb), Hvals, length_fmap. }
  assert (Hnew : ∀ b, b ∈ cb.*1 → b ∉ ca.*1).
  { intros b Hb Hin. apply Hfree in Hb.
    destruct (is_list_allocated _ _ _ _ HA Hin) as [n Hn]. congruence. }
  assert (HAB : A ≠ B).
  { destruct HA as (l & Hl & _). intros Heq.
    by apply (fresh_object_ne s A); [eauto|]. }
  assert (HA' : is_list s' A ca).
  { eapply (is_list_frame s); [done|by apply Hobjs|].
    intros b Hb. apply Hold. intros Hin. by apply (Hnew b). }
  exists B, s'. split; [done|]. split; [|split].
  - destruct (Clear_spec fuel s' B cb Hwf' HB' ltac:(lia))
      as (s2 & Hclear & _ & HB2 & _ & Hframe).
    exists s2. split; [done|]. split.
    + apply to_list_spec; [|lia].
      by eapply is_list_unchanged; [exact Hframe|done|exact Hnew|].
    + by rewrite (to_list_spec fuel s2 B [] HB2) by (simpl; lia).
  - pose proof (PushFront_spec s' B cb v Hwf' HB') as Hpush.
    destruct (can_allocate s' v).
    + destruct Hpush as (s2 & Hp & _ & _ & _ & Hframe).
      exists s2. split; [by left|]. apply to_list_spec; [|lia].
      eapply is_list_unchanged; [exact Hframe|done| |done].
      intros b Hb Hin. apply list_elem_of_singleton in Hb. subst b.
      destruct (is_list_allocated _ _ _ _ HA' Hin) as [n Hn].
      by rewrite heap_top_fresh in Hn.
    + exists s'. split; [by right|]. apply to_list_spec; [done|lia].
  - destruct (destructor_spec fuel s' A ca Hwf' HA' ltac:(lia))
      as (s2 & Hdes & _ & Hobjs2 & _ & Hheap2).
    exists s2. split; [done|]. split; [rewrite Hobjs2; apply lookup_delete_eq|].
    rewrite <-Hvals. apply to_list_spec; [|lia].
    eapply (is_list_frame s'); [done| |].
    + rewrite Hobjs2. by rewrite lookup_delete_ne.
    + intros b Hb. apply Hheap2. by apply Hnew.
Qed.

(** X11: strong exception guarantee of the two filling constructors.
    When a copy of an element throws or the memory runs out in the middle
    of the construction, the exception leaves with the machine state that
    the call found: every node created so far is freed again, the new
    object does not exist, and the source is untouched. *)
Theorem constructors_throw_restore fuel s :
  heap_wf s →
  (∀ values, length values < fuel →
     fill_succeeds (heap_top (heap s)) values = false →
     SingleLinkedList_init fuel values s = Throw s) ∧
  (∀ other cells, is_list s other cells → length cells < fuel →
     fill_succeeds (heap_top (heap s)) cells.*2 = false →
     SingleLinkedList_copy fuel other s = Throw s).
Proof.
  intros Hwf. split.
  - intros values Hfuel Hfail.
    pose proof (SingleLinkedList_init_exact fuel s values Hwf Hfuel) as H.
    by rewrite Hfail in H.
  - intros other cells Hother Hfuel Hfail.
    pose proof (SingleLinkedList_copy_exact fuel s other cells Hwf Hother Hfuel) as H.
    by rewrite Hfail in H.
Qed.

(** X12: copy assignment [this = rhs] between two different lists: [this]
    ends with the elements and the size of [rhs], in new nodes; every node
    that [this] held before is freed; [rhs], when it shared no node with
    [this], and all other lists are untouched. *)
Theorem copy_assignment_copies fuel s this rhs ct cr :
  heap_wf s → is_list s this ct → is_list s rhs cr → this ≠ rhs →
  length ct < fuel → length cr < fuel →
  fill_succeeds (heap_top (heap s)) cr.*2 = true →
  ∃ s', operator_assign fuel this rhs s = Ok this s' ∧
        heap_wf s' ∧
        to_list fuel this s' = Ok cr.*2 s' ∧
        GetSize this s' = Ok (N.of_nat (length cr)) s' ∧
        (∀ b, b ∈ ct.*1 → heap s' !! b = None) ∧
        ((∀ b, b ∈ ct.*1 → b ∉ cr.*1) → is_list s' rhs cr) ∧
        (∀ o, o ≠ this → objs s' !! o = objs s !! o).
Proof.
  intros Hwf Hthis Hrhs Hne Hfuelt Hfuelr Hok.
  pose proof (operator_assign_exact fuel s this rhs ct cr
                Hwf Hthis Hrhs Hne Hfuelt Hfuelr) as Hspec.
  rewrite Hok in Hspec.
  destruct Hspec as (s' & cells' & Hrun & Hwf' & Hlist & Hvals & Hnew & Hgone & Hold & Hobjs).
  assert (Hlen : length cells' = length cr).
  { by rewrite <-(length_fmap snd cells'), Hvals, length_fmap. }
  exists s'. split; [done|]. split; [done|].
  split; [|split; [|split; [done|split; [|done]]]].
  - rewrite (to_list_spec fuel s' this cells' Hlist) by lia. by rewrite Hvals.
  - by rewrite (GetSize_spec s' this cells' Hlist), Hlen.
  - intros Hdisj. eapply (is_list_frame s); [done|by apply Hobjs|].
    intros b Hb. apply Hold.
    + intros Hin. by apply (Hdisj b).
    + intros Hin. apply Hnew in Hin.
      destruct (is_list_allocated _ _ _ _ Hrhs Hb) as [n Hn]. congruence.
Qed.

(** X13: strong exception guarantee of copy assignment.  When copying
    [rhs] throws, [this = rhs] leaves with the machine state that it
    found: [this] keeps its nodes, its elements and its size, and nothing
    is leaked. *)
Theorem copy_assignment_strong_guarantee fuel s this rhs ct cr :
  heap_wf s → is_list s this ct → is_list s rhs cr → this ≠ rhs →
  length ct < fuel → length cr < fuel →
  fill_succeeds (heap_top (heap s)) cr.*2 = false →
  operator_assign fuel this rhs s = Throw s.
Proof.
  intros Hwf Hthis Hrhs Hne Hfuelt Hfuelr Hfail.
  pose proof (operator_assign_exact fuel s this rhs ct cr
                Hwf Hthis Hrhs Hne Hfuelt Hfuelr) as Hspec.
  by rewrite Hfail in Hspec.
Qed.

(** X14: for a list that satisfies the invariant, [begin()] equals
    [end()] exactly when [IsEmpty()] is [true]. *)
Theorem begin_is_end_iff_empty (c : ValueType) s this :
  size_invariant s this →
  ∃ b e em, begin c this s = Ok b s ∧ end_ c this s = Ok e s ∧
            IsEmpty this s = Ok em s ∧
            iterator_eq b e = em ∧ iterator_ne b e = negb em.
Proof.
  intros (cells & l & Hobj & Hchain & Hsize).
  exists (mkIterator (next_node (head_ l))), (mkIterator nullptr), (size_ l =? 0)%N.
  split; [by apply begin_eq|]. split; [done|]. split; [by apply IsEmpty_eq|].
  unfold iterator_ne, iterator_eq. simpl.
  destruct cells as [|[a x] rest]; simpl in Hchain.
  - rewrite Hchain, Hsize. done.
  - destruct Hchain as [-> _]. rewrite Hsize. simpl. done.
Qed.

(** X15: [before_begin()] is the position in front of the first element:
    incrementing it gives [begin()], and it is different from [begin()]
    and from [end()]. *)
Theorem before_begin_precedes_begin (c : ValueType) s this :
  size_invariant s this →
  ∃ bb b, before_begin c this s = Ok bb s ∧ begin c this s = Ok b s ∧
          iterator_incr bb s = Ok b s ∧
          iterator_ne bb b = true ∧
          iterator_ne bb (mkIterator (c:=c) nullptr) = true.
Proof.
  intros (cells & l & Hobj & Hchain & Hsize).
  exists (mkIterator (head_of this)), (mkIterator (next_node (head_ l))).
  split; [done|]. split; [by apply begin_eq|]. split; [|split; [|done]].
  - unfold iterator_incr. simpl. step_with assert_true. by step_with get_next_head.
  - unfold iterator_ne. simpl. apply lseg_head_ptr in Hchain. rewrite Hchain.
    unfold node_ptr. by destruct (cells !! 0).
Qed.

(** X16: walking a list.  At the node number [j] of a list, the
    dereference reads the element number [j]; [++it] moves to the node
    number [j + 1], or to [end()] from the last node; [it++] does the
    same and returns the position it came from.  Nothing is modified. *)
Theorem iterator_walks_the_list (c : ValueType) s this cells j cell :
  is_list s this cells → cells !! j = Some cell →
  iterator_deref (c:=c) (mkIterator (heap_node cell.1)) s = Ok cell.2 s ∧
  iterator_incr (c:=c) (mkIterator (heap_node cell.1)) s
  = Ok (mkIterator (node_ptr cells (S j))) s ∧
  iterator_post_incr (c:=c) (mkIterator (heap_node cell.1)) s
  = Ok (mkIterator (heap_node cell.1), mkIterator (node_ptr cells (S j))) s ∧
  (S j = length cells → node_ptr cells (S j) = nullptr).
Proof.
  intros (l & _ & Hchain & _) Hj.
  pose proof (lseg_lookup _ _ _ _ _ Hchain Hj) as Hnode.
  assert (Hincr : iterator_incr (c:=c) (mkIterator (heap_node cell.1)) s
                  = Ok (mkIterator (node_ptr cells (S j))) s).
  { by erewrite iterator_incr_heap by exact Hnode. }
  split; [by erewrite iterator_deref_heap by exact Hnode|]. split; [done|]. split.
  - unfold iterator_post_incr. simpl. step_with assert_true.
    by erewrite bind_Ok by exact Hincr.
  - intros Hlast. unfold node_ptr. by rewrite lookup_ge_None_2 by lia.
Qed.

(** X17: an iterator that equals [end()] (also a default-constructed one)
    must not be dereferenced or incremented: in a debug build each of
    [*it], [++it] and [it++] aborts at its assertion, in a release build
    each is undefined behaviour. *)
Theorem end_iterator_is_not_usable (c : ValueType) (it : BasicIterator c) s :
  node_ it = nullptr →
  iterator_deref it s = (if NDEBUG then UB else Abort) ∧
  iterator_incr it s = (if NDEBUG then UB else Abort) ∧
  iterator_post_incr it s = (if NDEBUG then UB else Abort).
Proof.
  intros Hnull.
  unfold iterator_post_incr, iterator_deref, iterator_incr, bind, assert_, get_next,
    bind, load, ret.
  rewrite Hnull. simpl. by destruct NDEBUG.
Qed.

(** X18: [PopFront()] on an empty list never returns: a debug build aborts
    at the assertion, a release build dereferences the null head. *)
Theorem PopFront_on_empty s this :
  is_list s this [] →
  PopFront this s = (if NDEBUG then UB else Abort).
Proof.
  intros (l & Hobj & Hchain & Hsize). simpl in Hchain, Hsize.
  unfold PopFront, bind at 1, assert_. destruct NDEBUG.
  - step_with get_next_head. rewrite Hchain. done.
  - erewrite bind_Ok by (by apply IsEmpty_eq). by rewrite Hsize.
Qed.

(** X19: [InsertAfter] at [end()] (a null position) never inserts: a debug
    build aborts at the assertion, a release build dereferences the null
    pointer; the list is not touched before that. *)
Theorem InsertAfter_at_end s this (pos : ConstIterator) v :
  node_ pos = nullptr →
  InsertAfter this pos v s = (if NDEBUG then UB else Abort).
Proof.
  intros Hnull. unfold InsertAfter, bind at 1, assert_. rewrite Hnull. simpl.
  by destruct NDEBUG.
Qed.

(** X20: [EraseAfter] at a position that has no successor (the last node,
    [before_begin()] of an empty list, or [end()]) never returns.  Only
    on an empty list in a debug build does the assertion catch it; in
    every other case the null successor is dereferenced. *)
Theorem EraseAfter_without_successor s this cells (pos : ConstIterator) :
  is_list s this cells →
  pos_at this cells (length cells) (node_ pos) ∨ node_ pos = nullptr →
  EraseAfter this pos s =
  (if negb NDEBUG && (length cells =? 0) then Abort else UB).
Proof.
  intros Hlist Hpos.
  assert (Hnext : get_next (node_ pos) s = UB ∨ get_next (node_ pos) s = Ok nullptr s).
  { destruct Hpos as [Hpos| ->]; [|by left]. right.
    destruct Hlist as (l & Hobj & Hchain & _).
    destruct (length cells) as [|n] eqn:Hn; simpl in Hpos.
    - rewrite Hpos. erewrite get_next_head by done.
      destruct cells; [|done]. simpl in Hchain. by rewrite Hchain.
    - destruct Hpos as (c0 & Hc0 & ->).
      pose proof (lseg_lookup _ _ _ _ _ Hchain Hc0) as Hnode.
      erewrite get_next_heap by exact Hnode. simpl. unfold node_ptr.
      by rewrite lookup_ge_None_2 by lia. }
  assert (Hrest :
    (after_pos <- get_next (node_ pos) ;;
     node_after_deleted <- get_next after_pos ;;
     to_del <- get_next (node_ pos) ;;
     delete_Node to_del ;;;
     set_next (node_ pos) node_after_deleted ;;;
     decr_size this ;;;
     ret (mkIterator (c:=Mutable) node_after_deleted)) s = UB).
  { destruct Hnext as [Hub|Hnull].
    - unfold bind at 1. by rewrite Hub.
    - by erewrite bind_Ok by exact Hnull. }
  destruct Hlist as (l & Hobj & _ & Hsize).
  unfold EraseAfter, bind at 1, assert_. destruct NDEBUG; simpl; [done|].
  erewrite bind_Ok by (by apply IsEmpty_eq). rewrite Hsize.
  destruct cells as [|c0 rest]; simpl; [done|].
  replace (N.pos (Pos.of_succ_nat (length rest)) =? 0)%N with false by done.
  simpl. done.
Qed.

(** X21: the public [FillingListInSeries], called on a list that is not
    empty, aborts in a debug build at its first line, before the
    temporary list exists and before anything is read from the source. *)
Theorem FillingListInSeries_on_nonempty {C It} `{!Container (T:=T) C It}
    fuel s this l (from : C) :
  NDEBUG = false → objs s !! this = Some l → size_ l ≠ 0%N →
  FillingListInSeries fuel this from s = Abort.
Proof.
  intros Hdebug Hobj Hnz. unfold FillingListInSeries, bind at 1, assert_.
  rewrite Hdebug. erewrite IsEmpty_eq by done.
  apply N.eqb_neq in Hnz. by rewrite Hnz.
Qed.

(** X22: traversal from [begin()] to [end()] visits exactly [GetSize()]
    elements and leaves the machine state as it is. *)
Theorem traversal_visits_size fuel s this :
  size_invariant s this →
  ∃ n xs, GetSize this s = Ok n s ∧ N.of_nat (length xs) = n ∧
          (N.to_nat n < fuel → to_list fuel this s = Ok xs s).
Proof.
  intros (cells & Hlist). exists (N.of_nat (length cells)), cells.*2.
  split; [by apply GetSize_spec|]. split; [by rewrite length_fmap|].
  intros Hfuel. apply to_list_spec; [done|lia].
Qed.

(** X23: constructing a list from initial values and destroying it again
    is a round trip on the machine state: every node is freed, nothing is
    leaked; and when the construction throws, the state is the one before
    the call as well. *)
Theorem construct_destroy_roundtrip fuel s values :
  heap_wf s → length values < fuel →
  (l <- SingleLinkedList_init fuel values ;; destructor fuel l) s =
  (if fill_succeeds (heap_top (heap s)) values then Ok () s else Throw s).
Proof.
  intros Hwf Hfuel.
  pose proof (SingleLinkedList_init_exact fuel s values Hwf Hfuel) as Hinit.
  destruct (fill_succeeds (heap_top (heap s)) values); [|by apply bind_Throw].
  destruct Hinit as (s' & cells' & Hrun & Hwf' & Hlist & Hvals & Hnew & Hold & Hobjs).
  assert (Hlen : length cells' = length values).
  { by rewrite <-(length_fmap snd cells'), Hvals. }
  destruct (destructor_spec fuel s' _ cells' Hwf' Hlist ltac:(lia))
    as (s2 & Hdes & _ & Hobjs2 & Hgone & Hkeep).
  erewrite bind_Ok by exact Hrun. rewrite Hdes. f_equal.
  apply State_eq.
  - apply map_eq. intros b. destruct (decide (b ∈ cells'.*1)) as [Hin|Hnin].
    + rewrite Hgone by done. symmetry. by apply Hnew.
    + rewrite Hkeep by done. by apply Hold.
  - apply map_eq. intros o. rewrite Hobjs2.
    destruct (decide (o = fresh (dom (objs s)))) as [->|Hne].
    + rewrite lookup_delete_eq. symmetry. apply fresh_object_None.
    + rewrite lookup_delete_ne by done. by apply Hobjs.
Qed.

Lemma lexicographic_less_spec (xs ys : list T) :
  lexicographic_less xs ys = true ↔ spec_less xs ys.
Proof.
  revert ys. induction xs as [|x xs IH]; intros [|y ys]; simpl.
  - split; [done|]. intros (i & _ & _ & _ & [[_ Hlt]|(x & y & Hx & _)]).
    + simpl in Hlt. lia.
    + by rewrite lookup_nil in Hx.
  - split; [|done]. intros _. exists 0. split; [intros; lia|].
    split; [done|]. split; [simpl; lia|]. left. simpl. split; [done|lia].
  - split; [done|]. intros (i & _ & _ & Hi & [[Hlen _]|(x' & y' & _ & Hy & _)]).
    + simpl in Hi, Hlen. lia.
    + by rewrite lookup_nil in Hy.
  - destruct (Type_lt x y) eqn:Hxy.
    { split; [|done]. intros _. exists 0. split; [intros; lia|].
      split; [simpl; lia|]. split; [simpl; lia|]. right. by exists x, y. }
    destruct (Type_lt y x) eqn:Hyx.
    { split; [done|]. intros ([|i] & Hpre & _ & _ & Hat).
      - destruct Hat as [[Hlen _]|(x' & y' & Hx & Hy & Hlt)]; [simpl in Hlen; lia|].
        simpl in Hx, Hy. congruence.
      - destruct (Hpre 0 x y ltac:(lia) eq_refl eq_refl) as [_ Hc]. congruence. }
    rewrite IH. split.
    + intros (i & Hpre & Hi1 & Hi2 & Hat). exists (S i).
      split; [|split; [simpl; lia|split; [simpl; lia|]]].
      * intros [|j] x' y' Hj Hx Hy; simpl in Hx, Hy.
        -- by injection Hx as <-; injection Hy as <-.
        -- apply (Hpre j); [lia|done|done].
      * destruct Hat as [[Hlen Hlt]|Hat]; [left; simpl; lia|by right].
    + intros ([|i] & Hpre & Hi1 & Hi2 & Hat).
      * destruct Hat as [[Hlen _]|(x' & y' & Hx & Hy & Hlt)]; [simpl in Hlen; lia|].
        simpl in Hx, Hy. congruence.
      * exists i. split; [|split; [simpl in Hi1; lia|split; [simpl in Hi2; lia|]]].
        -- intros j x' y' Hj Hx Hy. apply (Hpre (S j)); [lia|done|done].
        -- destruct Hat as [[Hlen Hlt]|Hat]; [left; simpl in *; lia|by right].
Qed.

(** X24: [A < B] is the lexicographic order of the element sequences: it
    is [true] exactly when, after a common part of pairwise equivalent
    elements, either [A] has ended and [B] has not, or the element of [A]
    is less than the element of [B]. *)
Theorem operator_lt_lexicographic fuel s (A B : obj) ca cb :
  is_list s A ca → is_list s B cb → length ca < fuel →
  ∃ r, operator_lt fuel A B s = Ok r s ∧ (r = true ↔ spec_less ca.*2 cb.*2).
Proof.
  intros HA HB Hfuel. exists (lexicographic_less ca.*2 cb.*2).
  split; [by apply operator_lt_spec|apply lexicographic_less_spec].
Qed.

Lemma operator_eq_run fuel s (A B : obj) ca cb :
  is_list s A ca → is_list s B cb → length ca < fuel →
  operator_eq fuel A B s = Ok (equal_values ca.*2 cb.*2) s.
Proof.
  intros (la & Ha & Hca & _) (lb & Hb & Hcb & _) Hfuel.
  unfold operator_eq. step_with begin_eq. unfold end_ at 1.
  erewrite (bind_Ok (ret _)) by reflexivity.
  step_with begin_eq. unfold end_.
  erewrite (bind_Ok (ret _)) by reflexivity.
  by apply std_equal_spec.
Qed.

(** X25: the derived comparisons of two lists, which all leave the state
    as it is: [A != B] is the negation of [A == B], [A > B] is [B < A],
    and [A <= B] is the negation of [A > B]. *)
Theorem derived_comparisons fuel s (A B : obj) ca cb :
  is_list s A ca → is_list s B cb → length ca < fuel → length cb < fuel →
  ∃ eq gt,
    operator_eq fuel A B s = Ok eq s ∧
    operator_ne fuel A B s = Ok (negb eq) s ∧
    operator_lt fuel B A s = Ok gt s ∧
    operator_gt fuel A B s = Ok gt s ∧
    operator_le fuel A B s = Ok (negb gt) s.
Proof.
  intros HA HB Hfa Hfb.
  exists (equal_values ca.*2 cb.*2), (lexicographic_less cb.*2 ca.*2).
  pose proof (operator_eq_run fuel s A B ca cb HA HB Hfa) as Heq.
  pose proof (operator_lt_spec fuel s B A cb ca HB HA Hfb) as Hlt.
  split; [done|]. split; [|split; [done|split; [done|]]].
  - unfold operator_ne. by erewrite bind_Ok by exact Heq.
  - unfold operator_le. by erewrite bind_Ok by exact Hlt.
Qed.

Lemma equal_values_refl (xs : list T) :
  (∀ x, Type_eq x x = true) → equal_values xs xs = true.
Proof. intros Hrefl. induction xs as [|x xs IH]; simpl; [done|]. by rewrite Hrefl. Qed.

(** X26: a copy compares equal to its source.  When [==] on the elements
    is reflexive, the list made by the copy constructor and its source
    satisfy [A == B] and [B == A], and [A != B] is [false]. *)
Theorem copy_compares_equal fuel s (A : obj) ca :
  (∀ x, Type_eq x x = true) →
  heap_wf s → is_list s A ca → length ca < fuel →
  fill_succeeds (heap_top (heap s)) ca.*2 = true →
  ∃ B s', SingleLinkedList_copy fuel A s = Ok B s' ∧
          operator_eq fuel A B s' = Ok true s' ∧
          operator_eq fuel B A s' = Ok true s' ∧
          operator_ne fuel A B s' = Ok false s'.
Proof.
  intros Hrefl Hwf HA Hfuel Hok.
  pose proof (SingleLinkedList_copy_exact fuel s A ca Hwf HA Hfuel) as Hcopy.
  rewrite Hok in Hcopy.
  destruct Hcopy as (s' & cb & Hrun & Hwf' & HB' & Hvals & Hfree & Hold & Hobjs).
  assert (Hlen : length cb = length ca).
  { by rewrite <-(length_fmap snd cb), Hvals, length_fmap. }
  assert (HA' : is_list s' A ca).
  { eapply (is_list_frame s); [done| |].
    - apply Hobjs. destruct HA as (l & Hl & _). intros Heq.
      by apply (fresh_object_ne s A); [eauto|].
    - intros b Hb. apply Hold. intros Hin. apply Hfree in Hin.
      destruct (is_list_allocated _ _ _ _ HA Hb) as [n Hn]. congruence. }
  exists (fresh (dom (objs s))), s'. split; [done|].
  pose proof (operator_eq_run fuel s' A _ ca cb HA' HB' Hfuel) as H1.
  pose proof (operator_eq_run fuel s' _ A cb ca HB' HA' ltac:(lia)) as H2.
  rewrite Hvals, equal_values_refl in H1, H2 by done.
  split; [done|]. split; [done|].
  unfold operator_ne. by erewrite bind_Ok by exact H1.
Qed.

(** [InsertAfter] called on [A] with a position of the list [B]: the
    links change as in the call on [B]; only the counter that goes up is
    the one of [A]. *)
Lemma InsertAfter_foreign_run s (A B : obj) lA cb i (pos : ConstIterator) v :
  is_list s B cb → objs s !! A = Some lA → A ≠ B →
  pos_at B cb i (node_ pos) → can_allocate s v = true →
  ∃ it sA sB hdB nB,
    InsertAfter A pos v s = Ok it sA ∧
    InsertAfter B pos v s = Ok it sB ∧
    heap sA = heap sB ∧
    objs sA !! A = Some (mkList (head_ lA) ((size_ lA + 1) mod size_t_modulus)%N) ∧
    objs sA !! B = Some (mkList hdB (N.of_nat (length cb))) ∧
    objs sB !! B = Some (mkList hdB nB).
Proof.
  intros (lB & HobjB & Hchain & Hsize) HobjA Hne Hpos Hcan.
  assert (Hne' : B ≠ A) by done.
  destruct pos as [pn]. simpl in Hpos.
  destruct i as [|j]; simpl in Hpos.
  - subst pn.
    assert (HrunA : InsertAfter A (mkIterator (head_of B)) v s =
      Ok (mkIterator (heap_node (heap_top (heap s))))
         (mkState (<[heap_top (heap s) := mkNode v (next_node (head_ lB))]> (heap s))
            (<[A := mkList (head_ lA) ((size_ lA + 1) mod size_t_modulus)%N]>
               (<[B := mkList (mkNode (value (head_ lB)) (heap_node (heap_top (heap s))))
                         (size_ lB)]> (objs s))))).
    { unfold InsertAfter. simpl. step_with assert_true. step_with get_next_head.
      erewrite bind_Ok; [|by rewrite new_Node_eq, Hcan].
      step_with set_next_head. step_with incr_size_eq.
      by step_with get_next_head. }
    assert (HrunB : InsertAfter B (mkIterator (head_of B)) v s =
      Ok (mkIterator (heap_node (heap_top (heap s))))
         (mkState (<[heap_top (heap s) := mkNode v (next_node (head_ lB))]> (heap s))
            (<[B := mkList (mkNode (value (head_ lB)) (heap_node (heap_top (heap s))))
                      ((size_ lB + 1) mod size_t_modulus)%N]> (objs s)))).
    { unfold InsertAfter. simpl. step_with assert_true. step_with get_next_head.
      erewrite bind_Ok; [|by rewrite new_Node_eq, Hcan].
      step_with set_next_head. step_with incr_size_eq.
      step_with get_next_head. simpl. by rewrite insert_insert_eq. }
    eexists _, _, _, _, _. split; [exact HrunA|]. split; [exact HrunB|]. simpl.
    split; [done|]. split; [by rewrite lookup_insert_eq|].
    split; [|by rewrite lookup_insert_eq].
    rewrite lookup_insert_ne by done. by rewrite lookup_insert_eq, Hsize.
  - destruct Hpos as ([aj xj] & Hj & ->). simpl.
    pose proof (lseg_lookup _ _ _ _ _ Hchain Hj) as Haj. simpl in Haj.
    assert (Hna : heap_top (heap s) ≠ aj).
    { intros Heq. rewrite <-Heq in Haj. by rewrite heap_top_fresh in Haj. }
    assert (HrunA : InsertAfter A (mkIterator (heap_node aj)) v s =
      Ok (mkIterator (heap_node (heap_top (heap s))))
         (mkState (<[aj := mkNode xj (heap_node (heap_top (heap s)))]>
                     (<[heap_top (heap s) := mkNode v (node_ptr cb (S j))]> (heap s)))
            (<[A := mkList (head_ lA) ((size_ lA + 1) mod size_t_modulus)%N]> (objs s)))).
    { unfold InsertAfter. simpl. step_with assert_true. step_with get_next_heap.
      erewrite bind_Ok; [|by rewrite new_Node_eq, Hcan].
      step_with set_next_heap. step_with incr_size_eq.
      by step_with get_next_heap. }
    assert (HrunB : InsertAfter B (mkIterator (heap_node aj)) v s =
      Ok (mkIterator (heap_node (heap_top (heap s))))
         (mkState (<[aj := mkNode xj (heap_node (heap_top (heap s)))]>
                     (<[heap_top (heap s) := mkNode v (node_ptr cb (S j))]> (heap s)))
            (<[B := mkList (head_ lB) ((size_ lB + 1) mod size_t_modulus)%N]> (objs s)))).
    { unfold InsertAfter. simpl. step_with assert_true. step_with get_next_heap.
      erewrite bind_Ok; [|by rewrite new_Node_eq, Hcan].
      step_with set_next_heap. step_with incr_size_eq.
      by step_with get_next_heap. }
    eexists _, _, _, _, _. split; [exact HrunA|]. split; [exact HrunB|]. simpl.
    split; [done|]. split; [by rewrite lookup_insert_eq|].
    split; [|by rewrite lookup_insert_eq].
    rewrite lookup_insert_ne by done. rewrite HobjB, <-Hsize. by destruct lB.
Qed.

(** X27: [InsertAfter] does not check that [pos] belongs to the list it
    is called on, in no build.  Called on [A] with a position of another
    list [B], it returns normally: the new element is linked into [B],
    whose size stays what it was, and the size of [A] goes up although
    its elements are unchanged; the invariant of both lists is broken. *)
Theorem InsertAfter_foreign_position fuel s (A B : obj) ca cb i (pos : ConstIterator) v :
  heap_wf s → is_list s A ca → is_list s B cb → A ≠ B →
  (∀ b, b ∈ ca.*1 → b ∉ cb.*1) →
  pos_at B cb i (node_ pos) → can_allocate s v = true →
  length ca < fuel → S (length cb) < fuel →
  ∃ it s',
    InsertAfter A pos v s = Ok it s' ∧
    to_list fuel A s' = Ok ca.*2 s' ∧
    GetSize A s' = Ok (N.of_nat (S (length ca))) s' ∧
    to_list fuel B s' = Ok (take i cb.*2 ++ v :: drop i cb.*2) s' ∧
    GetSize B s' = Ok (N.of_nat (length cb)) s' ∧
    ¬ size_invariant s' A ∧ ¬ size_invariant s' B.
Proof.
  intros Hwf HA HB Hne Hdisj Hpos Hcan Hfa Hfb.
  pose proof HA as (lA & HobjA & HchainA & HsizeA).
  destruct (InsertAfter_foreign_run s A B lA cb i pos v HB HobjA Hne Hpos Hcan)
    as (it & sA & sB & hdB & nB & HrunA & HrunB & Hheap & HA' & HB' & HB'').
  pose proof (InsertAfter_spec s B cb i pos v Hwf HB Hpos) as Hspec.
  rewrite Hcan in Hspec.
  destruct Hspec as (sB' & HrunB' & HwfB & HlistB & _ & _ & HframeB).
  assert (sB' = sB) as -> by congruence.
  destruct HlistB as (lB' & HobjB' & HchainB' & _).
  assert (lB' = mkList hdB nB) as -> by congruence. simpl in HchainB'.
  destruct HframeB as [_ HheapB].
  assert (Hcan' := Hcan). unfold can_allocate in Hcan'.
  apply andb_true_iff in Hcan' as [Hlim _]. apply N.ltb_lt in Hlim.
  assert (Hbound : (N.of_nat (length ca) < heap_top (heap s))%N).
  { rewrite <-(length_fmap fst). apply bounded_NoDup_length.
    - destruct (heap_top_spec (heap s)) as (H1 & _). lia.
    - by eapply lseg_NoDup.
    - intros b Hb. split.
      + destruct (lseg_allocated _ _ _ _ _ HchainA Hb) as [n Hn].
        by destruct (Hwf b n Hn).
      + by eapply lseg_below_top. }
  assert (HszA : ((size_ lA + 1) mod size_t_modulus)%N = N.of_nat (S (length ca))).
  { rewrite HsizeA. apply size_incr_no_wrap. unfold size_t_modulus, addr_limit in *. lia. }
  assert (HchainA' : lseg (heap sA) (next_node (head_ lA)) nullptr ca).
  { rewrite Hheap. eapply lseg_frame; [|exact HchainA]. intros b Hb. apply HheapB.
    intros Hin. apply elem_of_cons in Hin as [->|Hin].
    - destruct (lseg_allocated _ _ _ _ _ HchainA Hb) as [n Hn].
      by rewrite heap_top_fresh in Hn.
    - apply (Hdisj b Hb). clear -Hin Hpos. destruct i as [|j]; simpl in Hpos.
      + rewrite Hpos in Hin. by apply elem_of_nil in Hin.
      + destruct Hpos as (c & Hc & Hp). rewrite Hp in Hin. simpl in Hin.
        apply list_elem_of_singleton in Hin. subst b.
        apply list_elem_of_fmap. exists c. split; [done|].
        by eapply list_elem_of_lookup_2. }
  assert (Hi : i ≤ length cb).
  { destruct i as [|j]; simpl in Hpos; [lia|].
    destruct Hpos as (c & Hc & _). apply lookup_lt_Some in Hc. lia. }
  assert (HlenB : length (take i cb ++ (heap_top (heap s), v) :: drop i cb)
                  = S (length cb)).
  { rewrite length_app. simpl. rewrite length_take, length_drop. lia. }
  exists it, sA. split; [done|].
  split; [|split; [|split; [|split; [|split]]]].
  - unfold to_list. step_with begin_eq. unfold end_. simpl.
    by apply traverse_spec.
  - unfold GetSize. erewrite get_size_eq by exact HA'. simpl. by rewrite HszA.
  - unfold to_list. step_with begin_eq. unfold end_. simpl.
    replace (take i cb.*2 ++ v :: drop i cb.*2)
      with ((take i cb ++ (heap_top (heap s), v) :: drop i cb).*2)
      by (by rewrite fmap_app, fmap_cons, fmap_take, fmap_drop).
    apply traverse_spec; [by rewrite Hheap|lia].
  - unfold GetSize. by erewrite get_size_eq by exact HB'.
  - intros (c & l & Hl & Hc & Hsz). rewrite HA' in Hl. injection Hl as <-.
    simpl in Hc, Hsz. pose proof (lseg_det _ _ _ _ Hc HchainA') as ->.
    rewrite HszA in Hsz. lia.
  - intros (c & l & Hl & Hc & Hsz). rewrite HB' in Hl. injection Hl as <-.
    simpl in Hc, Hsz. rewrite Hheap in Hc.
    pose proof (lseg_det _ _ _ _ Hc HchainB') as ->.
    rewrite HlenB in Hsz. lia.
Qed.

(** X28: the position of an erased element dangles.  After
    [EraseAfter(pos)] an iterator that still points to the removed node
    passes every assertion, since it is not null, and dereferencing or
    incrementing it is undefined behaviour in every build. *)
Theorem erased_position_dangles (c' : ValueType) s this cells i (pos : ConstIterator) c :
  heap_wf s → is_list s this cells → pos_at this cells i (node_ pos) →
  cells !! i = Some c →
  ∃ it s', EraseAfter this pos s = Ok it s' ∧
           iterator_deref (c:=c') (mkIterator (heap_node c.1)) s' = UB ∧
           iterator_incr (c:=c') (mkIterator (heap_node c.1)) s' = UB.
Proof.
  intros Hwf Hlist Hpos Hc.
  destruct (EraseAfter_spec s this cells i pos c Hwf Hlist Hpos Hc)
    as (s' & Hrun & _ & _ & Hfree & _).
  eexists _, s'. split; [exact Hrun|].
  unfold iterator_deref, iterator_incr. simpl.
  split; step_with assert_true; unfold get_next, bind, load; by rewrite Hfree.
Qed.

End Behaviour.

(** ** The container at work on concrete lists *)

(** Closes [is_list] on a concrete state by reading the chain off it. *)
Ltac read_list :=
  eexists; split; [vm_compute; reflexivity|];
  split; [|vm_compute; reflexivity];
  simpl; repeat (split; [reflexivity|]; eexists; split; [vm_compute; reflexivity|]);
  reflexivity.

Ltac check_heap := apply heap_wf_check; vm_compute; reflexivity.

(** C1, on the code: for A = {1} and B = {2}, [A < B] is [true] and
    [A >= B] is [true] as well, because [operator>=] computes
    [!(rhs < lhs)], the body of [operator<=]; so [A >= B] is not the
    negation of [A < B]. *)
Theorem C1_operator_ge_is_not_the_negation_of_lt :
  to_list (build:=debug_build) 2 1%positive state_1_2 = Ok [1%Z] state_1_2 ∧
  to_list (build:=debug_build) 2 2%positive state_1_2 = Ok [2%Z] state_1_2 ∧
  operator_lt (elem:=int_ElementType) (build:=debug_build) 2 1%positive 2%positive state_1_2
  = Ok true state_1_2 ∧
  operator_ge (elem:=int_ElementType) (build:=debug_build) 2 1%positive 2%positive state_1_2
  = Ok true state_1_2.
Proof. repeat split; vm_compute; reflexivity. Qed.

(** C7: on the list built from {1, 2, 3}, [EraseAfter(begin())] removes
    the 2: the list is then {1, 3}, its size is 2, and the returned
    position dereferences to 3. *)
Theorem C7_erase_after_begin (build : BuildMode) :
  ∃ s,
    (l <- SingleLinkedList_init (elem:=int_ElementType) 4 [1; 2; 3]%Z ;;
     b <- begin Mutable l ;;
     r <- EraseAfter l (BasicIterator_from Const b) ;;
     xs <- to_list 4 l ;;
     n <- GetSize l ;;
     x <- iterator_deref r ;;
     ret (xs, n, x)) empty_state
    = Ok ([1; 3]%Z, 2%N, 3%Z) s.
Proof. destruct build as [[|]]; eexists; vm_compute; reflexivity. Qed.

(** C2 as stated fails: in a debug build, on the non-empty list {1},
    [EraseAfter(begin())] is called on the last node, which has no
    successor; the assertion passes and the null successor is
    dereferenced. *)
Lemma C2_counterexample :
  is_list state_1_2 1%positive [(1%N, 1%Z)] ∧
  pos_at 1%positive [(1%N, 1%Z)] 1 (heap_node 1%N) ∧
  [(1%N, 1%Z)] !! 1 = None ∧
  EraseAfter (build:=debug_build) 1%positive (mkIterator (heap_node 1%N)) state_1_2 = UB ∧
  EraseAfter (build:=debug_build) 1%positive (mkIterator (heap_node 1%N)) state_1_2 ≠ Abort.
Proof.
  split; [read_list|]. split; [by eexists|]. split; [done|].
  split; [vm_compute; reflexivity|]. vm_compute. discriminate.
Qed.

(** The assertion of [EraseAfter] in a debug build: it fires on the empty
    list, and lets the call on the last node of {1} through. *)
Lemma C2_witness :
  EraseAfter (build:=debug_build) 1%positive (mkIterator (heap_node 7%N)) state_empty_list
  = Abort ∧
  EraseAfter (build:=debug_build) 1%positive (mkIterator (heap_node 1%N)) state_1_2
  ≠ Abort.
Proof.
  split.
  - destruct (C2_EraseAfter_asserts_nonempty (build:=debug_build) state_empty_list
                1%positive (mkList (mkNode 0%Z nullptr) 0%N)
                (mkIterator (heap_node 7%N)) eq_refl) as [H _].
    + vm_compute; reflexivity.
    + apply H. reflexivity.
  - destruct (C2_EraseAfter_asserts_nonempty (build:=debug_build) state_1_2
                1%positive (mkList (mkNode 0%Z (heap_node 1%N)) 1%N)
                (mkIterator (heap_node 1%N)) eq_refl) as [_ H].
    + vm_compute; reflexivity.
    + apply H. simpl. lia.
Defined.

(** [InsertAfter(begin(), 13)] on {1, 2, 3}, with an element type whose
    copy of 13 throws. *)
Lemma C3_witness :
  InsertAfter (elem:=unlucky_ElementType) (build:=debug_build)
    1%positive (mkIterator (heap_node 1%N)) 13%Z state_123
  = Throw state_123.
Proof.
  destruct (C3_InsertAfter_strong_guarantee (elem:=unlucky_ElementType) (build:=debug_build)
              state_123 1%positive cells_123 1 (mkIterator (heap_node 1%N)) 13%Z)
    as [H _].
  - check_heap.
  - read_list.
  - by eexists.
  - apply H. reflexivity.
Defined.

(** The initializer-list constructor on {1, 2, 3}. *)
Lemma C4_witness :
  ∃ this s', SingleLinkedList_init (elem:=int_ElementType) (build:=debug_build)
               4 [1; 2; 3]%Z empty_state = Ok this s' ∧
             to_list (build:=debug_build) 4 this s' = Ok [1; 2; 3]%Z s' ∧
             GetSize this s' = Ok 3%N s'.
Proof.
  destruct (C4_construct_then_traverse (elem:=int_ElementType) (build:=debug_build)
              4 empty_state [1; 2; 3]%Z) as [H _].
  - check_heap.
  - simpl; lia.
  - vm_compute; reflexivity.
  - exact H.
Defined.

(** The invariant on the list {1} of [state_1_2], through an insertion
    after the sentinel, [EraseAfter(before_begin())] and [PopFront]. *)
Lemma C5_witness :
  (∃ s', ((∃ it, InsertAfter (elem:=int_ElementType) (build:=debug_build)
                   1%positive (mkIterator (head_of 1%positive)) 7%Z state_1_2 = Ok it s') ∨
          InsertAfter (elem:=int_ElementType) (build:=debug_build)
            1%positive (mkIterator (head_of 1%positive)) 7%Z state_1_2 = Throw s') ∧
         heap_wf s' ∧ size_invariant s' 1%positive) ∧
  (∃ it s', EraseAfter (build:=debug_build)
              1%positive (mkIterator (head_of 1%positive)) state_1_2 = Ok it s' ∧
            heap_wf s' ∧ size_invariant s' 1%positive) ∧
  (∃ s', PopFront (build:=debug_build) 1%positive state_1_2 = Ok () s' ∧
         heap_wf s' ∧ size_invariant s' 1%positive).
Proof.
  destruct (C5_size_invariant_preserved (elem:=int_ElementType) (build:=debug_build)
              2 state_1_2 1%positive 2%positive [(1%N, 1%Z)] [(2%N, 2%Z)] 7%Z 0
              (mkIterator (head_of 1%positive))) as (_ & _ & HI & HE & HP & _).
  - check_heap.
  - read_list.
  - read_list.
  - simpl; lia.
  - simpl; lia.
  - split; [|split].
    + apply HI. reflexivity.
    + apply HE; [reflexivity|simpl; lia].
    + apply HP. discriminate.
Defined.

(** [operator==] on the lists {1} and {2}. *)
Lemma C6_witness :
  ∃ b, operator_eq (elem:=int_ElementType) (build:=debug_build) 2
         1%positive 2%positive state_1_2 = Ok b state_1_2 ∧
       (b = true ↔ spec_equal (elem:=int_ElementType) [1%Z] [2%Z]).
Proof.
  apply (C6_operator_eq (elem:=int_ElementType) (build:=debug_build) 2 state_1_2
           1%positive 2%positive [(1%N, 1%Z)] [(2%N, 2%Z)]).
  - read_list.
  - read_list.
  - simpl; lia.
Defined.

(** 9 in front of each of the two equal lists {5, 6}. *)
Lemma C8_witness :
  ∃ it s1' s2',
    (bb <- before_begin Const 1%positive ;;
     InsertAfter (elem:=int_ElementType) (build:=debug_build) 1%positive bb 9%Z)
      state_twins = Ok it s1' ∧
    PushFront (elem:=int_ElementType) 2%positive 9%Z state_twins = Ok () s2' ∧
    to_list (build:=debug_build) 4 1%positive s1' = Ok [9; 5; 6]%Z s1' ∧
    to_list (build:=debug_build) 4 2%positive s2' = Ok [9; 5; 6]%Z s2'.
Proof.
  destruct (C8_InsertAfter_before_begin_is_PushFront
              (elem:=int_ElementType) (build:=debug_build)
              state_twins state_twins 1%positive 2%positive
              [(1%N, 5%Z); (2%N, 6%Z)] [(3%N, 5%Z); (4%N, 6%Z)] 9%Z)
    as (it & s1' & s2' & ca' & cb' & H1 & H2 & HA & HB & Hva & Hvb & _).
  - check_heap.
  - check_heap.
  - read_list.
  - read_list.
  - reflexivity.
  - vm_compute; reflexivity.
  - vm_compute; reflexivity.
  - exists it, s1', s2'. split; [exact H1|]. split; [exact H2|].
    assert (Hla : length ca' = 3) by (by rewrite <-(length_fmap snd), Hva).
    assert (Hlb : length cb' = 3) by (by rewrite <-(length_fmap snd), Hvb).
    split.
    + rewrite (to_list_spec 4 s1' 1%positive ca' HA) by lia. by rewrite Hva.
    + rewrite (to_list_spec 4 s2' 2%positive cb' HB) by lia. by rewrite Hvb.
Defined.

(** A default iterator against [cbegin()] of {1, 2, 3}. *)
Lemma C10_witness :
  ∃ b, begin (T:=Z) Const 1%positive state_123 = Ok b state_123 ∧
       iterator_eq (BasicIterator_default Mutable) b = false ∧
       iterator_ne (BasicIterator_default Mutable) b = true.
Proof.
  destruct (C10_default_iterator (T:=Z) Mutable Const state_123 1%positive) as [_ H].
  apply H.
  - exists cells_123. read_list.
  - vm_compute; reflexivity.
Defined.

(** ** The further properties on concrete lists *)

Lemma X1_witness :
  ∃ s', PushFront (elem:=int_ElementType) 1%positive 7%Z state_1_2 = Ok () s' ∧
        to_list (build:=debug_build) 3 1%positive s' = Ok [7; 1]%Z s'.
Proof.
  destruct (PushFront_prepends (elem:=int_ElementType) (build:=debug_build)
              3 state_1_2 1%positive [(1%N, 1%Z)] 7%Z) as [_ H].
  - check_heap.
  - read_list.
  - simpl; lia.
  - destruct (H ltac:(vm_compute; reflexivity)) as (s' & a & Hrun & _ & _ & Hto & _).
    exists s'. split; [exact Hrun|exact Hto].
Defined.

Lemma X2_witness :
  ∃ s', PopFront (build:=debug_build) 1%positive state_123 = Ok () s' ∧
        to_list (build:=debug_build) 3 1%positive s' = Ok [2; 3]%Z s'.
Proof.
  destruct (PopFront_removes_first (T:=Z) (build:=debug_build)
              3 state_123 1%positive (1%N, 1%Z) [(2%N, 2%Z); (3%N, 3%Z)])
    as (s' & Hrun & _ & _ & Hto & _).
  - check_heap.
  - read_list.
  - simpl; lia.
  - exists s'. split; [exact Hrun|exact Hto].
Defined.

Lemma X3_witness :
  (PushFront (elem:=int_ElementType) 1%positive 9%Z ;;;
   PopFront (build:=debug_build) 1%positive) state_123 = Ok () state_123.
Proof.
  apply (PushFront_PopFront_roundtrip (elem:=int_ElementType) (build:=debug_build)
           state_123 1%positive cells_123 9%Z).
  - check_heap.
  - read_list.
  - vm_compute; reflexivity.
Defined.

Lemma X4_witness :
  ∃ it s', InsertAfter (elem:=int_ElementType) (build:=debug_build)
             1%positive (mkIterator (heap_node 1%N)) 9%Z state_123 = Ok it s' ∧
           to_list (build:=debug_build) 5 1%positive s' = Ok [1; 9; 2; 3]%Z s' ∧
           iterator_deref (build:=debug_build) it s' = Ok 9%Z s'.
Proof.
  destruct (InsertAfter_inserts (elem:=int_ElementType) (build:=debug_build)
              5 state_123 1%positive cells_123 1 (mkIterator (heap_node 1%N)) 9%Z)
    as (it & s' & a & Hrun & _ & _ & _ & Hto & _ & Hd & _).
  - check_heap.
  - read_list.
  - by eexists.
  - vm_compute; reflexivity.
  - simpl; lia.
  - exists it, s'. split; [exact Hrun|]. split; [exact Hto|exact Hd].
Defined.

Lemma X5_witness :
  ∃ it s', EraseAfter (build:=debug_build)
             1%positive (mkIterator (heap_node 1%N)) state_123 = Ok it s' ∧
           to_list (build:=debug_build) 3 1%positive s' = Ok [1; 3]%Z s' ∧
           iterator_deref (build:=debug_build) it s' = Ok 3%Z s'.
Proof.
  destruct (EraseAfter_removes (T:=Z) (build:=debug_build)
              3 state_123 1%positive cells_123 1 (mkIterator (heap_node 1%N)) (2%N, 2%Z))
    as (it & s' & Hrun & _ & _ & Hto & _ & _ & Hnext).
  - check_heap.
  - read_list.
  - by eexists.
  - reflexivity.
  - simpl; lia.
  - exists it, s'. split; [exact Hrun|]. split; [exact Hto|].
    exact (proj2 (Hnext (3%N, 3%Z) eq_refl)).
Defined.

Lemma X6_witness :
  ∃ s', (InsertAfter (elem:=int_ElementType) (build:=debug_build)
           1%positive (mkIterator (heap_node 1%N)) 9%Z ;;;
         EraseAfter (build:=debug_build) 1%positive (mkIterator (heap_node 1%N)))
          state_123 = Ok (mkIterator (heap_node 2%N)) s' ∧
        is_list s' 1%positive cells_123.
Proof.
  destruct (InsertAfter_EraseAfter_roundtrip (elem:=int_ElementType) (build:=debug_build)
              state_123 1%positive cells_123 1 (mkIterator (heap_node 1%N)) 9%Z)
    as (s' & Hrun & _ & Hlist & _).
  - check_heap.
  - read_list.
  - by eexists.
  - vm_compute; reflexivity.
  - exists s'. split; [exact Hrun|exact Hlist].
Defined.

Lemma X7_witness :
  ∃ s', Clear 4 1%positive state_123 = Ok () s' ∧
        IsEmpty 1%positive s' = Ok true s' ∧
        heap s' !! 2%N = None.
Proof.
  destruct (Clear_empties (T:=Z)
              4 state_123 1%positive cells_123)
    as (s' & Hrun & _ & He & _ & _ & Hfree & _).
  - check_heap.
  - read_list.
  - simpl; lia.
  - exists s'. split; [exact Hrun|]. split; [exact He|].
    apply Hfree. vm_compute. right. left.
Defined.

Lemma X8_witness :
  ∃ s', swap_lists 1%positive 2%positive state_1_2 = Ok () s' ∧
        is_list s' 1%positive [(2%N, 2%Z)] ∧ is_list s' 2%positive [(1%N, 1%Z)].
Proof.
  destruct (swap_exchanges (T:=Z)
              state_1_2 1%positive 2%positive [(1%N, 1%Z)] [(2%N, 2%Z)])
    as [(s' & Hrun & _ & H1 & H2 & _) _].
  - read_list.
  - read_list.
  - exists s'. split; [exact Hrun|]. split; [exact H1|exact H2].
Defined.

Lemma X9_witness :
  ∃ B s', SingleLinkedList_copy (elem:=int_ElementType) (build:=debug_build)
            4 1%positive state_123 = Ok B s' ∧
          to_list (build:=debug_build) 4 B s' = Ok [1; 2; 3]%Z s' ∧
          is_list s' 1%positive cells_123.
Proof.
  destruct (copy_constructor_deep_copy (elem:=int_ElementType) (build:=debug_build)
              4 state_123 1%positive cells_123)
    as (B & s' & cb & Hrun & _ & _ & HA & _ & _ & Hto & _).
  - check_heap.
  - read_list.
  - simpl; lia.
  - vm_compute; reflexivity.
  - exists B, s'. split; [exact Hrun|]. split; [exact Hto|exact HA].
Defined.

Lemma X10_witness :
  ∃ B s', SingleLinkedList_copy (elem:=int_ElementType) (build:=debug_build)
            5 1%positive state_123 = Ok B s' ∧
          ∃ s2, Clear 5 B s' = Ok () s2 ∧
                to_list (build:=debug_build) 5 1%positive s2 = Ok [1; 2; 3]%Z s2.
Proof.
  destruct (copy_is_independent (elem:=int_ElementType) (build:=debug_build)
              5 state_123 1%positive cells_123 7%Z)
    as (B & s' & Hrun & (s2 & Hclear & HA & _) & _).
  - check_heap.
  - read_list.
  - simpl; lia.
  - vm_compute; reflexivity.
  - exists B, s'. split; [exact Hrun|]. exists s2. split; [exact Hclear|exact HA].
Defined.

Lemma X11_witness :
  SingleLinkedList_init (elem:=unlucky_ElementType) (build:=debug_build)
    4 [1; 13; 2]%Z empty_state = Throw empty_state ∧
  SingleLinkedList_copy (elem:=unlucky_ElementType) (build:=debug_build)
    3 1%positive state_unlucky = Throw state_unlucky.
Proof.
  destruct (constructors_throw_restore (elem:=unlucky_ElementType) (build:=debug_build)
              4 empty_state) as [H1 _]; [check_heap|].
  destruct (constructors_throw_restore (elem:=unlucky_ElementType) (build:=debug_build)
              3 state_unlucky) as [_ H2]; [check_heap|].
  split.
  - apply H1; [simpl; lia|vm_compute; reflexivity].
  - apply (H2 1%positive [(1%N, 1%Z); (2%N, 13%Z)]);
      [read_list|simpl; lia|vm_compute; reflexivity].
Defined.

Lemma X12_witness :
  ∃ s', operator_assign (elem:=int_ElementType) (build:=debug_build)
          2 1%positive 2%positive state_1_2 = Ok 1%positive s' ∧
        to_list (build:=debug_build) 2 1%positive s' = Ok [2%Z] s' ∧
        heap s' !! 1%N = None ∧
        is_list s' 2%positive [(2%N, 2%Z)].
Proof.
  destruct (copy_assignment_copies (elem:=int_ElementType) (build:=debug_build)
              2 state_1_2 1%positive 2%positive [(1%N, 1%Z)] [(2%N, 2%Z)])
    as (s' & Hrun & _ & Hto & _ & Hfree & Hrhs & _).
  - check_heap.
  - read_list.
  - read_list.
  - discriminate.
  - simpl; lia.
  - simpl; lia.
  - vm_compute; reflexivity.
  - exists s'. split; [exact Hrun|]. split; [exact Hto|]. split.
    + apply Hfree. vm_compute. left.
    + apply Hrhs. intros b Hb Hin. vm_compute in Hb, Hin.
      apply list_elem_of_singleton in Hb. apply list_elem_of_singleton in Hin.
      subst b. discriminate.
Defined.

Lemma X13_witness :
  operator_assign (elem:=unlucky_ElementType) (build:=debug_build)
    3 2%positive 1%positive state_unlucky = Throw state_unlucky.
Proof.
  apply (copy_assignment_strong_guarantee (elem:=unlucky_ElementType) (build:=debug_build)
           3 state_unlucky 2%positive 1%positive [(3%N, 4%Z)] [(1%N, 1%Z); (2%N, 13%Z)]).
  - check_heap.
  - read_list.
  - read_list.
  - discriminate.
  - simpl; lia.
  - simpl; lia.
  - vm_compute; reflexivity.
Defined.

Lemma X14_witness :
  ∃ b e em, begin (T:=Z) Const 1%positive state_123 = Ok b state_123 ∧
            end_ Const 1%positive state_123 = Ok e state_123 ∧
            IsEmpty 1%positive state_123 = Ok em state_123 ∧
            iterator_eq b e = em ∧ iterator_ne b e = negb em.
Proof.
  apply (begin_is_end_iff_empty (T:=Z) Const state_123 1%positive).
  exists cells_123. read_list.
Defined.

Lemma X15_witness :
  ∃ bb b, before_begin (T:=Z) Const 1%positive state_123 = Ok bb state_123 ∧
          begin Const 1%positive state_123 = Ok b state_123 ∧
          iterator_incr (build:=debug_build) bb state_123 = Ok b state_123 ∧
          iterator_ne bb b = true ∧
          iterator_ne bb (mkIterator (c:=Const) nullptr) = true.
Proof.
  apply (before_begin_precedes_begin (T:=Z) (build:=debug_build)
           Const state_123 1%positive).
  exists cells_123. read_list.
Defined.

Lemma X16_witness :
  iterator_deref (build:=debug_build) (c:=Const) (mkIterator (heap_node 2%N)) state_123
  = Ok 2%Z state_123.
Proof.
  destruct (iterator_walks_the_list (T:=Z) (build:=debug_build)
              Const state_123 1%positive cells_123 1 (2%N, 2%Z)) as [H _].
  - read_list.
  - reflexivity.
  - exact H.
Defined.

Lemma X17_witness :
  iterator_deref (build:=debug_build) (BasicIterator_default Const) state_123 = Abort ∧
  iterator_incr (build:=release_build) (BasicIterator_default Const) state_123 = UB.
Proof.
  destruct (end_iterator_is_not_usable (T:=Z) (build:=debug_build)
              Const (BasicIterator_default Const) state_123 eq_refl) as [H1 _].
  destruct (end_iterator_is_not_usable (T:=Z) (build:=release_build)
              Const (BasicIterator_default Const) state_123 eq_refl) as (_ & H2 & _).
  split; [exact H1|exact H2].
Defined.

Lemma X18_witness :
  PopFront (build:=debug_build) 1%positive state_empty_list = Abort ∧
  PopFront (build:=release_build) 1%positive state_empty_list = UB.
Proof.
  split.
  - apply (PopFront_on_empty (T:=Z) (build:=debug_build)
             state_empty_list 1%positive). read_list.
  - apply (PopFront_on_empty (T:=Z) (build:=release_build)
             state_empty_list 1%positive). read_list.
Defined.

Lemma X19_witness :
  InsertAfter (elem:=int_ElementType) (build:=debug_build)
    1%positive (mkIterator nullptr) 9%Z state_123 = Abort.
Proof.
  apply (InsertAfter_at_end (elem:=int_ElementType) (build:=debug_build)
           state_123 1%positive (mkIterator nullptr) 9%Z eq_refl).
Defined.

Lemma X20_witness :
  EraseAfter (build:=debug_build) 1%positive (mkIterator (heap_node 3%N)) state_123 = UB.
Proof.
  apply (EraseAfter_without_successor (T:=Z) (build:=debug_build)
           state_123 1%positive cells_123 (mkIterator (heap_node 3%N))).
  - read_list.
  - left. by eexists.
Defined.

Lemma X21_witness :
  FillingListInSeries (elem:=int_ElementType) (build:=debug_build)
    4 1%positive [5%Z] state_123 = Abort.
Proof.
  apply (FillingListInSeries_on_nonempty (elem:=int_ElementType) (build:=debug_build)
           4 state_123 1%positive (mkList (mkNode 0%Z (heap_node 1%N)) 3%N) [5%Z]).
  - reflexivity.
  - vm_compute; reflexivity.
  - discriminate.
Defined.

Lemma X22_witness :
  ∃ n xs, GetSize (T:=Z) 1%positive state_123 = Ok n state_123 ∧
          N.of_nat (length xs) = n ∧
          (N.to_nat n < 4 → to_list (build:=debug_build) 4 1%positive state_123
                            = Ok xs state_123).
Proof.
  apply (traversal_visits_size (T:=Z) (build:=debug_build)
           4 state_123 1%positive).
  exists cells_123. read_list.
Defined.

Lemma X23_witness :
  (l <- SingleLinkedList_init (elem:=int_ElementType) (build:=debug_build) 4 [1; 2; 3]%Z ;;
   destructor 4 l) state_123 = Ok () state_123.
Proof.
  apply (construct_destroy_roundtrip (elem:=int_ElementType) (build:=debug_build)
           4 state_123 [1; 2; 3]%Z).
  - check_heap.
  - simpl; lia.
Defined.

Lemma X24_witness :
  ∃ r, operator_lt (elem:=int_ElementType) (build:=debug_build)
         2 1%positive 2%positive state_1_2 = Ok r state_1_2 ∧
       (r = true ↔ spec_less (elem:=int_ElementType) [1%Z] [2%Z]).
Proof.
  apply (operator_lt_lexicographic (elem:=int_ElementType) (build:=debug_build)
           2 state_1_2 1%positive 2%positive [(1%N, 1%Z)] [(2%N, 2%Z)]).
  - read_list.
  - read_list.
  - simpl; lia.
Defined.

Lemma X25_witness :
  ∃ eq gt,
    operator_eq (elem:=int_ElementType) (build:=debug_build)
      2 1%positive 2%positive state_1_2 = Ok eq state_1_2 ∧
    operator_ne (elem:=int_ElementType) (build:=debug_build)
      2 1%positive 2%positive state_1_2 = Ok (negb eq) state_1_2 ∧
    operator_lt (elem:=int_ElementType) (build:=debug_build)
      2 2%positive 1%positive state_1_2 = Ok gt state_1_2 ∧
    operator_gt (elem:=int_ElementType) (build:=debug_build)
      2 1%positive 2%positive state_1_2 = Ok gt state_1_2 ∧
    operator_le (elem:=int_ElementType) (build:=debug_build)
      2 1%positive 2%positive state_1_2 = Ok (negb gt) state_1_2.
Proof.
  apply (derived_comparisons (elem:=int_ElementType) (build:=debug_build)
           2 state_1_2 1%positive 2%positive [(1%N, 1%Z)] [(2%N, 2%Z)]).
  - read_list.
  - read_list.
  - simpl; lia.
  - simpl; lia.
Defined.

Lemma X26_witness :
  ∃ B s', SingleLinkedList_copy (elem:=int_ElementType) (build:=debug_build)
            4 1%positive state_123 = Ok B s' ∧
          operator_eq (elem:=int_ElementType) (build:=debug_build) 4 1%positive B s'
          = Ok true s'.
Proof.
  destruct (copy_compares_equal (elem:=int_ElementType) (build:=debug_build)
              4 state_123 1%positive cells_123)
    as (B & s' & Hrun & Heq & _).
  - intros x. apply Z.eqb_refl.
  - check_heap.
  - read_list.
  - simpl; lia.
  - vm_compute; reflexivity.
  - exists B, s'. split; [exact Hrun|exact Heq].
Defined.

Lemma X27_witness :
  ∃ it s', InsertAfter (elem:=int_ElementType) (build:=debug_build)
             1%positive (mkIterator (head_of 2%positive)) 9%Z state_1_2 = Ok it s' ∧
           GetSize 1%positive s' = Ok 2%N s' ∧
           to_list (build:=debug_build) 3 1%positive s' = Ok [1%Z] s' ∧
           to_list (build:=debug_build) 3 2%positive s' = Ok [9; 2]%Z s' ∧
           GetSize 2%positive s' = Ok 1%N s'.
Proof.
  destruct (InsertAfter_foreign_position (elem:=int_ElementType) (build:=debug_build)
              3 state_1_2 1%positive 2%positive [(1%N, 1%Z)] [(2%N, 2%Z)] 0
              (mkIterator (head_of 2%positive)) 9%Z)
    as (it & s' & Hrun & HtA & HsA & HtB & HsB & _).
  - check_heap.
  - read_list.
  - read_list.
  - discriminate.
  - intros b Hb Hin. vm_compute in Hb, Hin.
    apply list_elem_of_singleton in Hb. apply list_elem_of_singleton in Hin.
    subst b. discriminate.
  - reflexivity.
  - vm_compute; reflexivity.
  - simpl; lia.
  - simpl; lia.
  - exists it, s'. split; [exact Hrun|]. split; [exact HsA|].
    split; [exact HtA|]. split; [exact HtB|exact HsB].
Defined.

Lemma X28_witness :
  ∃ it s', EraseAfter (build:=debug_build)
             1%positive (mkIterator (heap_node 1%N)) state_123 = Ok it s' ∧
           iterator_deref (build:=debug_build) (c:=Mutable)
             (mkIterator (heap_node 2%N)) s' = UB.
Proof.
  destruct (erased_position_dangles (T:=Z) (build:=debug_build)
              Mutable state_123 1%positive cells_123 1 (mkIterator (heap_node 1%N))
              (2%N, 2%Z))
    as (it & s' & Hrun & Hd & _).
  - check_heap.
  - read_list.
  - by eexists.
  - reflexivity.
  - exists it, s'. split; [exact Hrun|exact Hd].
Defined.
